(** * kilo voice-control client: audio capture and session protocol

    A shallow embedding of the client services of the voice-control app:

    - [AudioService]         src/voice-control-app/src/services/audio.ts
    - [AudioRecorderModule]  the Android native recorder (Java)
    - [WebSocketService]     src/voice-control-app/src/services/websocket.ts

    Each service object becomes a record of its fields, each method a
    function on that record.  What the platform decides (whether the
    microphone opens, whether [socket.emit] throws, when a timer fires,
    which frames the server sends) is an explicit argument or a labelled
    step, so every statement below quantifies over it. *)

From stdpp Require Import base strings list gmap.
From Stdlib Require Import ZArith Lia.
From Stdlib Require PrimFloat SpecFloat FloatOps Uint63.

Open Scope Z_scope.

(** A recorded buffer: the bytes of a [Blob] (JS) or of a PCM frame. *)
Abbreviation Blob := (list Byte.byte).

(* ===================================================================== *)
(** * AudioService (audio.ts) *)
(* ===================================================================== *)

Module AudioService.

(** Payload of the ['audio_chunk'] event: [{ data, sequence, timestamp }].
    [data] is the base64 text of the buffer in the source; the text
    encoding is left out and the bytes are kept. *)
Record AudioChunk := {
  chunk_data : Blob;
  chunk_sequence : nat;
  chunk_timestamp : Z
}.

(** Calls of [emit(event, data)], in order. *)
Inductive AudioEvent :=
| recording_started (startTime : Z)
| audio_chunk (c : AudioChunk)
| recording_stopped (duration : Z) (sequenceCount : nat).

Inductive AudioError :=
| AlreadyRecording        (* Error('Already recording') *)
| FailedToStart           (* Error(`Failed to start recording: ...`) *)
| NotCurrentlyRecording.  (* Error('Not currently recording') *)

(** The fields of the class that recording touches.  [processing] holds
    the calls of [processAudioChunk] that are suspended at an [await];
    [emitted] is the trace of [emit]. *)
Record t := {
  mediaRecorder : bool;          (* this.mediaRecorder !== null *)
  audioChunks : list Blob;
  stream : bool;                 (* this.stream !== null *)
  isRecording : bool;
  startTime : Z;
  sequence : nat;
  processing : list Blob;
  emitted : list AudioEvent
}.

Definition init : t :=
  {| mediaRecorder := false; audioChunks := []; stream := false;
     isRecording := false; startTime := 0; sequence := 0%nat;
     processing := []; emitted := [] |}.

Definition emit (e : AudioEvent) (s : t) : t :=
  {| mediaRecorder := mediaRecorder s; audioChunks := audioChunks s;
     stream := stream s; isRecording := isRecording s;
     startTime := startTime s; sequence := sequence s;
     processing := processing s; emitted := emitted s ++ [e] |}.

(** What the browser answers to [startRecording]. *)
Inductive Media :=
| MicrophoneRefused     (* getUserMedia rejects *)
| RecorderRefused       (* new MediaRecorder(...) throws *)
| RecorderStartThrows   (* mediaRecorder.start(100) throws *)
| MediaReady.

(** [startRecording()], with [now] the value of [Date.now()]. *)
Definition startRecording (env : Media) (now : Z) (s : t) : t * option AudioError :=
  if isRecording s then (s, Some AlreadyRecording)
  else match env with
       | MicrophoneRefused => (s, Some FailedToStart)
       | RecorderRefused =>
           ({| mediaRecorder := mediaRecorder s; audioChunks := audioChunks s;
               stream := true; isRecording := isRecording s;
               startTime := startTime s; sequence := sequence s;
               processing := processing s; emitted := emitted s |},
            Some FailedToStart)
       | RecorderStartThrows =>
           ({| mediaRecorder := true; audioChunks := [];
               stream := true; isRecording := isRecording s;
               startTime := startTime s; sequence := sequence s;
               processing := processing s; emitted := emitted s |},
            Some FailedToStart)
       | MediaReady =>
           (emit (recording_started now)
              {| mediaRecorder := true; audioChunks := [];
                 stream := true; isRecording := true;
                 startTime := now; sequence := 0%nat;
                 processing := processing s; emitted := emitted s |},
            None)
       end.

(** The [ondataavailable] handler installed by [setupMediaRecorder]: an
    empty buffer is ignored; otherwise the buffer is stored, the counter
    is incremented, and [processAudioChunk] is started (it suspends at
    [await chunk.arrayBuffer()]). *)
Definition ondataavailable (b : Blob) (s : t) : t :=
  if (0 <? length b)%nat then
    {| mediaRecorder := mediaRecorder s; audioChunks := audioChunks s ++ [b];
       stream := stream s; isRecording := isRecording s;
       startTime := startTime s; sequence := S (sequence s);
       processing := processing s ++ [b]; emitted := emitted s |}
  else s.

(** The oldest suspended [processAudioChunk] resumes: it emits
    ['audio_chunk'] with the value [this.sequence] has at that moment.
    [converted = false] is the [catch] branch, which only logs. *)
Definition processAudioChunk (converted : bool) (now : Z) (s : t) : t :=
  match processing s with
  | [] => s
  | b :: rest =>
      let s' := {| mediaRecorder := mediaRecorder s; audioChunks := audioChunks s;
                   stream := stream s; isRecording := isRecording s;
                   startTime := startTime s; sequence := sequence s;
                   processing := rest; emitted := emitted s |} in
      if converted then
        emit (audio_chunk {| chunk_data := b; chunk_sequence := sequence s;
                             chunk_timestamp := now |}) s'
      else s'
  end.

(** [cleanup()]. *)
Definition cleanup (s : t) : t :=
  {| mediaRecorder := false; audioChunks := [];
     stream := false; isRecording := isRecording s;
     startTime := startTime s; sequence := sequence s;
     processing := processing s; emitted := emitted s |}.

(** [stopRecording()]: the guard, then the body of the [onstop] handler
    that the recorder runs once it has stopped. *)
Definition stopRecording (now : Z) (s : t) : t * option AudioError :=
  if negb (isRecording s) || negb (mediaRecorder s) then (s, Some NotCurrentlyRecording)
  else
    let duration := now - startTime s in
    let s1 := {| mediaRecorder := mediaRecorder s; audioChunks := audioChunks s;
                 stream := stream s; isRecording := false;
                 startTime := startTime s; sequence := 0%nat;
                 processing := processing s; emitted := emitted s |} in
    let s2 := cleanup s1 in
    (emit (recording_stopped duration (sequence s2)) s2, None).

(** One buffer delivered and converted before the next one arrives: the
    schedule of a recorder that delivers a buffer every 100 ms. *)
Definition deliver (s : t) (bt : Blob * Z) : t :=
  processAudioChunk true (snd bt) (ondataavailable (fst bt) s).

(** A recording pass: the buffers the recorder delivers, each with the
    time at which its conversion completes. *)
Definition pass (bs : list (Blob * Z)) (s : t) : t := foldl deliver s bs.

Fixpoint chunks (es : list AudioEvent) : list AudioChunk :=
  match es with
  | [] => []
  | audio_chunk c :: es' => c :: chunks es'
  | _ :: es' => chunks es'
  end.

(** The chunk events of a pass that starts with the counter at [n]. *)
Fixpoint numbered (n : nat) (bs : list (Blob * Z)) : list AudioChunk :=
  match bs with
  | [] => []
  | (b, time) :: bs' =>
      if (0 <? length b)%nat then
        {| chunk_data := b; chunk_sequence := S n; chunk_timestamp := time |}
          :: numbered (S n) bs'
      else numbered n bs'
  end.

(** [AudioRecordingState], as [getRecordingState()] builds it. *)
Record AudioRecordingState := {
  rs_isRecording : bool;
  rs_isProcessing : bool;
  rs_audioLevel : Z;
  rs_duration : Z
}.

(** [getRecordingState()], with [now] the value of [Date.now()]. *)
Definition getRecordingState (now : Z) (s : t) : AudioRecordingState :=
  {| rs_isRecording := isRecording s; rs_isProcessing := false;
     rs_audioLevel := 0;
     rs_duration := if isRecording s then now - startTime s else 0 |}.

(** [getIsRecording()]. *)
Definition getIsRecording (s : t) : bool := isRecording s.

(** A burst: the buffers [bs] arrive one after the other before any
    conversion completes. *)
Definition arrive (bs : list Blob) (s : t) : t :=
  foldl (λ s b, ondataavailable b s) s bs.

(** The suspended conversions complete, oldest first, at the given
    times. *)
Definition convert (times : list Z) (s : t) : t :=
  foldl (λ s now, processAudioChunk true now s) s times.

(** The [onstop] handler that [stopRecording()] installs on the recorder:
    it runs once the recorder has stopped. *)
Definition onstop (now : Z) (s : t) : t :=
  let duration := now - startTime s in
  let s1 := {| mediaRecorder := mediaRecorder s; audioChunks := audioChunks s;
               stream := stream s; isRecording := false;
               startTime := startTime s; sequence := 0%nat;
               processing := processing s; emitted := emitted s |} in
  let s2 := cleanup s1 in
  emit (recording_stopped duration (sequence s2)) s2.

(** [destroy()]: [if (this.isRecording) this.stopRecording().catch(...)],
    then [cleanup()] at once.  When the guard of [stopRecording()] passes,
    the recorder is asked to stop and its [onstop] handler runs later, so
    [destroy()] itself leaves [isRecording] set with [mediaRecorder]
    already null.  (It also closes the audio context and clears the
    listener table, which are not part of this state; [emitted] records
    the calls of [emit], whoever listens.) *)
Definition destroy (s : t) : t := cleanup s.

(** After [destroy()] the recorder still has to stop: the service is
    flagged recording and holds no recorder.  No other call leaves the
    service so: [startRecording] sets the two fields together and the
    [onstop] handler clears them together. *)
Definition stopRequested (s : t) : bool := isRecording s && negb (mediaRecorder s).

(** What the recorder and the application do to the service: the
    application calls [startRecording], [stopRecording] and [destroy];
    the recorder delivers a buffer; a recorder that [destroy()] asked to
    stop has stopped; a suspended conversion completes ([ok]) or fails. *)
Inductive Step :=
| starts (env : Media) (now : Z)
| stops (now : Z)
| dataavailable (b : Blob)
| conversion (ok : bool) (now : Z)
| destroys
| stopped (now : Z).

Definition perform (s : t) (a : Step) : t :=
  match a with
  | starts env now => fst (startRecording env now s)
  | stops now => fst (stopRecording now s)
  | dataavailable b => ondataavailable b s
  | conversion ok now => processAudioChunk ok now s
  | destroys => destroy s
  | stopped now => if stopRequested s then onstop now s else s
  end.

Definition session (steps : list Step) (s : t) : t := foldl perform s steps.

(** Steps of a service that is not destroyed and whose recorder delivers
    its buffers while the service records, as a recorder does that is
    started by [startRecording] and stopped by [stopRecording]. *)
Fixpoint regular (steps : list Step) (s : t) : bool :=
  match steps with
  | [] => true
  | a :: rest =>
      match a with
      | dataavailable _ => isRecording s
      | destroys | stopped _ => false
      | starts _ _ | stops _ | conversion _ _ => true
      end && regular rest (perform s a)
  end.

(** The start and stop notices among the events: [true] for
    ['recording_started'], [false] for ['recording_stopped']. *)
Definition notices (es : list AudioEvent) : list bool :=
  omap (λ e, match e with
             | recording_started _ => Some true
             | recording_stopped _ _ => Some false
             | audio_chunk _ => None
             end) es.

(** [alternates b l]: [l] is [b], [negb b], [b], ... *)
Fixpoint alternates (b : bool) (l : list bool) : bool :=
  match l with
  | [] => true
  | x :: l' => bool_decide (x = b) && alternates (negb b) l'
  end.

End AudioService.

(* ===================================================================== *)
(** * AudioRecorderModule (Android native recorder) *)
(* ===================================================================== *)

Module AudioRecorderModule.

(** Java [int]: 32-bit two's complement. *)
Definition wrap32 (z : Z) : Z := (z + 2147483648) mod 4294967296 - 2147483648.

(** How a [Promise] handed to a [@ReactMethod] is settled. *)
Inductive Settled :=
| resolve (value : string)
| reject (code : string) (message : string).

(** Events sent to the JS side with [sendEvent]. *)
Inductive NativeEvent :=
| recordingStarted
| recordingStopped
| audioData (samples : list Z) (sequence : Z).

Record t := {
  audioRecord : bool;        (* audioRecord != null *)
  recordingThread : bool;    (* recordingThread != null *)
  isRecording : bool;        (* the AtomicBoolean *)
  sequenceCounter : Z;
  sent : list NativeEvent
}.

Definition init : t :=
  {| audioRecord := false; recordingThread := false; isRecording := false;
     sequenceCounter := 0; sent := [] |}.

Definition sendEvent (e : NativeEvent) (s : t) : t :=
  {| audioRecord := audioRecord s; recordingThread := recordingThread s;
     isRecording := isRecording s; sequenceCounter := sequenceCounter s;
     sent := sent s ++ [e] |}.

(** [getNextSequence()]: [return ++sequenceCounter]. *)
Definition getNextSequence (s : t) : Z * t :=
  let c := wrap32 (sequenceCounter s + 1) in
  (c, {| audioRecord := audioRecord s; recordingThread := recordingThread s;
         isRecording := isRecording s; sequenceCounter := c;
         sent := sent s |}).

(** What the platform answers when the recorder is opened. *)
Inductive Platform :=
| ConstructorThrows (msg : string)   (* new AudioRecord(...) throws *)
| Uninitialized                      (* getState() != STATE_INITIALIZED *)
| StartThrows (msg : string)         (* audioRecord.startRecording() throws *)
| Ready.

(** [startRecording(promise)]. *)
Definition startRecording (env : Platform) (s : t) : t * Settled :=
  if isRecording s then (s, reject "ALREADY_RECORDING" "Recording is already in progress")
  else match env with
       | ConstructorThrows msg => (s, reject "RECORDING_ERROR" msg)
       | Uninitialized =>
           ({| audioRecord := true; recordingThread := recordingThread s;
               isRecording := isRecording s; sequenceCounter := sequenceCounter s;
               sent := sent s |},
            reject "INIT_FAILED" "Failed to initialize AudioRecord")
       | StartThrows msg =>
           ({| audioRecord := true; recordingThread := recordingThread s;
               isRecording := isRecording s; sequenceCounter := sequenceCounter s;
               sent := sent s |},
            reject "RECORDING_ERROR" msg)
       | Ready =>
           (sendEvent recordingStarted
              {| audioRecord := true; recordingThread := true;
                 isRecording := true; sequenceCounter := sequenceCounter s;
                 sent := sent s |},
            resolve "Recording started successfully")
       end.

(** One turn of the loop of [processAudioData()]: [samples] is what
    [audioRecord.read] returned ([readResult] is its length; an error code
    or an empty read is the empty list). *)
Definition processRead (s : t) (samples : list Z) : t :=
  if isRecording s then
    if (0 <? length samples)%nat then
      let '(n, s') := getNextSequence s in
      sendEvent (audioData samples n) s'
    else s
  else s.

Definition processAudioData (reads : list (list Z)) (s : t) : t :=
  foldl processRead s reads.

(** The private [stopRecording()]. *)
Definition stop (s : t) : t :=
  if isRecording s then
    {| audioRecord := false; recordingThread := false; isRecording := false;
       sequenceCounter := sequenceCounter s; sent := sent s |}
  else s.

(** [stopRecording(promise)]. *)
Definition stopRecording (s : t) : t * Settled :=
  if negb (isRecording s) then (s, reject "NOT_RECORDING" "No recording in progress")
  else (sendEvent recordingStopped (stop s), resolve "Recording stopped successfully").

Fixpoint sequences (es : list NativeEvent) : list Z :=
  match es with
  | [] => []
  | audioData _ n :: es' => n :: sequences es'
  | _ :: es' => sequences es'
  end.

(** The sequence numbers sent while the loop of
    [processAudioData] runs, from a counter at [n]. *)
Fixpoint counted (n : Z) (reads : list (list Z)) : list Z :=
  match reads with
  | [] => []
  | r :: reads' =>
      if (0 <? length r)%nat then
        wrap32 (n + 1)
          :: counted (wrap32 (n + 1)) reads'
      else counted n reads'
  end.

(** ** Sample conversion *)

(** Java [byte], [short] and [long] as two's complement ranges of [Z]. *)
Definition wrap8 (z : Z) : Z := (z + 128) mod 256 - 128.
Definition wrap64 (z : Z) : Z :=
  (z + 9223372036854775808) mod 18446744073709551616 - 9223372036854775808.

Definition isShort (z : Z) : Prop := -32768 ≤ z ≤ 32767.
Definition isByte (z : Z) : Prop := -128 ≤ z ≤ 127.

(** The two bytes written for one sample: [(byte) (s & 0x00FF)] and
    [(byte) ((s & 0xFF00) >> 8)], with [s] promoted to [int]. *)
Definition sampleBytes (s : Z) : list Z :=
  [wrap8 (Z.land s 255); wrap8 (Z.shiftr (Z.land s 65280) 8)].

(** [shortsToBytes(shorts, length)]; [None] is the
    [ArrayIndexOutOfBoundsException] of a [length] beyond the array. *)
Definition shortsToBytes (shorts : list Z) (length : nat) : option (list Z) :=
  if decide (length ≤ List.length shorts)%nat
  then Some (flat_map sampleBytes (take length shorts))
  else None.

Import PrimFloat.

(** Java's [(double) i] for an [int] and [(int) d] for a [double]: the
    conversion of an [int] is exact; the cast truncates towards zero,
    sends NaN to 0 and saturates. *)
Definition intToDouble (i : Z) : PrimFloat.float :=
  if (i <? 0)
  then PrimFloat.opp (PrimFloat.of_uint63 (Uint63.of_Z (- i)))
  else PrimFloat.of_uint63 (Uint63.of_Z i).

Definition doubleToInt (d : PrimFloat.float) : Z :=
  match FloatOps.Prim2SF d with
  | SpecFloat.S754_zero _ => 0
  | SpecFloat.S754_nan => 0
  | SpecFloat.S754_infinity sg => if sg then -2147483648 else 2147483647
  | SpecFloat.S754_finite sg m e =>
      let a := if (0 <=? e) then Z.shiftl (Z.pos m) e
               else Z.shiftr (Z.pos m) (- e) in
      Z.max (-2147483648) (Z.min 2147483647 (if sg then - a else a))
  end.

(** [(int) (average / 327.67)]. *)
#[warnings="-inexact-float"]
Definition scaled (average : Z) : Z :=
  doubleToInt (PrimFloat.div (intToDouble average) 327.67%float).

(** [calculateAudioLevel(buffer, bufferSize)]: the loop adds
    [Math.abs(buffer[i])] into a [long]; [None] is the exception of a
    [bufferSize] beyond the array ([ArrayIndexOutOfBoundsException]) or of
    [sum / 0] ([ArithmeticException]). *)
Definition calculateAudioLevel (buffer : list Z) (bufferSize : nat) : option Z :=
  if decide (bufferSize ≤ List.length buffer)%nat then
    let sum := foldl (λ sum x, wrap64 (sum + Z.abs x)) 0 (take bufferSize buffer) in
    if decide (bufferSize = 0%nat) then None
    else
      let average := wrap32 (Z.quot sum (Z.of_nat bufferSize)) in
      Some (Z.min 100 (Z.max 0 (scaled average)))
  else None.

(** The level as a fraction of full scale, in exact arithmetic. *)
Definition percentOfFullScale (buffer : list Z) (bufferSize : nat) : Z :=
  Z.min 100
    (foldr Z.add 0 (Z.abs <$> take bufferSize buffer) / Z.of_nat bufferSize
     * 100 / 32767).

(** [forallb] over the integers [a, a + 1, ..., a + n - 1]. *)
Fixpoint upto (n : nat) (a : Z) (p : Z → bool) : bool :=
  match n with
  | O => true
  | S n' => p a && upto n' (a + 1) p
  end.

(** ** The module over its life *)

(** [isRecording(promise)] and [isCurrentlyRecording()]. *)
Definition isCurrentlyRecording (s : t) : bool := isRecording s.

(** [onCatalystInstanceDestroy()]: the private [stopRecording()]. *)
Definition onCatalystInstanceDestroy (s : t) : t := stop s.

(** [startBackgroundRecording()] and [stopBackgroundRecording()]: the
    [@ReactMethod]s with a promise that only logs. *)
Definition startBackgroundRecording (env : Platform) (s : t) : t :=
  fst (startRecording env s).

Definition stopBackgroundRecording (s : t) : t := fst (stopRecording s).

(** What happens to the module: calls from JS, calls from the tile
    service, a turn of the recording thread's loop, the teardown of the
    React instance. *)
Inductive Call :=
| callStart (env : Platform)
| callStop
| backgroundStart (env : Platform)
| backgroundStop
| loopRead (samples : list Z)
| instanceDestroyed.

Definition perform (s : t) (c : Call) : t :=
  match c with
  | callStart env => fst (startRecording env s)
  | callStop => fst (stopRecording s)
  | backgroundStart env => startBackgroundRecording env s
  | backgroundStop => stopBackgroundRecording s
  | loopRead samples => processRead s samples
  | instanceDestroyed => onCatalystInstanceDestroy s
  end.

Definition session (cs : list Call) (s : t) : t := foldl perform s cs.

(** Whether the events [es] leave a recording announced as running
    ([open] before them): ["recordingStarted"] announces one,
    ["recordingStopped"] ends it. *)
Definition announced (open : bool) (es : list NativeEvent) : bool :=
  foldl (λ open e, match e with
                   | recordingStarted => true
                   | recordingStopped => false
                   | audioData _ _ => open
                   end) open es.

(** [orderly open es]: in [es], a stop notice only comes while a
    recording is announced as running. *)
Fixpoint orderly (open : bool) (es : list NativeEvent) : bool :=
  match es with
  | [] => true
  | recordingStarted :: es' => orderly true es'
  | recordingStopped :: es' => open && orderly false es'
  | audioData _ _ :: es' => orderly open es'
  end.

End AudioRecorderModule.

(* ===================================================================== *)
(** * WebSocketService (websocket.ts) *)
(* ===================================================================== *)

Module WebSocketService.

(** ** Messages *)

(** The [data] field of the client messages the service builds. *)
Inductive ClientData :=
| connection_request_data (client_id : string) (capabilities : list string)
| audio_data_data (session_id : string) (audio_chunk : Blob)
                  (sequence : nat) (is_final : bool)
| audio_stop_data (session_id : string) (sequence : nat) (duration_ms : Z)
| heartbeat_response_data (client_time : Z)
| other_data (json : string).

(** [ClientMessage]: [{ type, timestamp, data, message_id }].  Times are
    milliseconds (the ISO rendering is left out); a message id
    [msg_${Date.now()}_${random}] is the pair of the time and the rank of
    the [Math.random()] draw. *)
Record ClientMessage := {
  cm_type : string;
  cm_timestamp : Z;
  cm_data : ClientData;
  cm_message_id : Z * nat
}.

(** The part of a server message's [data] that the service reads. *)
Record ServerData := {
  sd_session_id : option string;   (* data.session_id, when present *)
  sd_rest : string
}.

(** [ServerMessage]; [sm_data = None] when the object has no [data] key. *)
Record ServerMessage := {
  sm_type : string;
  sm_data : option ServerData
}.

(** What [emit] hands to the listeners. *)
Inductive Payload :=
| from_server (m : ServerMessage)       (* a server message *)
| with_reason (reason : string)         (* { reason } *)
| with_attempt (attempt : nat)          (* { attempt } *)
| with_attempts (attempts : nat)        (* { attempts } *)
| with_sessionId (sid : string).        (* { sessionId } *)

(** The functions stored in [eventListeners]: the [responseHandler]
    closure of a [sendWithResponse] call (it captures the call's promise,
    [responseType] and [timeoutId]), or a function of the application,
    which observes the payload and does not call back into the service. *)
Inductive Callback :=
| responseHandler (call : nat) (responseType : string) (timeoutId : nat)
| listener (n : nat).

#[global] Instance Callback_eq_dec : EqDecision Callback.
Proof. solve_decision. Defined.

Inductive Failure :=
| Timeout (responseType : string).   (* Error(`Timeout waiting for ${responseType}`) *)

(** State of the promise returned by [sendWithResponse]. *)
Inductive Promise :=
| pending
| resolved (m : ServerMessage)
| rejected (e : Failure).

(** ** Timers ([setTimeout], [setInterval]) *)

Inductive TimerTask :=
| responseTimeout (call : nat) (responseType : string)
| heartbeatTick.

Record Timer := {
  due : Z;                 (* time of the next run, ms *)
  period : option Z;       (* [Some p] for setInterval, [None] for setTimeout *)
  task : TimerTask
}.

(** ** The socket *)

(** Options passed to [io(url, ...)] ([transports] is always websocket). *)
Record SocketOptions := {
  timeout : Z;
  reconnection : bool;
  reconnectionAttempts : nat;
  reconnectionDelay : Z
}.

(** State of the promise returned by [connect()]. *)
Inductive Opening := opening | opened | failed.

(** The socket.io socket as the service sees it: its [connected] flag, the
    options it was created with, and its transport.  [throws i] tells
    whether the [i]-th call of [socket.emit] throws; [delivered] are the
    messages the transport accepted, in order. *)
Record Socket := {
  connected : bool;
  options : SocketOptions;
  emits : nat;
  throws : nat -> bool;
  delivered : list ClientMessage;
  result : Opening
}.

Definition set_connected (b : bool) (k : Socket) : Socket :=
  {| connected := b; options := options k; emits := emits k;
     throws := throws k; delivered := delivered k; result := result k |}.

(** [resolve()] / [reject(error)] of the [connect()] promise: a settled
    promise stays as it is. *)
Definition settle_opening (o : Opening) (k : Socket) : Socket :=
  match result k with
  | opening =>
      {| connected := connected k; options := options k; emits := emits k;
         throws := throws k; delivered := delivered k; result := o |}
  | _ => k
  end.

(** [socket.emit('message', m)]: [false] when it throws. *)
Definition socket_emit (m : ClientMessage) (k : Socket) : Socket * bool :=
  if throws k (emits k) then
    ({| connected := connected k; options := options k; emits := S (emits k);
        throws := throws k; delivered := delivered k; result := result k |},
     false)
  else
    ({| connected := connected k; options := options k; emits := S (emits k);
        throws := throws k; delivered := delivered k ++ [m]; result := result k |},
     true).

(** ** The service *)

Record t := {
  socket : option Socket;
  reconnectAttempts : nat;
  heartbeatInterval : option nat;
  isConnecting : bool;
  messageQueue : list ClientMessage;
  eventListeners : gmap string (list Callback);
  sessionId : option string;
  (* the runtime *)
  now : Z;                          (* Date.now() *)
  timers : gmap nat Timer;          (* armed timers, by id *)
  nextTimer : nat;                  (* the id the next timer gets *)
  promises : list Promise;          (* sendWithResponse calls, by rank *)
  draws : nat;                      (* Math.random() draws so far *)
  (* traces *)
  emitted : list (string * Payload);   (* calls of this.emit *)
  notified : list (nat * Payload)      (* calls of application listeners *)
}.

Definition maxReconnectAttempts : nat := 5.
Definition reconnectInterval : Z := 1000.

Definition init : t :=
  {| socket := None; reconnectAttempts := 0; heartbeatInterval := None;
     isConnecting := false; messageQueue := []; eventListeners := ∅;
     sessionId := None; now := 0; timers := ∅; nextTimer := 0;
     promises := []; draws := 0; emitted := []; notified := [] |}.

Definition set_socket (v : option Socket) (s : t) : t :=
  {| socket := v; reconnectAttempts := reconnectAttempts s;
     heartbeatInterval := heartbeatInterval s; isConnecting := isConnecting s;
     messageQueue := messageQueue s; eventListeners := eventListeners s;
     sessionId := sessionId s; now := now s; timers := timers s;
     nextTimer := nextTimer s; promises := promises s; draws := draws s;
     emitted := emitted s; notified := notified s |}.

Definition set_reconnectAttempts (v : nat) (s : t) : t :=
  {| socket := socket s; reconnectAttempts := v;
     heartbeatInterval := heartbeatInterval s; isConnecting := isConnecting s;
     messageQueue := messageQueue s; eventListeners := eventListeners s;
     sessionId := sessionId s; now := now s; timers := timers s;
     nextTimer := nextTimer s; promises := promises s; draws := draws s;
     emitted := emitted s; notified := notified s |}.

Definition set_heartbeatInterval (v : option nat) (s : t) : t :=
  {| socket := socket s; reconnectAttempts := reconnectAttempts s;
     heartbeatInterval := v; isConnecting := isConnecting s;
     messageQueue := messageQueue s; eventListeners := eventListeners s;
     sessionId := sessionId s; now := now s; timers := timers s;
     nextTimer := nextTimer s; promises := promises s; draws := draws s;
     emitted := emitted s; notified := notified s |}.

Definition set_isConnecting (v : bool) (s : t) : t :=
  {| socket := socket s; reconnectAttempts := reconnectAttempts s;
     heartbeatInterval := heartbeatInterval s; isConnecting := v;
     messageQueue := messageQueue s; eventListeners := eventListeners s;
     sessionId := sessionId s; now := now s; timers := timers s;
     nextTimer := nextTimer s; promises := promises s; draws := draws s;
     emitted := emitted s; notified := notified s |}.

Definition set_messageQueue (v : list ClientMessage) (s : t) : t :=
  {| socket := socket s; reconnectAttempts := reconnectAttempts s;
     heartbeatInterval := heartbeatInterval s; isConnecting := isConnecting s;
     messageQueue := v; eventListeners := eventListeners s;
     sessionId := sessionId s; now := now s; timers := timers s;
     nextTimer := nextTimer s; promises := promises s; draws := draws s;
     emitted := emitted s; notified := notified s |}.

Definition set_eventListeners (v : gmap string (list Callback)) (s : t) : t :=
  {| socket := socket s; reconnectAttempts := reconnectAttempts s;
     heartbeatInterval := heartbeatInterval s; isConnecting := isConnecting s;
     messageQueue := messageQueue s; eventListeners := v;
     sessionId := sessionId s; now := now s; timers := timers s;
     nextTimer := nextTimer s; promises := promises s; draws := draws s;
     emitted := emitted s; notified := notified s |}.

Definition set_sessionId (v : option string) (s : t) : t :=
  {| socket := socket s; reconnectAttempts := reconnectAttempts s;
     heartbeatInterval := heartbeatInterval s; isConnecting := isConnecting s;
     messageQueue := messageQueue s; eventListeners := eventListeners s;
     sessionId := v; now := now s; timers := timers s;
     nextTimer := nextTimer s; promises := promises s; draws := draws s;
     emitted := emitted s; notified := notified s |}.

Definition set_now (v : Z) (s : t) : t :=
  {| socket := socket s; reconnectAttempts := reconnectAttempts s;
     heartbeatInterval := heartbeatInterval s; isConnecting := isConnecting s;
     messageQueue := messageQueue s; eventListeners := eventListeners s;
     sessionId := sessionId s; now := v; timers := timers s;
     nextTimer := nextTimer s; promises := promises s; draws := draws s;
     emitted := emitted s; notified := notified s |}.

Definition set_timers (v : gmap nat Timer) (s : t) : t :=
  {| socket := socket s; reconnectAttempts := reconnectAttempts s;
     heartbeatInterval := heartbeatInterval s; isConnecting := isConnecting s;
     messageQueue := messageQueue s; eventListeners := eventListeners s;
     sessionId := sessionId s; now := now s; timers := v;
     nextTimer := nextTimer s; promises := promises s; draws := draws s;
     emitted := emitted s; notified := notified s |}.

Definition set_nextTimer (v : nat) (s : t) : t :=
  {| socket := socket s; reconnectAttempts := reconnectAttempts s;
     heartbeatInterval := heartbeatInterval s; isConnecting := isConnecting s;
     messageQueue := messageQueue s; eventListeners := eventListeners s;
     sessionId := sessionId s; now := now s; timers := timers s;
     nextTimer := v; promises := promises s; draws := draws s;
     emitted := emitted s; notified := notified s |}.

Definition set_promises (v : list Promise) (s : t) : t :=
  {| socket := socket s; reconnectAttempts := reconnectAttempts s;
     heartbeatInterval := heartbeatInterval s; isConnecting := isConnecting s;
     messageQueue := messageQueue s; eventListeners := eventListeners s;
     sessionId := sessionId s; now := now s; timers := timers s;
     nextTimer := nextTimer s; promises := v; draws := draws s;
     emitted := emitted s; notified := notified s |}.

Definition set_draws (v : nat) (s : t) : t :=
  {| socket := socket s; reconnectAttempts := reconnectAttempts s;
     heartbeatInterval := heartbeatInterval s; isConnecting := isConnecting s;
     messageQueue := messageQueue s; eventListeners := eventListeners s;
     sessionId := sessionId s; now := now s; timers := timers s;
     nextTimer := nextTimer s; promises := promises s; draws := v;
     emitted := emitted s; notified := notified s |}.

Definition set_emitted (v : list (string * Payload)) (s : t) : t :=
  {| socket := socket s; reconnectAttempts := reconnectAttempts s;
     heartbeatInterval := heartbeatInterval s; isConnecting := isConnecting s;
     messageQueue := messageQueue s; eventListeners := eventListeners s;
     sessionId := sessionId s; now := now s; timers := timers s;
     nextTimer := nextTimer s; promises := promises s; draws := draws s;
     emitted := v; notified := notified s |}.

Definition set_notified (v : list (nat * Payload)) (s : t) : t :=
  {| socket := socket s; reconnectAttempts := reconnectAttempts s;
     heartbeatInterval := heartbeatInterval s; isConnecting := isConnecting s;
     messageQueue := messageQueue s; eventListeners := eventListeners s;
     sessionId := sessionId s; now := now s; timers := timers s;
     nextTimer := nextTimer s; promises := promises s; draws := draws s;
     emitted := emitted s; notified := v |}.

(** ** Listeners: [on], [off], [emit] *)

Definition listeners (event : string) (s : t) : list Callback :=
  default [] (eventListeners s !! event).

(** [on(event, callback)]: the callback is pushed on the event's array
    (created when absent). *)
Definition on (event : string) (callback : Callback) (s : t) : t :=
  set_eventListeners
    (<[event := listeners event s ++ [callback]]> (eventListeners s)) s.

(** [Array.prototype.indexOf]. *)
Fixpoint indexOf (callback : Callback) (l : list Callback) : option nat :=
  match l with
  | [] => None
  | c :: l' => if decide (c = callback) then Some 0%nat
               else S <$> indexOf callback l'
  end.

(** [off(event, callback?)]: without a callback the event's entry is
    deleted; with one, its first occurrence is spliced out of the array. *)
Definition off (event : string) (callback : option Callback) (s : t) : t :=
  match callback with
  | None => set_eventListeners (delete event (eventListeners s)) s
  | Some cb =>
      match eventListeners s !! event with
      | Some l =>
          match indexOf cb l with
          | Some i => set_eventListeners (<[event := delete i l]> (eventListeners s)) s
          | None => s
          end
      | None => s
      end
  end.

Definition clearTimer (id : nat) (s : t) : t := set_timers (delete id (timers s)) s.

(** [resolve(v)] / [reject(e)] on the promise of a call: only a pending
    promise changes. *)
Definition settle (call : nat) (p : Promise) (s : t) : t :=
  match promises s !! call with
  | Some pending => set_promises (<[call := p]> (promises s)) s
  | _ => s
  end.

(** Running one callback on a payload.  The [responseHandler] of
    [sendWithResponse]: [if (response.type === responseType)
    { clearTimeout(timeoutId); this.off(responseType, responseHandler);
    resolve(response) }]; a payload that is not a server message has no
    [type]. *)
Definition invoke (callback : Callback) (data : Payload) (s : t) : t :=
  match callback with
  | listener n => set_notified (notified s ++ [(n, data)]) s
  | responseHandler call responseType timeoutId =>
      match data with
      | from_server m =>
          if decide (sm_type m = responseType) then
            settle call (resolved m)
              (off responseType (Some callback) (clearTimer timeoutId s))
          else s
      | _ => s
      end
  end.

(** [listeners.forEach(callback => ...)] on the array stored for [event]:
    the length is read once, then index [k] is visited when the array
    (which a callback may have spliced meanwhile) still has it.  [n] is
    the number of indices left. *)
Fixpoint forEach (event : string) (data : Payload) (k n : nat) (s : t) : t :=
  match n with
  | O => s
  | S n' =>
      match listeners event s !! k with
      | Some cb => forEach event data (S k) n' (invoke cb data s)
      | None => forEach event data (S k) n' s
      end
  end.

(** [emit(event, data)]. *)
Definition emit (event : string) (data : Payload) (s : t) : t :=
  let s := set_emitted (emitted s ++ [(event, data)]) s in
  match eventListeners s !! event with
  | Some l => forEach event data 0 (length l) s
  | None => s
  end.

(** ** Sending *)

Definition isConnected (s : t) : bool :=
  match socket s with
  | Some k => connected k
  | None => false
  end.

(** The messages the transport of the current socket has accepted. *)
Definition transported (s : t) : list ClientMessage :=
  match socket s with
  | Some k => delivered k
  | None => []
  end.

(** [sendMessage(message)]. *)
Definition sendMessage (message : ClientMessage) (s : t) : t :=
  match socket s with
  | Some k =>
      if connected k then
        let '(k', ok) := socket_emit message k in
        let s' := set_socket (Some k') s in
        if ok then s'
        else set_messageQueue (messageQueue s' ++ [message]) s'
      else set_messageQueue (messageQueue s ++ [message]) s
  | None => set_messageQueue (messageQueue s ++ [message]) s
  end.

(** [generateMessageId()]. *)
Definition generateMessageId (s : t) : (Z * nat) * t :=
  ((now s, draws s), set_draws (S (draws s)) s).

(** [sendHeartbeatResponse()]. *)
Definition sendHeartbeatResponse (s : t) : t :=
  let '(id, s') := generateMessageId s in
  sendMessage {| cm_type := "heartbeat_response"; cm_timestamp := now s;
                 cm_data := heartbeat_response_data (now s);
                 cm_message_id := id |} s'.

(** [sendAudioData(sessionId, audioData, sequence, isFinal)]. *)
Definition sendAudioData (sid : string) (audioData : Blob) (sequence : nat)
    (isFinal : bool) (s : t) : t :=
  let '(id, s') := generateMessageId s in
  sendMessage {| cm_type := "audio_data"; cm_timestamp := now s;
                 cm_data := audio_data_data sid audioData sequence isFinal;
                 cm_message_id := id |} s'.

(** [flushMessageQueue()]: [while (queue.length > 0 && isConnected())
    { m = queue.shift(); sendMessage(m) }].  The loop need not end (a
    transport that keeps throwing puts every message back), hence the
    fuel; [None] is fuel exhausted. *)
Fixpoint flushMessageQueue (fuel : nat) (s : t) : option t :=
  match messageQueue s with
  | [] => Some s
  | m :: q =>
      if isConnected s then
        match fuel with
        | O => None
        | S fuel' => flushMessageQueue fuel' (sendMessage m (set_messageQueue q s))
        end
      else Some s
  end.

(** ** Heartbeat *)

(** [stopHeartbeat()]. *)
Definition stopHeartbeat (s : t) : t :=
  match heartbeatInterval s with
  | Some id => set_heartbeatInterval None (clearTimer id s)
  | None => s
  end.

(** [startHeartbeat()]: [setInterval(..., 30000)]. *)
Definition startHeartbeat (s : t) : t :=
  let s := stopHeartbeat s in
  let id := nextTimer s in
  set_heartbeatInterval (Some id)
    (set_nextTimer (S id)
       (set_timers (<[id := {| due := now s + 30000; period := Some 30000;
                               task := heartbeatTick |}]> (timers s)) s)).

(** ** Session id and inbound messages *)

(** [setSessionId(sessionId)]. *)
Definition setSessionId (sid : string) (s : t) : t :=
  emit "session_id_changed" (with_sessionId sid) (set_sessionId (Some sid) s).

(** [handleMessage(message)]. *)
Definition handleMessage (message : ServerMessage) (s : t) : t :=
  let s1 :=
    if decide (sm_type message = "connection_response") then
      match sm_data message with
      | Some d =>
          match sd_session_id d with
          | Some sid => if decide (sid = EmptyString) then s else setSessionId sid s
          | None => s
          end
      | None => s
      end
    else s in
  emit "message" (from_server message)
    (emit (sm_type message) (from_server message) s1).

(** ** Requests with a response *)

(** [sendWithResponse(message, responseType)]: arms the 10 s timeout,
    registers the response handler, sends.  Returns the rank of the call's
    promise. *)
Definition sendWithResponse (message : ClientMessage) (responseType : string)
    (s : t) : nat * t :=
  let call := length (promises s) in
  let timeoutId := nextTimer s in
  let s1 := set_promises (promises s ++ [pending]) s in
  let s2 := set_nextTimer (S timeoutId)
              (set_timers (<[timeoutId := {| due := now s + 10000; period := None;
                                             task := responseTimeout call responseType |}]>
                             (timers s1)) s1) in
  let s3 := on responseType (responseHandler call responseType timeoutId) s2 in
  (call, sendMessage message s3).

(** [sendConnectionRequest(clientId, capabilities)]. *)
Definition sendConnectionRequest (clientId : string) (capabilities : list string)
    (s : t) : nat * t :=
  let '(id, s') := generateMessageId s in
  sendWithResponse {| cm_type := "connection_request"; cm_timestamp := now s;
                      cm_data := connection_request_data clientId capabilities;
                      cm_message_id := id |} "connection_response" s'.

(** A timer runs.  The timeout of [sendWithResponse]:
    [this.off(responseType, responseHandler); reject(new Error(...))]; the
    heartbeat interval: [if (this.isConnected()) this.sendHeartbeatResponse()]
    and the interval stays armed, one period later. *)
Definition runTimer (id : nat) (s : t) : t :=
  match timers s !! id with
  | None => s
  | Some tm =>
      let s1 := match period tm with
                | Some p => set_timers (<[id := {| due := due tm + p; period := Some p;
                                                   task := task tm |}]> (timers s)) s
                | None => clearTimer id s
                end in
      match task tm with
      | responseTimeout call responseType =>
          settle call (rejected (Timeout responseType))
            (off responseType (Some (responseHandler call responseType id)) s1)
      | heartbeatTick =>
          if isConnected s1 then sendHeartbeatResponse s1 else s1
      end
  end.

(** ** Connection *)

Definition socketOptions : SocketOptions :=
  {| timeout := 10000; reconnection := true;
     reconnectionAttempts := maxReconnectAttempts;
     reconnectionDelay := reconnectInterval |}.

(** [connect()].  [io = Some thr] is a socket created by [io(url, ...)]
    whose transport throws as [thr] says; [io = None] is [io] throwing
    (the [catch] branch). *)
Definition connect (io : option (nat -> bool)) (s : t) : t :=
  if isConnected s || isConnecting s then s
  else
    let s1 := set_isConnecting true s in
    match io with
    | Some thr =>
        set_socket (Some {| connected := false; options := socketOptions;
                            emits := 0; throws := thr; delivered := [];
                            result := opening |}) s1
    | None => set_isConnecting false s1
    end.

(** The ['disconnect'] handler registered in [connect()]. *)
Definition onDisconnect (reason : string) (s : t) : t :=
  emit "disconnect" (with_reason reason) (set_sessionId None (stopHeartbeat s)).

(** [disconnect()].  [notify = Some r] when [socket.disconnect()] runs the
    socket's own ['disconnect'] handler before it returns. *)
Definition disconnect (notify : option string) (s : t) : t :=
  match socket s with
  | Some k =>
      let s1 := stopHeartbeat s in
      let s2 := set_socket (Some (set_connected false k)) s1 in
      let s3 := match notify with
                | Some r => onDisconnect r s2
                | None => s2
                end in
      set_sessionId None (set_socket None s3)
  | None => s
  end.

(** What the socket reports.  [ev_other] is any event for which the
    service registers no handler. *)
Inductive SocketEvent :=
| ev_connect
| ev_connect_error
| ev_disconnect (reason : string)
| ev_inbound (name : string) (m : ServerMessage)
| ev_reconnect_attempt (attemptNumber : nat)
| ev_reconnect (attemptNumber : nat)
| ev_other (name : string).

(** The event names [setupEventHandlers] routes to [handleMessage]. *)
Definition inboundEvents : list string :=
  ["message"; "connection_response"; "stt_response"; "llm_response";
   "llm_stream"; "mcp_response"; "status_update"; "error"; "heartbeat"].

(** The handlers registered on the socket by [connect()] and
    [setupEventHandlers()].  The socket sets its [connected] flag before
    it reports ['connect'] and clears it before it reports
    ['disconnect']. *)
Definition onSocket (fuel : nat) (e : SocketEvent) (s : t) : option t :=
  match socket s with
  | None => Some s
  | Some k =>
      match e with
      | ev_connect =>
          let s1 := set_socket (Some (set_connected true k)) s in
          let s2 := startHeartbeat (set_reconnectAttempts 0 (set_isConnecting false s1)) in
          Some (set_socket (settle_opening opened <$> socket s2) s2)
      | ev_connect_error =>
          Some (set_socket (Some (settle_opening failed k)) (set_isConnecting false s))
      | ev_disconnect reason =>
          Some (onDisconnect reason (set_socket (Some (set_connected false k)) s))
      | ev_inbound name m =>
          if bool_decide (name ∈ inboundEvents) then Some (handleMessage m s)
          else Some s
      | ev_reconnect_attempt n =>
          Some (emit "reconnect_attempt" (with_attempt n) s)
      | ev_reconnect n =>
          emit "reconnect" (with_attempts n) <$> flushMessageQueue fuel s
      | ev_other _ => Some s
      end
  end.

(** ** Runs of the service *)

(** What can happen to the service: a call of its public interface, an
    event of its socket, a timer that runs, time that passes. *)
Inductive Label :=
| call_connect (io : option (nat -> bool))
| call_disconnect (notify : option string)
| call_sendMessage (m : ClientMessage)
| call_sendAudioData (sid : string) (audioData : Blob) (sequence : nat) (isFinal : bool)
| call_sendConnectionRequest (clientId : string) (capabilities : list string)
| call_on (event : string) (n : nat)
| call_off (event : string) (n : option nat)
| call_setSessionId (sid : string)
| socket_says (e : SocketEvent)
| timer_fires (id : nat)
| time_passes (until : Z).

(** One step.  Timers are punctual: a timer runs once its time has come,
    and time does not pass beyond a timer that is due.  [None]: the step
    cannot happen here, or the fuel of a flush ran out. *)
Definition exec (fuel : nat) (l : Label) (s : t) : option t :=
  match l with
  | call_connect io => Some (connect io s)
  | call_disconnect notify => Some (disconnect notify s)
  | call_sendMessage m => Some (sendMessage m s)
  | call_sendAudioData sid a n f => Some (sendAudioData sid a n f s)
  | call_sendConnectionRequest c caps => Some (snd (sendConnectionRequest c caps s))
  | call_on event n => Some (on event (listener n) s)
  | call_off event n => Some (off event (listener <$> n) s)
  | call_setSessionId sid => Some (setSessionId sid s)
  | socket_says e => onSocket fuel e s
  | timer_fires id =>
      match timers s !! id with
      | Some tm => if bool_decide (due tm ≤ now s) then Some (runTimer id s) else None
      | None => None
      end
  | time_passes until =>
      if bool_decide (now s ≤ until ∧ map_Forall (λ _ tm, until ≤ due tm) (timers s))
      then Some (set_now until s) else None
  end.

Definition step (s : t) (l : Label) (s' : t) : Prop :=
  ∃ fuel, exec fuel l s = Some s'.

(** [run s ls s']: the steps [ls], in order, lead from [s] to [s']. *)
Inductive run : t → list Label → t → Prop :=
| run_nil s : run s [] s
| run_cons s l s1 ls s2 : step s l s1 → run s1 ls s2 → run s (l :: ls) s2.

Definition reachable (s : t) : Prop := ∃ ls, run init ls s.

(** Executable runs, for concrete scenarios. *)
Fixpoint execs (fuel : nat) (ls : list Label) (s : t) : option t :=
  match ls with
  | [] => Some s
  | l :: ls' => exec fuel l s ≫= execs fuel ls'
  end.

(** What the service passes on to its listeners when its socket reports
    [e]: the calls of [emit] made by the handler of [e]. *)
Definition notifications (e : SocketEvent) : list (string * Payload) :=
  match e with
  | ev_disconnect reason => [("disconnect", with_reason reason)]
  | ev_reconnect_attempt n => [("reconnect_attempt", with_attempt n)]
  | ev_reconnect n => [("reconnect", with_attempts n)]
  | ev_inbound name m =>
      if bool_decide (name ∈ inboundEvents) then
        (if decide (sm_type m = "connection_response") then
           match sm_data m ≫= sd_session_id with
           | Some sid => if decide (sid = EmptyString) then []
                         else [("session_id_changed", with_sessionId sid)]
           | None => []
           end
         else [])
        ++ [(sm_type m, from_server m); ("message", from_server m)]
      else []
  | ev_connect | ev_connect_error | ev_other _ => []
  end.

(** The promise of [connect()] once its socket has reported [e]:
    [resolve()] in the 'connect' handler, [reject(error)] in the
    'connect_error' handler, and a settled promise stays as it is. *)
Definition settled_by (e : SocketEvent) (k : Socket) : Opening :=
  match result k, e with
  | opening, ev_connect => opened
  | opening, ev_connect_error => failed
  | r, _ => r
  end.

(** ** Frames *)

(** What [emit] leaves alone: listeners run, promises settle and timers are
    cleared, but the connection, the queue, the session id and the clock
    stay as they are. *)
Definition same_connection (s s' : t) : Prop :=
  socket s' = socket s
  ∧ reconnectAttempts s' = reconnectAttempts s
  ∧ heartbeatInterval s' = heartbeatInterval s
  ∧ isConnecting s' = isConnecting s
  ∧ messageQueue s' = messageQueue s
  ∧ sessionId s' = sessionId s
  ∧ now s' = now s
  ∧ nextTimer s' = nextTimer s
  ∧ draws s' = draws s.

(** What a payload that is not a server message leaves alone: everything
    but the two traces. *)
Definition same_service (s s' : t) : Prop :=
  same_connection s s'
  ∧ eventListeners s' = eventListeners s
  ∧ timers s' = timers s
  ∧ promises s' = promises s.

(** A callback that a payload cannot trigger: an application listener, or
    a response handler waiting for another type. *)
Definition inert (data : Payload) (cb : Callback) : Prop :=
  match cb, data with
  | responseHandler _ responseType _, from_server m => sm_type m ≠ responseType
  | _, _ => True
  end.

Definition is_listener (cb : Callback) : Prop :=
  match cb with
  | listener _ => True
  | responseHandler _ _ _ => False
  end.

(** What a timer, a send or a notification leaves alone: the session id,
    and whether the socket is there and connected. *)
Definition keeps_link (s s' : t) : Prop :=
  sessionId s' = sessionId s
  ∧ isConnected s' = isConnected s
  ∧ (socket s' = None ↔ socket s = None).

(** ** The invariant of the runtime tables *)

(** Timer ids are handed out in increasing order and no armed timer lies in
    the past; a pending call has its timeout armed; a response handler sits
    under its own response type and names the timer of its own call; the
    only interval is the heartbeat's. *)
Record Inv (s : t) : Prop := {
  inv_fresh : ∀ id tm, timers s !! id = Some tm → (id < nextTimer s)%nat;
  inv_future : ∀ id tm, timers s !! id = Some tm → now s ≤ due tm;
  inv_armed : ∀ c, promises s !! c = Some pending →
    ∃ id d rt, timers s !! id
               = Some {| due := d; period := None; task := responseTimeout c rt |};
  inv_handler : ∀ ev c rt tid, responseHandler c rt tid ∈ listeners ev s →
    ev = rt ∧ (c < length (promises s))%nat ∧ (tid < nextTimer s)%nat
    ∧ ∀ tm, timers s !! tid = Some tm → task tm = responseTimeout c rt;
  inv_timeout : ∀ id tm c rt,
    timers s !! id = Some tm → task tm = responseTimeout c rt →
    (c < length (promises s))%nat ∧ period tm = None;
  inv_heartbeat : ∀ id tm,
    timers s !! id = Some tm → task tm = heartbeatTick →
    heartbeatInterval s = Some id ∧ period tm = Some 30000;
  inv_interval : ∀ id, heartbeatInterval s = Some id →
    (id < nextTimer s)%nat ∧ ∀ tm, timers s !! id = Some tm → task tm = heartbeatTick
}.

(** ** How the calls evolve *)

(** The server message a step delivers to [handleMessage], if any. *)
Definition delivers (l : Label) : option ServerMessage :=
  match l with
  | socket_says (ev_inbound name m) =>
      if bool_decide (name ∈ inboundEvents) then Some m else None
  | _ => None
  end.

(** [advances via s s']: from [s] to [s'] calls are only added; a settled
    promise keeps its value; the timeout of a call stays armed, unchanged,
    until the call is settled; nothing new is armed or registered for a call
    that exists; and a pending promise is settled only by its own timeout
    or by its own handler on the message [via]. *)
Record advances (via : option ServerMessage) (s s' : t) : Prop := {
  adv_calls : (length (promises s) ≤ length (promises s'))%nat;
  adv_settled : ∀ c p, promises s !! c = Some p → p ≠ pending →
    promises s' !! c = Some p;
  adv_armed : ∀ id tm c rt,
    timers s !! id = Some tm → task tm = responseTimeout c rt →
    timers s' !! id = Some tm ∨ ∃ p, promises s' !! c = Some p ∧ p ≠ pending;
  adv_timers : ∀ id tm c rt,
    timers s' !! id = Some tm → task tm = responseTimeout c rt →
    (c < length (promises s))%nat → timers s !! id = Some tm;
  adv_handlers : ∀ ev c rt tid,
    responseHandler c rt tid ∈ listeners ev s' → (c < length (promises s))%nat →
    responseHandler c rt tid ∈ listeners ev s;
  adv_outcome : ∀ c p, promises s !! c = Some pending → promises s' !! c = Some p →
    p = pending
    ∨ (∃ rt id tm, p = rejected (Timeout rt) ∧ timers s !! id = Some tm
                   ∧ task tm = responseTimeout c rt)
    ∨ (∃ m tid ev, via = Some m ∧ p = resolved m
                   ∧ responseHandler c (sm_type m) tid ∈ listeners ev s)
}.

(** The timer [sendWithResponse] arms for the call [c]. *)
Definition timeoutTimer (c : nat) (rt : string) (deadline : Z) : Timer :=
  {| due := deadline; period := None; task := responseTimeout c rt |}.





(** ** What the listeners see, and the heartbeat *)

(** [getSessionId()]. *)
Definition getSessionId (s : t) : option string := sessionId s.

(** The calls of application listeners made when each callback of [l] is
    run once on [data], in order (what [notified] gains). *)
Definition calls (data : Payload) (l : list Callback) : list (nat * Payload) :=
  omap (λ cb, match cb with
              | listener n => Some (n, data)
              | responseHandler _ _ _ => None
              end) l.

(** The heartbeat interval is armed: [heartbeatInterval] names a timer
    that runs the heartbeat every 30 s. *)
Definition heartbeatArmed (s : t) : Prop :=
  ∃ id tm, heartbeatInterval s = Some id ∧ timers s !! id = Some tm
           ∧ task tm = heartbeatTick ∧ period tm = Some 30000.

(** The heartbeat follows the connection. *)
Definition beats (s : t) : Prop :=
  (isConnected s = true ↔ is_Some (heartbeatInterval s))
  ∧ ∀ id, heartbeatInterval s = Some id → is_Some (timers s !! id).


(** An interval named by [heartbeatInterval] is armed. *)
Definition ticking (s : t) : Prop :=
  ∀ id, heartbeatInterval s = Some id → is_Some (timers s !! id).

(** What a step that neither starts nor stops the heartbeat leaves as
    it is. *)
Definition keeps_beat (s s' : t) : Prop :=
  isConnected s' = isConnected s
  ∧ heartbeatInterval s' = heartbeatInterval s
  ∧ ∀ id, heartbeatInterval s = Some id → is_Some (timers s !! id) →
          is_Some (timers s' !! id).

(** ** Sockets that [connect()] has replaced *)

(** [connect()] creates a socket while the service still holds one: its
    guard passes on a socket that is down, and [this.socket] is
    overwritten without the previous socket being closed. *)
Definition replaces (io : option (nat → bool)) (s : t) : bool :=
  negb (isConnected s || isConnecting s)
  && match io, socket s with
     | Some _, Some _ => true
     | _, _ => false
     end.

(** The handlers that [connect()] and [setupEventHandlers()] registered
    on a socket that has since been replaced.  They are closures over the
    service and run as before; the socket whose flag and whose [connect()]
    promise they belong to is no longer [this.socket], so neither shows
    in the state. *)
Definition onReplaced (fuel : nat) (e : SocketEvent) (s : t) : option t :=
  match e with
  | ev_connect =>
      Some (startHeartbeat (set_reconnectAttempts 0 (set_isConnecting false s)))
  | ev_connect_error => Some (set_isConnecting false s)
  | ev_disconnect reason => Some (onDisconnect reason s)
  | ev_inbound name m =>
      if bool_decide (name ∈ inboundEvents) then Some (handleMessage m s)
      else Some s
  | ev_reconnect_attempt n => Some (emit "reconnect_attempt" (with_attempt n) s)
  | ev_reconnect n => emit "reconnect" (with_attempts n) <$> flushMessageQueue fuel s
  | ev_other _ => Some s
  end.

(** The service and the number of sockets that [connect()] has replaced:
    they were created with [reconnection: true] and are never closed, so
    they may report again.  (A socket closed by [disconnect()] reports
    nothing after the 'disconnect' that [socket.disconnect()] itself
    runs.) *)
Record World := {
  service : t;
  replaced : nat
}.

Definition world0 : World := {| service := init; replaced := 0 |}.

(** What can happen: a step of the service, or an event of a replaced
    socket. *)
Inductive Happening :=
| of_service (l : Label)
| replaced_says (e : SocketEvent).

Definition happens (fuel : nat) (h : Happening) (w : World) : option World :=
  match h with
  | of_service l =>
      (λ s', {| service := s';
                replaced := match l with
                            | call_connect io =>
                                if replaces io (service w) then S (replaced w)
                                else replaced w
                            | _ => replaced w
                            end |})
        <$> exec fuel l (service w)
  | replaced_says e =>
      if (0 <? replaced w)%nat then
        (λ s', {| service := s'; replaced := replaced w |})
          <$> onReplaced fuel e (service w)
      else None
  end.

(** [course w hs w']: the happenings [hs], in order, lead from [w] to
    [w']. *)
Inductive course : World → list Happening → World → Prop :=
| course_nil w : course w [] w
| course_cons w h w1 hs w2 :
    (∃ fuel, happens fuel h w = Some w1) → course w1 hs w2 → course w (h :: hs) w2.

Fixpoint happenings (fuel : nat) (hs : list Happening) (w : World) : option World :=
  match hs with
  | [] => Some w
  | h :: hs' => happens fuel h w ≫= happenings fuel hs'
  end.

(** The calls whose response handler sits in a listener array. *)
Definition waiting (l : list Callback) : list nat :=
  omap (λ cb, match cb with
              | responseHandler c _ _ => Some c
              | listener _ => None
              end) l.

(** The listener table is tidy: a response handler sits there only for a
    call that is pending, with the timeout of that call armed under the
    handler's timer id, and no array holds two handlers of one call; a
    call has a single timeout, armed only while the call is pending. *)
Record tidy (s : t) : Prop := {
  tidy_pending : ∀ ev c rt tid, responseHandler c rt tid ∈ listeners ev s →
    promises s !! c = Some pending;
  tidy_armed : ∀ ev c rt tid, responseHandler c rt tid ∈ listeners ev s →
    ∃ tm, timers s !! tid = Some tm ∧ task tm = responseTimeout c rt;
  tidy_once : ∀ ev, NoDup (waiting (listeners ev s));
  tidy_timer : ∀ id id' tm tm' c rt rt',
    timers s !! id = Some tm → task tm = responseTimeout c rt →
    timers s !! id' = Some tm' → task tm' = responseTimeout c rt' → id = id';
  tidy_live : ∀ id tm c rt,
    timers s !! id = Some tm → task tm = responseTimeout c rt →
    promises s !! c = Some pending
}.

End WebSocketService.

(* ===================================================================== *)
(** * VoiceControlScreen: the glue between the two services *)
(* ===================================================================== *)

Module VoiceControlScreen.

(** The ['audio_chunk'] listener of the screen:
    [if (sessionId) webSocketService.sendAudioData(sessionId, chunk.data,
    chunk.sequence, false)]. *)
Definition onAudioChunk (sessionId : option string) (chunk : AudioService.AudioChunk)
    (ws : WebSocketService.t) : WebSocketService.t :=
  match sessionId with
  | Some sid =>
      if decide (sid = EmptyString) then ws
      else WebSocketService.sendAudioData sid (AudioService.chunk_data chunk)
             (AudioService.chunk_sequence chunk) false ws
  | None => ws
  end.

(** The [is_final] flag of the audio messages in a list of client
    messages. *)
Fixpoint finalFlags (ms : list WebSocketService.ClientMessage) : list bool :=
  match ms with
  | [] => []
  | m :: ms' =>
      match WebSocketService.cm_data m with
      | WebSocketService.audio_data_data _ _ _ f => f :: finalFlags ms'
      | _ => finalFlags ms'
      end
  end.

(** The message [sendAudioData] builds for a chunk when the clock shows
    [time] and [id] random draws were made before. *)
Definition audioMessage (sid : string) (time : Z) (id : nat)
    (chunk : AudioService.AudioChunk) : WebSocketService.ClientMessage :=
  {| WebSocketService.cm_type := "audio_data";
     WebSocketService.cm_timestamp := time;
     WebSocketService.cm_data :=
       WebSocketService.audio_data_data sid (AudioService.chunk_data chunk)
         (AudioService.chunk_sequence chunk) false;
     WebSocketService.cm_message_id := (time, id) |}.

(** The ['audio_chunk'] listener run on the chunks [cs], in order. *)
Definition onAudioChunks (sessionId : option string)
    (cs : list AudioService.AudioChunk) (ws : WebSocketService.t) : WebSocketService.t :=
  foldl (λ w c, onAudioChunk sessionId c w) ws cs.

End VoiceControlScreen.

(** Closes the clauses of a frame property that hold because the fields
    they read did not change. *)
Ltac unchanged :=
  intros; first [ lia | done | by left | (left; congruence) | eauto ].

(* ===================================================================== *)
(** * Recording: sequence numbers and the recording guard *)
(* ===================================================================== *)

Section Recording.

Import AudioService.

Lemma chunks_app (es es' : list AudioEvent) :
  chunks (es ++ es') = chunks es ++ chunks es'.
Proof.
  induction es as [|e es IH]; [done|].
  destruct e; simpl; by rewrite IH.
Qed.

Lemma deliver_buffer (s : AudioService.t) (b : Blob) (time : Z) :
  mediaRecorder s = true → processing s = [] → (0 < length b)%nat →
  emitted (deliver s (b, time))
  = emitted s ++ [audio_chunk {| chunk_data := b; chunk_sequence := S (sequence s);
                                 chunk_timestamp := time |}]
  ∧ sequence (deliver s (b, time)) = S (sequence s)
  ∧ processing (deliver s (b, time)) = []
  ∧ mediaRecorder (deliver s (b, time)) = true
  ∧ isRecording (deliver s (b, time)) = isRecording s.
Proof.
  intros Hrec Hproc Hb. apply Nat.ltb_lt in Hb.
  unfold deliver, ondataavailable; simpl. rewrite Hrec, Hb.
  unfold processAudioChunk; simpl. rewrite Hproc; simpl.
  done.
Qed.

Lemma deliver_empty (s : AudioService.t) (b : Blob) (time : Z) :
  processing s = [] → length b = 0%nat → deliver s (b, time) = s.
Proof.
  intros Hproc Hb. unfold deliver, ondataavailable; simpl. rewrite Hb; simpl.
  destruct (mediaRecorder s); unfold processAudioChunk; by rewrite Hproc.
Qed.

Lemma pass_emits (bs : list (Blob * Z)) : ∀ s : AudioService.t,
  mediaRecorder s = true → processing s = [] →
  chunks (emitted (pass bs s)) = chunks (emitted s) ++ numbered (sequence s) bs
  ∧ processing (pass bs s) = []
  ∧ isRecording (pass bs s) = isRecording s.
Proof.
  induction bs as [|[b time] bs IH]; intros s Hrec Hproc.
  - simpl. by rewrite app_nil_r.
  - change (pass ((b, time) :: bs) s) with (pass bs (deliver s (b, time))).
    simpl numbered. destruct (0 <? length b)%nat eqn:Hb.
    + apply Nat.ltb_lt in Hb.
      destruct (deliver_buffer s b time Hrec Hproc Hb) as (E1 & E2 & E3 & E4 & E5).
      destruct (IH _ E4 E3) as (F1 & F2 & F3).
      rewrite F1, F2, F3, E1, E2, E5, chunks_app. simpl.
      by rewrite <- app_assoc.
    + apply Nat.ltb_ge in Hb.
      rewrite deliver_empty by (done || lia). by apply IH.
Qed.

(** Outside that schedule the number is read late: [processAudioChunk]
    reads [this.sequence] when the conversion completes, so two buffers
    that arrive before either is converted are both emitted with the
    sequence number 2. *)
Lemma processAudioChunk_reads_the_counter_late :
  let s := (startRecording MediaReady 0 AudioService.init).1 in
  let s' := processAudioChunk true 250
              (processAudioChunk true 240
                 (ondataavailable [Byte.x02] (ondataavailable [Byte.x01] s))) in
  chunk_sequence <$> chunks (emitted s') = [2%nat; 2%nat].
Proof. reflexivity. Qed.

Lemma numbered_length (bs : list (Blob * Z)) : ∀ n,
  length (numbered n bs) = length (filter (λ bt, (0 < length bt.1)%nat) bs).
Proof.
  induction bs as [|[b time] bs IH]; intros n; [done|].
  simpl. rewrite filter_cons. simpl.
  destruct (0 <? length b)%nat eqn:Hb.
  - apply Nat.ltb_lt in Hb. rewrite decide_True by done. simpl. by rewrite IH.
  - apply Nat.ltb_ge in Hb. rewrite decide_False by lia. apply IH.
Qed.

Lemma numbered_head (bs : list (Blob * Z)) : ∀ n c,
  numbered n bs !! 0%nat = Some c → chunk_sequence c = S n.
Proof.
  induction bs as [|[b time] bs IH]; intros n c; [done|].
  simpl. destruct (0 <? length b)%nat; simpl; [|by apply IH].
  by intros [= <-].
Qed.

Lemma numbered_consecutive (bs : list (Blob * Z)) : ∀ n i c c',
  numbered n bs !! i = Some c → numbered n bs !! S i = Some c' →
  chunk_sequence c' = S (chunk_sequence c).
Proof.
  induction bs as [|[b time] bs IH]; intros n i c c'; [done|].
  simpl. destruct (0 <? length b)%nat; [|by apply IH].
  destruct i as [|i]; simpl.
  - intros [= <-] H. simpl. by apply numbered_head in H.
  - apply IH.
Qed.

Lemma sequences_app (es es' : list AudioRecorderModule.NativeEvent) :
  AudioRecorderModule.sequences (es ++ es')
  = AudioRecorderModule.sequences es ++ AudioRecorderModule.sequences es'.
Proof.
  induction es as [|e es IH]; [done|].
  destruct e; simpl; by rewrite IH.
Qed.

Lemma processAudioData_sends (reads : list (list Z)) : ∀ s,
  AudioRecorderModule.isRecording s = true →
  AudioRecorderModule.sequences
    (AudioRecorderModule.sent (AudioRecorderModule.processAudioData reads s))
  = AudioRecorderModule.sequences (AudioRecorderModule.sent s)
    ++ AudioRecorderModule.counted (AudioRecorderModule.sequenceCounter s) reads.
Proof.
  induction reads as [|r reads IH]; intros s Hrec.
  - simpl. by rewrite app_nil_r.
  - change (AudioRecorderModule.processAudioData (r :: reads) s)
      with (AudioRecorderModule.processAudioData reads
              (AudioRecorderModule.processRead s r)).
    unfold AudioRecorderModule.processRead. rewrite Hrec. simpl AudioRecorderModule.counted.
    destruct (0 <? length r)%nat eqn:Hr; [|by apply IH].
    simpl. rewrite IH by done. simpl.
    rewrite sequences_app. simpl. by rewrite <- app_assoc.
Qed.

Lemma counted_head (reads : list (list Z)) : ∀ n c,
  AudioRecorderModule.counted n reads !! 0%nat = Some c → c = AudioRecorderModule.wrap32 (n + 1).
Proof.
  induction reads as [|r reads IH]; intros n c; [done|].
  simpl. destruct (0 <? length r)%nat; simpl; [|by apply IH].
  by intros [= <-].
Qed.

Lemma counted_consecutive (reads : list (list Z)) : ∀ n i c c',
  AudioRecorderModule.counted n reads !! i = Some c → AudioRecorderModule.counted n reads !! S i = Some c' →
  c' = AudioRecorderModule.wrap32 (c + 1).
Proof.
  induction reads as [|r reads IH]; intros n i c c'; [done|].
  simpl. destruct (0 <? length r)%nat; [|by apply IH].
  destruct i as [|i]; simpl.
  - intros [= <-] H. by apply counted_head in H.
  - apply IH.
Qed.

Import WebSocketService.
Import VoiceControlScreen.

Lemma finalFlags_app (ms ms' : list ClientMessage) :
  finalFlags (ms ++ ms') = finalFlags ms ++ finalFlags ms'.
Proof.
  induction ms as [|m ms IH]; [done|].
  simpl. destruct (cm_data m); simpl; by rewrite IH.
Qed.

(** Every message the service holds, sent or waiting. *)
Lemma sendMessage_holds (m : ClientMessage) (s : WebSocketService.t) :
  (transported (sendMessage m s) = transported s ++ [m]
   ∧ messageQueue (sendMessage m s) = messageQueue s)
  ∨ (transported (sendMessage m s) = transported s
     ∧ messageQueue (sendMessage m s) = messageQueue s ++ [m]).
Proof.
  unfold sendMessage, transported.
  destruct (socket s) as [k|] eqn:Hk; simpl; [|right; by rewrite Hk].
  destruct (connected k); simpl; [|right; by rewrite Hk].
  unfold socket_emit. destruct (throws k (emits k)); simpl; auto.
Qed.

Lemma onAudioChunk_never_final (sid : option string) (c : AudioChunk)
    (ws : WebSocketService.t) :
  Forall (λ f, f = false) (finalFlags (transported ws ++ messageQueue ws)) →
  Forall (λ f, f = false)
    (finalFlags (transported (onAudioChunk sid c ws)
                 ++ messageQueue (onAudioChunk sid c ws))).
Proof.
  intros H. unfold onAudioChunk.
  destruct sid as [sid|]; [|done]. destruct (decide (sid = EmptyString)); [done|].
  unfold sendAudioData, generateMessageId.
  match goal with |- context [sendMessage ?m ?s1] =>
    destruct (sendMessage_holds m s1) as [[E1 E2]|[E1 E2]]; rewrite E1, E2 end;
    simpl; rewrite !finalFlags_app in *; simpl;
    apply Forall_app in H as [H1 H2]; rewrite ?Forall_app; repeat split;
    auto using Forall_nil.
Qed.

(** C1 (as stated, refuted).  A pass of one buffer: the chunk is emitted
    with sequence 1, not 0, and the audio message the screen sends for it,
    the last of the pass, has [is_final = false]. *)
Lemma C1_first_chunk_is_one_and_not_final :
  let s := pass [([Byte.x2a], 100)] (startRecording MediaReady 0 AudioService.init).1 in
  let cs := chunks (AudioService.emitted s) in
  let connected_ws := execs 0 [call_connect (Some (λ _, false)); socket_says ev_connect]
                        WebSocketService.init in
  let ws := (λ w0, foldl (λ w c, onAudioChunk (Some "s1") c w) w0 cs) <$> connected_ws in
  map chunk_sequence cs = [1%nat]
  ∧ map chunk_sequence cs ≠ seq 0 1
  ∧ (finalFlags ∘ transported) <$> ws = Some [false].
Proof. vm_compute. repeat split; congruence. Qed.

(** C1 (amended).  In a recording pass of [AudioService] the counter is
    reset to 0 when the recording starts, every non-empty buffer yields one
    chunk, and the sequence number of each chunk is one more than that of
    the chunk before it; no audio message the screen sends for a chunk is
    marked final.  In the native recorder, too, each chunk carries the
    sequence number of the previous one plus one (as a 32-bit integer). *)
Theorem C1_sequence_numbers_within_a_pass
    (s0 : AudioService.t) (t0 : Z) (bs : list (Blob * Z)) :
  AudioService.isRecording s0 = false → processing s0 = [] →
  let s1 := (startRecording MediaReady t0 s0).1 in
  let cs := drop (length (chunks (AudioService.emitted s1)))
                 (chunks (AudioService.emitted (pass bs s1))) in
  AudioService.sequence s1 = 0%nat
  ∧ length cs = length (filter (λ bt, (0 < length bt.1)%nat) bs)
  ∧ (∀ i c c', cs !! i = Some c → cs !! S i = Some c' →
        chunk_sequence c' = S (chunk_sequence c))
  ∧ (∀ sid ws,
        Forall (λ f, f = false) (finalFlags (transported ws ++ messageQueue ws)) →
        let ws' := foldl (λ w c, onAudioChunk sid c w) ws cs in
        Forall (λ f, f = false) (finalFlags (transported ws' ++ messageQueue ws')))
  ∧ (∀ j reads i n n',
        AudioRecorderModule.isRecording j = true →
        let ns := drop (length (AudioRecorderModule.sequences (AudioRecorderModule.sent j)))
                    (AudioRecorderModule.sequences
                       (AudioRecorderModule.sent
                          (AudioRecorderModule.processAudioData reads j))) in
        ns !! i = Some n → ns !! S i = Some n' →
        n' = AudioRecorderModule.wrap32 (n + 1)).
Proof.
  intros Hidle Hproc s1 cs.
  assert (Hs1 : mediaRecorder s1 = true ∧ processing s1 = [] ∧ AudioService.sequence s1 = 0%nat).
  { subst s1. unfold startRecording. rewrite Hidle. simpl. by rewrite Hproc. }
  destruct Hs1 as (Hrec & Hproc1 & Hseq).
  destruct (pass_emits bs s1 Hrec Hproc1) as (E & _ & _).
  assert (Hcs : cs = numbered 0 bs).
  { subst cs. rewrite E, Hseq. by rewrite drop_app_length. }
  split; [done|]. rewrite Hcs. split; [apply numbered_length|].
  split; [apply numbered_consecutive|]. split.
  - intros sid ws. generalize (numbered 0 bs). clear. intros l.
    revert ws. induction l as [|c l IH]; intros ws H; simpl; [done|].
    apply IH. by apply onAudioChunk_never_final.
  - intros j reads i n n' Hj ns. subst ns.
    rewrite processAudioData_sends by done. rewrite drop_app_length.
    apply counted_consecutive.
Qed.

(** The amended C1 at a pass of three buffers, the second one empty. *)
Lemma C1_sequence_numbers_within_a_pass_witness :
  AudioService.sequence (startRecording MediaReady 5 AudioService.init).1 = 0%nat
  ∧ length (drop (length (chunks (AudioService.emitted
                                    (startRecording MediaReady 5 AudioService.init).1)))
                 (chunks (AudioService.emitted
                            (pass [([Byte.x01], 100); ([], 200); ([Byte.x02], 300)]
                               (startRecording MediaReady 5 AudioService.init).1))))
    = 2%nat.
Proof.
  destruct (C1_sequence_numbers_within_a_pass AudioService.init 5
              [([Byte.x01], 100); ([], 200); ([Byte.x02], 300)])
    as (H1 & H2 & _); [reflexivity | reflexivity |].
  split; [exact H1 | exact H2].
Defined.

(** C9.  [startRecording] while a recording is in progress fails with
    'Already recording' (ALREADY_RECORDING in the native recorder) and
    returns the service as it was: still recording, counter untouched. *)
Theorem C9_start_while_recording_is_rejected
    (s : AudioService.t) (env : Media) (now : Z)
    (j : AudioRecorderModule.t) (penv : AudioRecorderModule.Platform) :
  AudioService.isRecording s = true →
  AudioRecorderModule.isRecording j = true →
  startRecording env now s = (s, Some AlreadyRecording)
  ∧ AudioService.isRecording (startRecording env now s).1 = true
  ∧ AudioService.sequence (startRecording env now s).1 = AudioService.sequence s
  ∧ AudioRecorderModule.startRecording penv j
    = (j, AudioRecorderModule.reject "ALREADY_RECORDING" "Recording is already in progress")
  ∧ AudioRecorderModule.sequenceCounter (AudioRecorderModule.startRecording penv j).1
    = AudioRecorderModule.sequenceCounter j.
Proof.
  intros Hs Hj. unfold startRecording, AudioRecorderModule.startRecording.
  rewrite Hs, Hj. done.
Qed.

(** C9 after two delivered buffers: the second start changes nothing and
    the counter stays at 2. *)
Lemma C9_start_while_recording_is_rejected_witness :
  let s := pass [([Byte.x01], 100); ([Byte.x02], 200)]
             (startRecording MediaReady 0 AudioService.init).1 in
  let j := AudioRecorderModule.processAudioData [[1]; [2]]
             (AudioRecorderModule.startRecording AudioRecorderModule.Ready
                AudioRecorderModule.init).1 in
  startRecording MediaReady 300 s = (s, Some AlreadyRecording)
  ∧ AudioService.sequence (startRecording MediaReady 300 s).1 = 2%nat
  ∧ AudioRecorderModule.sequenceCounter
      (AudioRecorderModule.startRecording AudioRecorderModule.Ready j).1 = 2.
Proof.
  intros s j.
  destruct (C9_start_while_recording_is_rejected s MediaReady 300 j AudioRecorderModule.Ready)
    as (H1 & _ & H3 & _ & H5); [reflexivity | reflexivity |].
  split; [exact H1|]. split; [by rewrite H3 | by rewrite H5].
Defined.

End Recording.

(* ===================================================================== *)
(** * The outbound queue *)
(* ===================================================================== *)

Section Queue.

Import WebSocketService.

Lemma sendMessage_down (m : ClientMessage) (s : WebSocketService.t) :
  isConnected s = false →
  sendMessage m s = set_messageQueue (messageQueue s ++ [m]) s.
Proof.
  unfold isConnected, sendMessage. destruct (socket s) as [k|]; [|done].
  by intros ->.
Qed.

Lemma sendMessage_accepted (m : ClientMessage) (s : WebSocketService.t) (k : Socket) :
  socket s = Some k → connected k = true → throws k (emits k) = false →
  sendMessage m s
  = set_socket (Some {| connected := true; options := options k; emits := S (emits k);
                        throws := throws k; delivered := delivered k ++ [m];
                        result := result k |}) s.
Proof.
  intros Hk Hc Ht. unfold sendMessage, socket_emit. by rewrite Hk, Hc, Ht.
Qed.

Lemma sendMessage_thrown (m : ClientMessage) (s : WebSocketService.t) (k : Socket) :
  socket s = Some k → connected k = true → throws k (emits k) = true →
  transported (sendMessage m s) = transported s
  ∧ messageQueue (sendMessage m s) = messageQueue s ++ [m].
Proof.
  intros Hk Hc Ht. unfold sendMessage, socket_emit, transported.
  by rewrite Hk, Hc, Ht.
Qed.

(** Messages sent while the socket is down pile up at the back of the
    queue. *)
Lemma sendMessage_all_down (ms : list ClientMessage) : ∀ s : WebSocketService.t,
  isConnected s = false →
  foldl (λ s m, sendMessage m s) s ms = set_messageQueue (messageQueue s ++ ms) s.
Proof.
  induction ms as [|m ms IH]; intros s Hs; simpl.
  - rewrite app_nil_r. by destruct s.
  - rewrite sendMessage_down by done. rewrite IH by done.
    simpl. by rewrite <- app_assoc.
Qed.

(** With the socket up and a transport that accepts the next [length q]
    messages, a flush given one unit of fuel per queued message hands the
    whole queue over, front first. *)
Lemma flushMessageQueue_accepts (q : list ClientMessage) :
  ∀ (s : WebSocketService.t) (k : Socket),
    socket s = Some k → connected k = true →
    (∀ i, (i < length q)%nat → throws k (emits k + i) = false) →
    messageQueue s = q →
    flushMessageQueue (length q) s
    = Some (set_messageQueue []
              (set_socket (Some {| connected := true; options := options k;
                                   emits := (emits k + length q)%nat;
                                   throws := throws k;
                                   delivered := delivered k ++ q;
                                   result := result k |}) s)).
Proof.
  induction q as [|m q IH]; intros s k Hk Hc Ht Hq.
  - simpl. rewrite Hq. f_equal. destruct s, k; simpl in *.
    subst. by rewrite Nat.add_0_r, app_nil_r.
  - simpl. rewrite Hq. unfold isConnected. rewrite Hk, Hc.
    erewrite sendMessage_accepted; [|done..|].
    2:{ specialize (Ht 0%nat). rewrite Nat.add_0_r in Ht. apply Ht. simpl. lia. }
    erewrite IH; [|done..| |done].
    2:{ intros i Hi. simpl.
        replace (S (emits k + i)) with (emits k + S i)%nat by lia.
        apply Ht. simpl. lia. }
    unfold set_messageQueue, set_socket; simpl.
    rewrite <- app_assoc. simpl.
    by replace (S (emits k + length q)) with (emits k + S (length q))%nat by lia.
Qed.

(** More fuel does not change the outcome of a flush that ended. *)
Lemma flushMessageQueue_fuel (fuel : nat) : ∀ (s s' : WebSocketService.t) (extra : nat),
  flushMessageQueue fuel s = Some s' → flushMessageQueue (fuel + extra) s = Some s'.
Proof.
  induction fuel as [|fuel IH]; intros s s' extra; simpl.
  - destruct (messageQueue s) eqn:Hq; [by destruct extra; simpl; rewrite Hq|].
    destruct (isConnected s) eqn:Hc; [done|].
    intros. destruct extra; simpl; by rewrite Hq, Hc.
  - destruct (messageQueue s); [done|]. destruct (isConnected s); [|done].
    apply IH.
Qed.

(** A flush neither loses nor invents a message, whatever the transport
    does. *)
Lemma flushMessageQueue_conserves (fuel : nat) : ∀ s s' : WebSocketService.t,
  flushMessageQueue fuel s = Some s' →
  transported s' ++ messageQueue s' ≡ₚ transported s ++ messageQueue s.
Proof.
  induction fuel as [|fuel IH]; intros s s'; simpl.
  - destruct (messageQueue s) eqn:Hq; [by intros [= <-]; rewrite Hq|].
    destruct (isConnected s); [done|]. by intros [= <-]; rewrite Hq.
  - destruct (messageQueue s) as [|m q] eqn:Hq; [by intros [= <-]; rewrite Hq|].
    destruct (isConnected s); [|by intros [= <-]; rewrite Hq].
    intros H. apply IH in H. rewrite H.
    destruct (sendMessage_holds m (set_messageQueue q s)) as [[E1 E2]|[E1 E2]];
      rewrite E1, E2; simpl; unfold transported; simpl.
    + rewrite <- app_assoc. simpl. done.
    + apply Permutation_app_head. symmetry. apply Permutation_cons_append.
Qed.

(** C10.  [sendMessage] either hands the message to the transport (socket
    connected and [emit] returns) or appends it to the queue (socket not
    connected, or [emit] throws); and a later flush only moves messages
    from the queue to the transport or back to the queue. *)
Theorem C10_message_sent_or_retained (m : ClientMessage) (s : WebSocketService.t) :
  ((isConnected s = true
    ∧ (∃ k, socket s = Some k ∧ throws k (emits k) = false)
    ∧ transported (sendMessage m s) = transported s ++ [m]
    ∧ messageQueue (sendMessage m s) = messageQueue s)
   ∨ ((isConnected s = false ∨ ∃ k, socket s = Some k ∧ throws k (emits k) = true)
      ∧ transported (sendMessage m s) = transported s
      ∧ messageQueue (sendMessage m s) = messageQueue s ++ [m]))
  ∧ ∀ fuel s', flushMessageQueue fuel (sendMessage m s) = Some s' →
      m ∈ transported s' ++ messageQueue s'.
Proof.
  split.
  - unfold isConnected. destruct (socket s) as [k|] eqn:Hk.
    + destruct (connected k) eqn:Hc.
      * destruct (throws k (emits k)) eqn:Ht.
        -- right. split; [right; eauto|]. by eapply sendMessage_thrown.
        -- left. split; [done|]. split; [eauto|].
           erewrite sendMessage_accepted by done.
           unfold transported. rewrite Hk. done.
      * right. split; [by left|]. rewrite sendMessage_down.
        -- done.
        -- unfold isConnected. by rewrite Hk.
    + right. split; [by left|]. rewrite sendMessage_down.
      * done.
      * unfold isConnected. by rewrite Hk.
  - intros fuel s' H. apply flushMessageQueue_conserves in H. rewrite H.
    destruct (sendMessage_holds m s) as [[E1 E2]|[E1 E2]]; rewrite E1, E2;
      set_solver.
Qed.

(** C10 with a transport that refuses the first message it is given: the
    message goes to the queue, and the flush that follows delivers it. *)
Lemma C10_message_sent_or_retained_witness :
  let m := {| cm_type := "audio_data"; cm_timestamp := 0;
              cm_data := other_data "{}"; cm_message_id := (0, 0%nat) |} in
  let up := {| connected := true; options := socketOptions; emits := 0;
               throws := λ i, bool_decide (i = 0%nat); delivered := [];
               result := opened |} in
  let s := set_socket (Some up) WebSocketService.init in
  messageQueue (sendMessage m s) = [m]
  ∧ ∃ s', flushMessageQueue 1 (sendMessage m s) = Some s'
          ∧ m ∈ transported s' ++ messageQueue s'.
Proof.
  intros m up s.
  destruct (C10_message_sent_or_retained m s) as [_ H].
  split; [reflexivity|].
  eexists. split; [reflexivity|]. apply (H 1%nat). reflexivity.
Defined.

End Queue.

(* ===================================================================== *)
(** * Listeners: what [emit] does to the service *)
(* ===================================================================== *)

Section Listeners.

Import WebSocketService.

#[local] Arguments off : simpl never.
#[local] Arguments on : simpl never.
#[local] Arguments settle : simpl never.
#[local] Arguments clearTimer : simpl never.
#[local] Arguments emit : simpl never.

Lemma same_connection_refl (s : WebSocketService.t) : same_connection s s.
Proof. by repeat split. Qed.

Lemma same_connection_trans (s1 s2 s3 : WebSocketService.t) :
  same_connection s1 s2 → same_connection s2 s3 → same_connection s1 s3.
Proof.
  unfold same_connection. intros H1 H2.
  destruct H1 as (?&?&?&?&?&?&?&?&?), H2 as (?&?&?&?&?&?&?&?&?).
  repeat split; congruence.
Qed.

Lemma same_service_refl (s : WebSocketService.t) : same_service s s.
Proof. split; [apply same_connection_refl | done]. Qed.

Lemma same_service_trans (s1 s2 s3 : WebSocketService.t) :
  same_service s1 s2 → same_service s2 s3 → same_service s1 s3.
Proof.
  intros (C1 & ? & ? & ?) (C2 & ? & ? & ?).
  split; [eapply same_connection_trans; eauto|]. repeat split; congruence.
Qed.

Lemma same_service_listeners (event : string) (s s' : WebSocketService.t) :
  same_service s s' → listeners event s' = listeners event s.
Proof. intros (_ & E & _). unfold listeners. by rewrite E. Qed.

Lemma off_same_connection (event : string) (cb : option Callback) (s : WebSocketService.t) :
  same_connection s (off event cb s).
Proof.
  unfold off. destruct cb as [cb|]; [|by repeat split].
  destruct (eventListeners s !! event) as [l|]; [|apply same_connection_refl].
  destruct (indexOf cb l); [by repeat split | apply same_connection_refl].
Qed.

Lemma settle_same_connection (c : nat) (p : Promise) (s : WebSocketService.t) :
  same_connection s (settle c p s).
Proof.
  unfold settle. destruct (promises s !! c) as [[]|]; by repeat split.
Qed.

Lemma invoke_same_connection (cb : Callback) (data : Payload) (s : WebSocketService.t) :
  same_connection s (invoke cb data s).
Proof.
  destruct cb as [c rt tid|n]; simpl; [|by repeat split].
  destruct data as [m| | | |]; try apply same_connection_refl.
  destruct (decide (sm_type m = rt)); [|apply same_connection_refl].
  eapply same_connection_trans; [|apply settle_same_connection].
  eapply same_connection_trans; [|apply off_same_connection].
  unfold clearTimer. by repeat split.
Qed.

Lemma forEach_same_connection (event : string) (data : Payload) (n : nat) :
  ∀ (k : nat) (s : WebSocketService.t), same_connection s (forEach event data k n s).
Proof.
  induction n as [|n IH]; intros k s; simpl; [apply same_connection_refl|].
  destruct (listeners event s !! k) as [cb|]; [|apply IH].
  eapply same_connection_trans; [apply (invoke_same_connection cb data)|apply IH].
Qed.

Lemma emit_same_connection (event : string) (data : Payload) (s : WebSocketService.t) :
  same_connection s (emit event data s).
Proof.
  unfold emit. simpl.
  destruct (eventListeners s !! event) as [l|]; [|by repeat split].
  eapply same_connection_trans; [|apply forEach_same_connection]. by repeat split.
Qed.

(** The trace of [emit] records each call once, whatever the listeners
    do. *)
Lemma invoke_emitted (cb : Callback) (data : Payload) (s : WebSocketService.t) :
  emitted (invoke cb data s) = emitted s.
Proof.
  destruct cb as [c rt tid|n]; simpl; [|done].
  destruct data as [m| | | |]; try done.
  destruct (decide (sm_type m = rt)); [|done].
  unfold settle, off, clearTimer; simpl.
  destruct (eventListeners s !! rt) as [l|]; simpl;
    [destruct (indexOf _ l); simpl|];
    destruct (promises s !! c) as [[]|]; done.
Qed.

Lemma forEach_emitted (event : string) (data : Payload) (n : nat) :
  ∀ (k : nat) (s : WebSocketService.t), emitted (forEach event data k n s) = emitted s.
Proof.
  induction n as [|n IH]; intros k s; simpl; [done|].
  destruct (listeners event s !! k) as [cb|]; rewrite IH; [apply invoke_emitted|done].
Qed.

Lemma emit_emitted (event : string) (data : Payload) (s : WebSocketService.t) :
  emitted (emit event data s) = emitted s ++ [(event, data)].
Proof.
  unfold emit. simpl.
  destruct (eventListeners s !! event) as [l|]; [|done].
  by rewrite forEach_emitted.
Qed.

(** A callback the payload cannot trigger only observes it. *)
Lemma invoke_inert (cb : Callback) (data : Payload) (s : WebSocketService.t) :
  inert data cb → same_service s (invoke cb data s).
Proof.
  destruct cb as [c rt tid|n]; simpl.
  - destruct data as [m| | | |]; try (intros; apply same_service_refl).
    intros H. rewrite decide_False by done. apply same_service_refl.
  - intros _. by repeat split.
Qed.

Lemma forEach_inert (event : string) (data : Payload) (n : nat) :
  ∀ (k : nat) (s : WebSocketService.t),
    (∀ i cb, (k ≤ i < k + n)%nat → listeners event s !! i = Some cb → inert data cb) →
    same_service s (forEach event data k n s).
Proof.
  induction n as [|n IH]; intros k s H; simpl; [apply same_service_refl|].
  destruct (listeners event s !! k) as [cb|] eqn:Hk.
  - assert (Hcb : inert data cb) by (apply (H k); [lia|done]).
    pose proof (invoke_inert cb data s Hcb) as Hs.
    eapply same_service_trans; [exact Hs|]. apply IH.
    intros i cb' Hi. rewrite (same_service_listeners _ _ _ Hs).
    apply H. lia.
  - apply IH. intros i cb' Hi. apply H. lia.
Qed.

Lemma emit_inert (event : string) (data : Payload) (s : WebSocketService.t) :
  (∀ cb, cb ∈ listeners event s → inert data cb) →
  same_service s (emit event data s).
Proof.
  intros H. unfold emit. simpl.
  destruct (eventListeners s !! event) as [l|] eqn:Hl; [|by repeat split].
  eapply same_service_trans; [|apply forEach_inert].
  - by repeat split.
  - intros i cb _ Hi. apply H. by apply list_elem_of_lookup_2 in Hi.
Qed.

(** A payload that is not a server message triggers nothing. *)
Lemma emit_notice (event : string) (data : Payload) (s : WebSocketService.t) :
  (∀ m, data ≠ from_server m) → same_service s (emit event data s).
Proof.
  intros H. apply emit_inert. intros [c rt tid|n] _; [|done].
  destruct data; simpl; try done. by destruct (H m).
Qed.

Lemma forEach_add (event : string) (data : Payload) (n1 n2 : nat) :
  ∀ (k : nat) (s : WebSocketService.t),
    forEach event data k (n1 + n2) s
    = forEach event data (k + n1) n2 (forEach event data k n1 s).
Proof.
  induction n1 as [|n1 IH]; intros k s; simpl.
  - by rewrite Nat.add_0_r.
  - destruct (listeners event s !! k); rewrite IH; f_equal; lia.
Qed.

End Listeners.

(* ===================================================================== *)
(** * Reconnection: flushing the queue *)
(* ===================================================================== *)

Section Reconnect.

Import WebSocketService.

Lemma startHeartbeat_wire (s : WebSocketService.t) :
  socket (startHeartbeat s) = socket s
  ∧ messageQueue (startHeartbeat s) = messageQueue s
  ∧ sessionId (startHeartbeat s) = sessionId s
  ∧ promises (startHeartbeat s) = promises s
  ∧ eventListeners (startHeartbeat s) = eventListeners s
  ∧ emitted (startHeartbeat s) = emitted s.
Proof. unfold startHeartbeat, stopHeartbeat. by destruct (heartbeatInterval s). Qed.

Lemma stopHeartbeat_wire (s : WebSocketService.t) :
  socket (stopHeartbeat s) = socket s
  ∧ messageQueue (stopHeartbeat s) = messageQueue s
  ∧ sessionId (stopHeartbeat s) = sessionId s
  ∧ promises (stopHeartbeat s) = promises s
  ∧ eventListeners (stopHeartbeat s) = eventListeners s
  ∧ emitted (stopHeartbeat s) = emitted s.
Proof. unfold stopHeartbeat. by destruct (heartbeatInterval s). Qed.

(** The socket reports 'connect': the service sees it connected, with the
    same transport, and keeps its queue. *)
Lemma onSocket_connect (fuel : nat) (s : WebSocketService.t) (k : Socket) :
  socket s = Some k →
  ∃ s', onSocket fuel ev_connect s = Some s'
        ∧ socket s' = Some (settle_opening opened (set_connected true k))
        ∧ messageQueue s' = messageQueue s.
Proof.
  intros Hk. unfold onSocket. rewrite Hk. eexists. split; [done|].
  match goal with |- context [startHeartbeat ?s0] =>
    destruct (startHeartbeat_wire s0) as (E1 & E2 & _);
    generalize dependent (startHeartbeat s0) end.
  intros sX E1 E2. simpl. rewrite E1, E2. done.
Qed.

(** A flush with the socket not connected sends nothing, whatever the
    fuel. *)
Lemma flushMessageQueue_down (fuel : nat) (s : WebSocketService.t) :
  isConnected s = false → flushMessageQueue fuel s = Some s.
Proof.
  intros Hc. destruct fuel; simpl; destruct (messageQueue s); by rewrite ?Hc.
Qed.

(** C2 (as stated, refuted).  Two messages are sent while the socket is
    not connected.  When the socket reports 'reconnect' before it is
    flagged connected, nothing is handed to the transport and the queue
    is as it was.  And when the socket is connected but its first [emit]
    throws, the flush hands the second message over before the first. *)
Lemma C2_reconnect_need_not_flush_in_order :
  let m (i : nat) := {| cm_type := "audio_data"; cm_timestamp := 0;
                        cm_data := other_data "{}"; cm_message_id := (0, i) |} in
  (∃ s, execs 0 [call_connect (Some (λ _, false));
                 call_sendMessage (m 1%nat); call_sendMessage (m 2%nat);
                 socket_says (ev_reconnect 1)] WebSocketService.init = Some s
        ∧ transported s = [] ∧ messageQueue s = [m 1%nat; m 2%nat])
  ∧ (∃ s, execs 3 [call_connect (Some (λ i, bool_decide (i = 0%nat)));
                   call_sendMessage (m 1%nat); call_sendMessage (m 2%nat);
                   socket_says ev_connect;
                   socket_says (ev_reconnect 1)] WebSocketService.init = Some s
          ∧ transported s = [m 2%nat; m 1%nat] ∧ messageQueue s = []).
Proof.
  intros m. split.
  - eexists. split; [vm_compute; reflexivity|]. split; reflexivity.
  - eexists. split; [vm_compute; reflexivity|]. split; reflexivity.
Qed.

(** C2 (amended).  Messages passed to [sendMessage] while the socket is
    not connected are appended to the queue in call order and none is
    handed to the transport.  The 'connect' event sends nothing of the
    queue.  When the socket reports 'reconnect': if it is not flagged
    connected, nothing is sent and the queue is kept; if it is connected
    and the transport accepts each message of the flush ([emit] does not
    throw), the transport receives the whole queue in enqueue order and
    the queue ends empty; and whatever the transport does, a flush that
    ends has dropped no message: each is transported or still queued. *)
Theorem C2_queue_flushes_in_order (s : WebSocketService.t) (ms : list ClientMessage) :
  isConnected s = false →
  let s1 := foldl (λ s m, sendMessage m s) s ms in
  (messageQueue s1 = messageQueue s ++ ms ∧ transported s1 = transported s)
  ∧ (∀ fuel, ∃ s2, exec fuel (socket_says ev_connect) s1 = Some s2
                   ∧ messageQueue s2 = messageQueue s1
                   ∧ transported s2 = transported s1)
  ∧ (∀ fuel n s', isConnected s' = false →
       ∃ s'', exec fuel (socket_says (ev_reconnect n)) s' = Some s''
              ∧ messageQueue s'' = messageQueue s'
              ∧ transported s'' = transported s')
  ∧ (∀ n s' k, socket s' = Some k → connected k = true →
       (∀ i, (i < length (messageQueue s'))%nat → throws k (emits k + i) = false) →
       ∃ s'', exec (length (messageQueue s')) (socket_says (ev_reconnect n)) s' = Some s''
              ∧ transported s'' = transported s' ++ messageQueue s'
              ∧ messageQueue s'' = [])
  ∧ (∀ fuel n s' s'', exec fuel (socket_says (ev_reconnect n)) s' = Some s'' →
       transported s'' ++ messageQueue s'' ≡ₚ transported s' ++ messageQueue s').
Proof.
  intros Hdown s1.
  assert (Hs1 : s1 = set_messageQueue (messageQueue s ++ ms) s)
    by (apply sendMessage_all_down; done).
  assert (Hwire : ∀ e d s0, messageQueue (emit e d s0) = messageQueue s0
                            ∧ transported (emit e d s0) = transported s0).
  { intros e d s0. destruct (emit_same_connection e d s0) as (E & _ & _ & _ & Eq & _).
    unfold transported. by rewrite E, Eq. }
  split; [by rewrite Hs1|]. split; [|split; [|split]].
  - intros fuel. cbn [exec]. destruct (socket s1) as [k|] eqn:Hk.
    + destruct (onSocket_connect fuel s1 k Hk) as (s2 & E2 & Hk2 & Hq2).
      exists s2. split; [done|]. split; [done|].
      unfold transported. rewrite Hk2, Hk. unfold settle_opening. simpl.
      by destruct (result k).
    + exists s1. split; [|done]. unfold onSocket. by rewrite Hk.
  - intros fuel n s' Hc. cbn [exec]. unfold onSocket.
    destruct (socket s') as [k|] eqn:Hk; [|by exists s'].
    rewrite flushMessageQueue_down by done. simpl. eexists. split; [done|].
    apply Hwire.
  - intros n s' k Hk Hc Ht. cbn [exec]. unfold onSocket. rewrite Hk.
    rewrite (flushMessageQueue_accepts (messageQueue s') s' k Hk Hc Ht eq_refl).
    simpl. eexists. split; [done|].
    match goal with |- context [emit ?e ?d ?s0] =>
      destruct (Hwire e d s0) as [-> ->] end.
    unfold transported. simpl. by rewrite Hk.
  - intros fuel n s' s''. cbn [exec]. unfold onSocket.
    destruct (socket s') as [k|] eqn:Hk; [|by intros [= <-]].
    destruct (flushMessageQueue fuel s') as [s3|] eqn:Hf; [|done].
    simpl. intros H. apply (inj Some) in H. subst s''.
    destruct (Hwire "reconnect" (with_attempts n) s3) as [-> ->].
    by eapply flushMessageQueue_conserves.
Qed.

(** The amended C2 at two messages queued behind one that was already
    waiting: the socket connects, then reports 'reconnect'. *)
Lemma C2_queue_flushes_in_order_witness :
  let m (i : nat) := {| cm_type := "audio_data"; cm_timestamp := 0;
                        cm_data := other_data "{}"; cm_message_id := (0, i) |} in
  let down := {| connected := false; options := socketOptions; emits := 0;
                 throws := λ _, false; delivered := []; result := failed |} in
  let s := set_messageQueue [m 0%nat] (set_socket (Some down) WebSocketService.init) in
  let s1 := foldl (λ s m, sendMessage m s) s [m 1%nat; m 2%nat] in
  messageQueue s1 = [m 0%nat; m 1%nat; m 2%nat]
  ∧ ∃ s2 s3,
      exec 0 (socket_says ev_connect) s1 = Some s2
      ∧ exec 3 (socket_says (ev_reconnect 1)) s2 = Some s3
      ∧ transported s3 = [m 0%nat; m 1%nat; m 2%nat]
      ∧ messageQueue s3 = [].
Proof.
  intros m down s s1.
  destruct (C2_queue_flushes_in_order s [m 1%nat; m 2%nat] eq_refl)
    as ((Hq & _) & Hconn & _ & Hup & _).
  split; [exact Hq|].
  destruct (Hconn 0%nat) as (s2 & E2 & Hq2 & Ht2). exists s2.
  assert (Hk2 : socket s2 = Some (set_connected true down)).
  { vm_compute in E2. injection E2 as <-. reflexivity. }
  destruct (Hup 1%nat s2 (set_connected true down) Hk2 eq_refl) as (s3 & E3 & Ht3 & Hq3).
  { intros i _. reflexivity. }
  assert (Hq2' : messageQueue s2 = [m 0%nat; m 1%nat; m 2%nat])
    by (etransitivity; [exact Hq2|exact Hq]).
  exists s3. rewrite Hq2' in E3, Ht3.
  split; [exact E2|]. split; [exact E3|]. rewrite Ht3, Ht2. split; [reflexivity|exact Hq3].
Defined.

End Reconnect.

(* ===================================================================== *)
(** * The invariant holds along every run *)
(* ===================================================================== *)

Section Invariant.

Import WebSocketService.

#[local] Arguments off : simpl never.
#[local] Arguments on : simpl never.
#[local] Arguments settle : simpl never.
#[local] Arguments clearTimer : simpl never.
#[local] Arguments emit : simpl never.
#[local] Arguments sendMessage : simpl never.
#[local] Arguments startHeartbeat : simpl never.
#[local] Arguments stopHeartbeat : simpl never.

Lemma Inv_init : Inv WebSocketService.init.
Proof.
  constructor; unfold listeners; simpl; intros *; rewrite ?lookup_empty; try done.
  simpl. by intros ?%elem_of_nil.
Qed.

(** The invariant reads six fields only. *)
Lemma Inv_core (s s' : WebSocketService.t) :
  timers s' = timers s → nextTimer s' = nextTimer s → now s' = now s →
  promises s' = promises s → eventListeners s' = eventListeners s →
  heartbeatInterval s' = heartbeatInterval s →
  Inv s → Inv s'.
Proof.
  intros Et En Eo Ep El Eh [H1 H2 H3 H4 H5 H6 H7].
  constructor; unfold listeners; rewrite ?Et, ?En, ?Eo, ?Ep, ?El, ?Eh; done.
Qed.

Lemma Inv_same_service (s s' : WebSocketService.t) :
  same_service s s' → Inv s → Inv s'.
Proof.
  intros ((_&_&Eh&_&_&_&Eo&En&_) & El & Et & Ep). by apply Inv_core.
Qed.

Lemma Inv_set_socket (v : option Socket) (s : WebSocketService.t) :
  Inv s → Inv (set_socket v s).
Proof. by apply Inv_core. Qed.

Lemma sendMessage_core (m : ClientMessage) (s : WebSocketService.t) :
  timers (sendMessage m s) = timers s
  ∧ nextTimer (sendMessage m s) = nextTimer s
  ∧ now (sendMessage m s) = now s
  ∧ promises (sendMessage m s) = promises s
  ∧ eventListeners (sendMessage m s) = eventListeners s
  ∧ heartbeatInterval (sendMessage m s) = heartbeatInterval s
  ∧ sessionId (sendMessage m s) = sessionId s
  ∧ emitted (sendMessage m s) = emitted s
  ∧ isConnected (sendMessage m s) = isConnected s.
Proof.
  unfold sendMessage, isConnected.
  destruct (socket s) as [k|] eqn:Hk; [|by simpl; rewrite ?Hk].
  destruct (connected k) eqn:Hc; [|by simpl; rewrite ?Hk, ?Hc].
  unfold socket_emit. destruct (throws k (emits k)); simpl; by rewrite ?Hc.
Qed.

Lemma Inv_sendMessage (m : ClientMessage) (s : WebSocketService.t) :
  Inv s → Inv (sendMessage m s).
Proof.
  destruct (sendMessage_core m s) as (?&?&?&?&?&?&_). by apply Inv_core.
Qed.

Lemma flushMessageQueue_core (fuel : nat) : ∀ s s' : WebSocketService.t,
  flushMessageQueue fuel s = Some s' →
  timers s' = timers s ∧ nextTimer s' = nextTimer s ∧ now s' = now s
  ∧ promises s' = promises s ∧ eventListeners s' = eventListeners s
  ∧ heartbeatInterval s' = heartbeatInterval s ∧ sessionId s' = sessionId s
  ∧ emitted s' = emitted s ∧ isConnected s' = isConnected s.
Proof.
  induction fuel as [|fuel IH]; intros s s'; simpl.
  - destruct (messageQueue s); [by intros [= <-]|].
    destruct (isConnected s) eqn:Hc; [done | by intros [= <-]].
  - destruct (messageQueue s) as [|m q]; [by intros [= <-]|].
    destruct (isConnected s) eqn:Hc; [|by intros [= <-]].
    intros H. apply IH in H.
    destruct (sendMessage_core m (set_messageQueue q s)) as (?&?&?&?&?&?&?&?&?).
    destruct H as (?&?&?&?&?&?&?&?&?). unfold isConnected in *. simpl in *.
    repeat split; congruence.
Qed.

(** ** Listener tables *)

Lemma elem_of_listeners_on (ev ev' : string) (cb cb' : Callback) (s : WebSocketService.t) :
  cb' ∈ listeners ev' (on ev cb s) ↔
  cb' ∈ listeners ev' s ∨ (ev' = ev ∧ cb' = cb).
Proof.
  unfold on, listeners. simpl. destruct (decide (ev = ev')) as [->|Hne].
  - rewrite lookup_insert_eq. simpl. rewrite elem_of_app, list_elem_of_singleton.
    split; (intros [H|H]; [by left|right]); [done|by destruct H].
  - rewrite lookup_insert_ne by done. split; [by left|].
    intros [H|[-> _]]; done.
Qed.

Lemma listeners_on_eq (ev : string) (cb : Callback) (s : WebSocketService.t) :
  listeners ev (on ev cb s) = listeners ev s ++ [cb].
Proof. unfold on, listeners. simpl. by rewrite lookup_insert_eq. Qed.

Lemma listeners_on_ne (ev ev' : string) (cb : Callback) (s : WebSocketService.t) :
  ev ≠ ev' → listeners ev' (on ev cb s) = listeners ev' s.
Proof. intros. unfold on, listeners. simpl. by rewrite lookup_insert_ne. Qed.

Lemma elem_of_listeners_off (ev ev' : string) (cb : option Callback) (cb' : Callback)
    (s : WebSocketService.t) :
  cb' ∈ listeners ev' (off ev cb s) → cb' ∈ listeners ev' s.
Proof.
  unfold off, listeners. destruct cb as [cb|]; simpl.
  - destruct (eventListeners s !! ev) as [l|] eqn:Hl; [|done].
    destruct (indexOf cb l) as [i|]; [|done]. simpl.
    destruct (decide (ev = ev')) as [->|Hne].
    + rewrite lookup_insert_eq, Hl. simpl. apply list_elem_of_delete_inv.
    + by rewrite lookup_insert_ne.
  - destruct (decide (ev = ev')) as [->|Hne].
    + rewrite lookup_delete_eq. simpl. by intros ?%elem_of_nil.
    + by rewrite lookup_delete_ne.
Qed.

Lemma off_core (ev : string) (cb : option Callback) (s : WebSocketService.t) :
  timers (off ev cb s) = timers s ∧ nextTimer (off ev cb s) = nextTimer s
  ∧ now (off ev cb s) = now s ∧ promises (off ev cb s) = promises s
  ∧ heartbeatInterval (off ev cb s) = heartbeatInterval s.
Proof.
  unfold off. destruct cb as [cb|]; [|done].
  destruct (eventListeners s !! ev) as [l|]; [|done].
  by destruct (indexOf cb l).
Qed.

Lemma Inv_off (ev : string) (cb : option Callback) (s : WebSocketService.t) :
  Inv s → Inv (off ev cb s).
Proof.
  intros [H1 H2 H3 H4 H5 H6 H7].
  destruct (off_core ev cb s) as (Et & En & Eo & Ep & Eh).
  constructor; rewrite ?Et, ?En, ?Eo, ?Ep, ?Eh; try done.
  intros ev' c rt tid Hin%elem_of_listeners_off. by apply H4.
Qed.

Lemma Inv_on_listener (ev : string) (n : nat) (s : WebSocketService.t) :
  Inv s → Inv (on ev (listener n) s).
Proof.
  intros [H1 H2 H3 H4 H5 H6 H7]. constructor; try done.
  intros ev' c rt tid [Hin|[_ [=]]]%elem_of_listeners_on. by apply H4.
Qed.

(** ** Settling a call *)

Lemma settle_core (c : nat) (p : Promise) (s : WebSocketService.t) :
  timers (settle c p s) = timers s ∧ nextTimer (settle c p s) = nextTimer s
  ∧ now (settle c p s) = now s ∧ eventListeners (settle c p s) = eventListeners s
  ∧ heartbeatInterval (settle c p s) = heartbeatInterval s
  ∧ length (promises (settle c p s)) = length (promises s).
Proof.
  unfold settle. destruct (promises s !! c) as [[]|]; simpl; try done.
  by rewrite length_insert.
Qed.

(** A promise is settled once: [settle] acts on a pending promise only. *)
Lemma settle_hit (c : nat) (p : Promise) (s : WebSocketService.t) :
  promises s !! c = Some pending → promises (settle c p s) !! c = Some p.
Proof.
  intros Hc. unfold settle. rewrite Hc. simpl.
  apply list_lookup_insert_eq. by apply lookup_lt_Some in Hc.
Qed.

Lemma settle_other (c c' : nat) (p : Promise) (s : WebSocketService.t) :
  c' ≠ c → promises (settle c p s) !! c' = promises s !! c'.
Proof.
  intros Hne. unfold settle. destruct (promises s !! c) as [[]|]; simpl; try done.
  by rewrite list_lookup_insert_ne.
Qed.

Lemma settle_settled (c : nat) (p : Promise) (s : WebSocketService.t) :
  promises s !! c ≠ Some pending → settle c p s = s.
Proof. unfold settle. by destruct (promises s !! c) as [[]|]. Qed.

Lemma settle_pending (c c' : nat) (p : Promise) (s : WebSocketService.t) :
  p ≠ pending →
  promises (settle c p s) !! c' = Some pending →
  promises s !! c' = Some pending ∧ c' ≠ c.
Proof.
  intros Hp H. destruct (decide (c' = c)) as [->|Hne].
  - destruct (promises s !! c) as [q|] eqn:Hc.
    + destruct q.
      * rewrite settle_hit in H by done. congruence.
      * rewrite settle_settled in H by congruence. congruence.
      * rewrite settle_settled in H by congruence. congruence.
    + rewrite settle_settled in H by congruence. congruence.
  - by rewrite settle_other in H.
Qed.

(** A call is settled and its timer cleared: the invariant survives. *)
Lemma Inv_settled (s s' : WebSocketService.t) (c tid : nat) (rt : string) :
  Inv s →
  timers s' = delete tid (timers s) → nextTimer s' = nextTimer s → now s' = now s →
  heartbeatInterval s' = heartbeatInterval s →
  (∀ ev cb, cb ∈ listeners ev s' → cb ∈ listeners ev s) →
  length (promises s') = length (promises s) →
  (∀ c', promises s' !! c' = Some pending → promises s !! c' = Some pending ∧ c' ≠ c) →
  (∀ tm, timers s !! tid = Some tm → task tm = responseTimeout c rt) →
  Inv s'.
Proof.
  intros [H1 H2 H3 H4 H5 H6 H7] Et En Eo Eh Hl Elen Hp Htid.
  constructor; rewrite ?Et, ?En, ?Eo, ?Eh, ?Elen.
  - intros id tm [_ H]%lookup_delete_Some. eauto.
  - intros id tm [_ H]%lookup_delete_Some. eauto.
  - intros c' [Hc' Hne]%Hp. destruct (H3 c' Hc') as (id & d & rt' & Hid).
    exists id, d, rt'. rewrite lookup_delete_ne; [done|].
    intros <-. apply Htid in Hid. simpl in Hid. congruence.
  - intros ev c' rt' tid' Hin%Hl. destruct (H4 _ _ _ _ Hin) as (Ha&Hb&Hc&Ht).
    repeat split; try done. intros tm [_ H]%lookup_delete_Some. eauto.
  - intros id tm c' rt' [_ H]%lookup_delete_Some. eauto.
  - intros id tm [_ H]%lookup_delete_Some. eauto.
  - intros id Hid. destruct (H7 id Hid) as [Ha Ht]. split; [done|].
    intros tm [_ H]%lookup_delete_Some. eauto.
Qed.

Lemma Inv_invoke (ev : string) (cb : Callback) (data : Payload) (s : WebSocketService.t) :
  Inv s → cb ∈ listeners ev s → Inv (invoke cb data s).
Proof.
  intros HI Hin. destruct cb as [c rt tid|n]; simpl.
  - destruct data as [m| | | |]; try done.
    destruct (decide (sm_type m = rt)); [|done].
    destruct (inv_handler s HI _ _ _ _ Hin) as (_ & _ & _ & Htid).
    set (h := responseHandler c rt tid) in *.
    destruct (settle_core c (resolved m) (off rt (Some h) (clearTimer tid s)))
      as (Et & En & Eo & El & Eh & Elen).
    destruct (off_core rt (Some h) (clearTimer tid s)) as (Et' & En' & Eo' & Ep' & Eh').
    eapply (Inv_settled s _ c tid rt HI); rewrite ?Et, ?En, ?Eo, ?Eh, ?Elen,
      ?Et', ?En', ?Eo', ?Ep', ?Eh'; try done.
    + intros ev' cb. unfold listeners at 1. rewrite El.
      apply (elem_of_listeners_off rt ev' (Some h) cb (clearTimer tid s)).
    + intros c' Hc'. apply settle_pending in Hc'; [|done].
      by rewrite Ep' in Hc'.
  - by apply (Inv_core s).
Qed.

Lemma Inv_forEach (event : string) (data : Payload) (n : nat) :
  ∀ (k : nat) (s : WebSocketService.t), Inv s → Inv (forEach event data k n s).
Proof.
  induction n as [|n IH]; intros k s HI; simpl; [done|].
  destruct (listeners event s !! k) as [cb|] eqn:Hk; [|by apply IH].
  apply IH. eapply Inv_invoke; [done|]. by eapply list_elem_of_lookup_2.
Qed.

Lemma Inv_emit (event : string) (data : Payload) (s : WebSocketService.t) :
  Inv s → Inv (emit event data s).
Proof.
  intros HI. unfold emit. simpl.
  assert (Inv (set_emitted (emitted s ++ [(event, data)]) s)) by by apply (Inv_core s).
  destruct (eventListeners s !! event); [by apply Inv_forEach|done].
Qed.

Lemma Inv_setSessionId (sid : string) (s : WebSocketService.t) :
  Inv s → Inv (setSessionId sid s).
Proof. intros HI. apply Inv_emit. by apply (Inv_core s). Qed.

Lemma Inv_handleMessage (m : ServerMessage) (s : WebSocketService.t) :
  Inv s → Inv (handleMessage m s).
Proof.
  intros HI. unfold handleMessage. do 2 apply Inv_emit.
  destruct (decide (sm_type m = "connection_response")); [|done].
  destruct (sm_data m) as [d|]; [|done].
  destruct (sd_session_id d) as [sid|]; [|done].
  destruct (decide (sid = EmptyString)); [done|]. by apply Inv_setSessionId.
Qed.

(** ** Calls with a response *)

(** What [sendWithResponse] leaves behind, up to the send itself. *)
Lemma sendWithResponse_core (msg : ClientMessage) (rt : string) (s : WebSocketService.t) :
  let c := length (promises s) in
  let h := responseHandler c rt (nextTimer s) in
  (sendWithResponse msg rt s).1 = c
  ∧ timers (sendWithResponse msg rt s).2
    = <[nextTimer s := {| due := now s + 10000; period := None;
                          task := responseTimeout c rt |}]> (timers s)
  ∧ nextTimer (sendWithResponse msg rt s).2 = S (nextTimer s)
  ∧ now (sendWithResponse msg rt s).2 = now s
  ∧ promises (sendWithResponse msg rt s).2 = promises s ++ [pending]
  ∧ eventListeners (sendWithResponse msg rt s).2
    = <[rt := listeners rt s ++ [h]]> (eventListeners s)
  ∧ heartbeatInterval (sendWithResponse msg rt s).2 = heartbeatInterval s
  ∧ sessionId (sendWithResponse msg rt s).2 = sessionId s
  ∧ emitted (sendWithResponse msg rt s).2 = emitted s.
Proof.
  intros c h. unfold sendWithResponse. cbn [fst snd].
  match goal with |- context [sendMessage ?m ?s0] =>
    destruct (sendMessage_core m s0) as (Et & En & Eo & Ep & El & Eh & Es & Ee & _) end.
  rewrite Et, En, Eo, Ep, El, Eh, Es, Ee. done.
Qed.

Lemma Inv_sendWithResponse (msg : ClientMessage) (rt : string) (s : WebSocketService.t) :
  Inv s → Inv (sendWithResponse msg rt s).2.
Proof.
  intros [H1 H2 H3 H4 H5 H6 H7].
  destruct (sendWithResponse_core msg rt s) as (_ & Et & En & Eo & Ep & El & Eh & _).
  set (s' := (sendWithResponse msg rt s).2) in *.
  assert (Hl : ∀ ev cb, cb ∈ listeners ev s' →
            cb ∈ listeners ev s
            ∨ (ev = rt ∧ cb = responseHandler (length (promises s)) rt (nextTimer s))).
  { intros ev cb. unfold listeners at 1. rewrite El.
    destruct (decide (rt = ev)) as [->|Hne].
    - rewrite lookup_insert_eq. simpl. rewrite elem_of_app, list_elem_of_singleton.
      intros [H|H]; [by left|by right].
    - rewrite lookup_insert_ne by done. by left. }
  constructor; rewrite ?Et, ?En, ?Eo, ?Ep, ?Eh, ?length_app; simpl.
  - intros id tm [[<- _]|[_ H]]%lookup_insert_Some; [lia|]. apply H1 in H. lia.
  - intros id tm [[_ <-]|[_ H]]%lookup_insert_Some; [simpl; lia|]. eauto.
  - intros c Hc. apply lookup_app_Some in Hc as [Hc|[Hge Hc]].
    + destruct (H3 c Hc) as (id & d & rt' & Hid). exists id, d, rt'.
      rewrite lookup_insert_ne; [done|]. apply H1 in Hid. lia.
    + apply list_lookup_singleton_Some in Hc as [Hc _].
      assert (c = length (promises s)) as -> by lia.
      eexists _, _, _. by rewrite lookup_insert_eq.
  - intros ev c rt' tid [Hin|[-> [= -> -> ->]]]%Hl.
    + destruct (H4 _ _ _ _ Hin) as (Ha & Hb & Hc & Hd).
      repeat split; [done|lia|lia|].
      intros tm. rewrite lookup_insert_ne by lia. apply Hd.
    + repeat split; [lia|lia|]. intros tm. rewrite lookup_insert_eq. by intros [= <-].
  - intros id tm c rt' [[<- <-]|[_ H]]%lookup_insert_Some; simpl.
    + intros [= <- <-]. split; [lia|done].
    + intros Ht. destruct (H5 _ _ _ _ H Ht). split; [lia|done].
  - intros id tm [[<- <-]|[_ H]]%lookup_insert_Some; simpl; [done|]. eauto.
  - intros id Hid. destruct (H7 id Hid) as [Ha Hb]. split; [lia|].
    intros tm. rewrite lookup_insert_ne by lia. apply Hb.
Qed.

Lemma Inv_sendConnectionRequest (clientId : string) (caps : list string)
    (s : WebSocketService.t) :
  Inv s → Inv (sendConnectionRequest clientId caps s).2.
Proof.
  intros HI. unfold sendConnectionRequest, generateMessageId.
  apply Inv_sendWithResponse. by apply (Inv_core s).
Qed.

Lemma Inv_sendHeartbeatResponse (s : WebSocketService.t) :
  Inv s → Inv (sendHeartbeatResponse s).
Proof.
  intros HI. unfold sendHeartbeatResponse, generateMessageId.
  apply Inv_sendMessage. by apply (Inv_core s).
Qed.

Lemma Inv_sendAudioData (sid : string) (a : Blob) (n : nat) (f : bool)
    (s : WebSocketService.t) :
  Inv s → Inv (sendAudioData sid a n f s).
Proof.
  intros HI. unfold sendAudioData, generateMessageId.
  apply Inv_sendMessage. by apply (Inv_core s).
Qed.

(** ** Timers *)

Lemma Inv_runTimer (id : nat) (s : WebSocketService.t) : Inv s → Inv (runTimer id s).
Proof.
  intros HI. unfold runTimer. destruct (timers s !! id) as [tm|] eqn:Hid; [|done].
  destruct (task tm) as [c rt|] eqn:Htask.
  - destruct (inv_timeout s HI _ _ _ _ Hid Htask) as [Hc Hp]. rewrite Hp.
    set (h := responseHandler c rt id).
    destruct (settle_core c (rejected (Timeout rt)) (off rt (Some h) (clearTimer id s)))
      as (Et & En & Eo & El & Eh & Elen).
    destruct (off_core rt (Some h) (clearTimer id s)) as (Et' & En' & Eo' & Ep' & Eh').
    eapply (Inv_settled s _ c id rt HI); rewrite ?Et, ?En, ?Eo, ?Eh, ?Elen,
      ?Et', ?En', ?Eo', ?Ep', ?Eh'; try done.
    + intros ev' cb. unfold listeners at 1. rewrite El.
      apply (elem_of_listeners_off rt ev' (Some h) cb (clearTimer id s)).
    + intros c' Hc'. apply settle_pending in Hc'; [|done].
      by rewrite Ep' in Hc'.
    + intros tm' Htm'. congruence.
  - destruct (inv_heartbeat s HI _ _ Hid Htask) as [Hh Hp]. rewrite Hp.
    match goal with |- Inv (if _ then sendHeartbeatResponse ?s1 else _) =>
      assert (HI1 : Inv s1) end.
    { destruct HI as [H1 H2 H3 H4 H5 H6 H7]. constructor; simpl.
      - intros id' tm' [[<- _]|[_ H]]%lookup_insert_Some; eauto.
      - intros id' tm' [[<- <-]|[_ H]]%lookup_insert_Some; [|eauto].
        simpl. apply H2 in Hid. lia.
      - intros c Hc. destruct (H3 c Hc) as (id' & d & rt & Hid').
        exists id', d, rt. rewrite lookup_insert_ne; [done|].
        intros <-. rewrite Hid in Hid'. injection Hid' as ->. done.
      - intros ev c rt tid Hin. destruct (H4 _ _ _ _ Hin) as (Ha & Hb & Hc & Hd).
        repeat split; try done.
        intros tm' [[<- <-]|[_ H]]%lookup_insert_Some; [|eauto].
        simpl. rewrite <- Htask. by apply Hd.
      - intros id' tm' c rt [[<- <-]|[_ H]]%lookup_insert_Some; [done|eauto].
      - intros id' tm' [[<- <-]|[_ H]]%lookup_insert_Some; [done|eauto].
      - intros id' Hid'. destruct (H7 id' Hid') as [Ha Hb]. split; [done|].
        intros tm' [[<- <-]|[_ H]]%lookup_insert_Some; [done|eauto]. }
    destruct (isConnected _); [by apply Inv_sendHeartbeatResponse|done].
Qed.

Lemma stopHeartbeat_None (s : WebSocketService.t) :
  heartbeatInterval (stopHeartbeat s) = None.
Proof. unfold stopHeartbeat. by destruct (heartbeatInterval s) eqn:E. Qed.

Lemma Inv_stopHeartbeat (s : WebSocketService.t) : Inv s → Inv (stopHeartbeat s).
Proof.
  intros HI. unfold stopHeartbeat. destruct (heartbeatInterval s) as [id|] eqn:Hh; [|done].
  destruct HI as [H1 H2 H3 H4 H5 H6 H7]. destruct (H7 id Hh) as [Hlt Htick].
  constructor; unfold clearTimer; simpl.
  - intros id' tm [_ H]%lookup_delete_Some. eauto.
  - intros id' tm [_ H]%lookup_delete_Some. eauto.
  - intros c Hc. destruct (H3 c Hc) as (id' & d & rt & Hid').
    exists id', d, rt. rewrite lookup_delete_ne; [done|].
    intros <-. by apply Htick in Hid'.
  - intros ev c rt tid Hin. destruct (H4 _ _ _ _ Hin) as (Ha & Hb & Hc & Hd).
    repeat split; try done. intros tm [_ H]%lookup_delete_Some. eauto.
  - intros id' tm c rt [_ H]%lookup_delete_Some. eauto.
  - intros id' tm [Hne H]%lookup_delete_Some Ht.
    destruct (H6 _ _ H Ht) as [E _]. congruence.
  - done.
Qed.

Lemma Inv_startHeartbeat (s : WebSocketService.t) : Inv s → Inv (startHeartbeat s).
Proof.
  intros HI. apply Inv_stopHeartbeat in HI. unfold startHeartbeat.
  pose proof (stopHeartbeat_None s) as Hnone.
  generalize dependent (stopHeartbeat s). intros s1 [H1 H2 H3 H4 H5 H6 H7] Hnone.
  constructor; simpl.
  - intros id tm [[<- _]|[_ H]]%lookup_insert_Some; [lia|]. apply H1 in H. lia.
  - intros id tm [[_ <-]|[_ H]]%lookup_insert_Some; [simpl; lia|eauto].
  - intros c Hc. destruct (H3 c Hc) as (id & d & rt & Hid).
    exists id, d, rt. rewrite lookup_insert_ne; [done|]. apply H1 in Hid. lia.
  - intros ev c rt tid Hin. destruct (H4 _ _ _ _ Hin) as (Ha & Hb & Hc & Hd).
    repeat split; [done|done|lia|].
    intros tm. rewrite lookup_insert_ne by lia. apply Hd.
  - intros id tm c rt [[<- <-]|[_ H]]%lookup_insert_Some; [done|eauto].
  - intros id tm [[<- <-]|[_ H]]%lookup_insert_Some; [done|].
    intros Ht. destruct (H6 _ _ H Ht). congruence.
  - intros id [= <-]. split; [lia|].
    intros tm. rewrite lookup_insert_eq. by intros [= <-].
Qed.

(** ** Connection and socket events *)

Lemma Inv_connect (io : option (nat → bool)) (s : WebSocketService.t) :
  Inv s → Inv (connect io s).
Proof.
  intros HI. unfold connect. destruct (isConnected s || isConnecting s); [done|].
  destruct io; by apply (Inv_core s).
Qed.

Lemma Inv_onDisconnect (reason : string) (s : WebSocketService.t) :
  Inv s → Inv (onDisconnect reason s).
Proof.
  intros HI. unfold onDisconnect. apply Inv_emit.
  apply Inv_stopHeartbeat in HI. by apply (Inv_core (stopHeartbeat s)).
Qed.

Lemma Inv_disconnect (notify : option string) (s : WebSocketService.t) :
  Inv s → Inv (disconnect notify s).
Proof.
  intros HI. unfold disconnect. destruct (socket s) as [k|]; [|done].
  apply Inv_stopHeartbeat in HI.
  match goal with |- Inv (set_sessionId None (set_socket None ?s3)) =>
    assert (H3 : Inv s3) end.
  { destruct notify as [r|].
    - apply Inv_onDisconnect. by apply (Inv_core (stopHeartbeat s)).
    - by apply (Inv_core (stopHeartbeat s)). }
  revert H3. apply Inv_core; done.
Qed.

Lemma Inv_onSocket (fuel : nat) (e : SocketEvent) (s s' : WebSocketService.t) :
  onSocket fuel e s = Some s' → Inv s → Inv s'.
Proof.
  unfold onSocket. destruct (socket s) as [k|] eqn:Hk; [|by intros [= <-]].
  destruct e as [| |reason|name m|n|n|name].
  - intros [= <-] HI. apply Inv_set_socket, Inv_startHeartbeat.
    by apply (Inv_core s).
  - intros [= <-]. by apply Inv_core.
  - intros [= <-] HI. apply Inv_onDisconnect. by apply (Inv_core s).
  - case_bool_decide; intros [= <-]; [apply Inv_handleMessage | done].
  - intros [= <-]. apply Inv_emit.
  - destruct (flushMessageQueue fuel s) as [s1|] eqn:Hf; [|done].
    simpl. intros [= <-] HI. apply Inv_emit.
    apply flushMessageQueue_core in Hf as (?&?&?&?&?&?&_).
    by apply (Inv_core s).
  - by intros [= <-].
Qed.

Lemma Inv_exec (fuel : nat) (l : Label) (s s' : WebSocketService.t) :
  exec fuel l s = Some s' → Inv s → Inv s'.
Proof.
  destruct l as [io|notify|m|sid a n f|c caps|ev n|ev n|sid|e|id|t]; simpl.
  - intros [= <-]. apply Inv_connect.
  - intros [= <-]. apply Inv_disconnect.
  - intros [= <-]. apply Inv_sendMessage.
  - intros [= <-]. apply Inv_sendAudioData.
  - intros [= <-]. apply Inv_sendConnectionRequest.
  - intros [= <-]. apply Inv_on_listener.
  - intros [= <-]. apply Inv_off.
  - intros [= <-]. apply Inv_setSessionId.
  - apply Inv_onSocket.
  - destruct (timers s !! id) as [tm|]; [|done].
    case_bool_decide; [|done]. intros [= <-]. apply Inv_runTimer.
  - case_bool_decide as Hd; [|done]. intros [= <-] [H1 H2 H3 H4 H5 H6 H7].
    destruct Hd as [_ Hall]. constructor; simpl; done.
Qed.

Lemma Inv_run (s s' : WebSocketService.t) (ls : list Label) :
  run s ls s' → Inv s → Inv s'.
Proof.
  induction 1 as [|s l s1 ls s2 [fuel Hstep] _ IH]; [done|].
  intros HI. apply IH. by eapply Inv_exec.
Qed.

Lemma Inv_reachable (s : WebSocketService.t) : reachable s → Inv s.
Proof. intros [ls Hrun]. eapply Inv_run; [done | apply Inv_init]. Qed.

Lemma run_app (s1 s2 s3 : WebSocketService.t) (ls ls' : list Label) :
  run s1 ls s2 → run s2 ls' s3 → run s1 (ls ++ ls') s3.
Proof.
  induction 1 as [|s l s1 ls s2 Hstep _ IH]; [done|].
  intros H. simpl. econstructor; [done|]. by apply IH.
Qed.

Lemma reachable_run (s s' : WebSocketService.t) (ls : list Label) :
  reachable s → run s ls s' → reachable s'.
Proof. intros [ls0 H0] H. exists (ls0 ++ ls). by eapply run_app. Qed.

Lemma execs_run (fuel : nat) (ls : list Label) : ∀ s s' : WebSocketService.t,
  execs fuel ls s = Some s' → run s ls s'.
Proof.
  induction ls as [|l ls IH]; intros s s'; simpl.
  - intros [= <-]. constructor.
  - destruct (exec fuel l s) as [s1|] eqn:H1; [|done]. simpl.
    intros H. econstructor; [by exists fuel|]. by apply IH.
Qed.

End Invariant.

(* ===================================================================== *)
(** * How calls with a response evolve along a run *)
(* ===================================================================== *)

Section Calls.

Import WebSocketService.

#[local] Arguments off : simpl never.
#[local] Arguments on : simpl never.
#[local] Arguments settle : simpl never.
#[local] Arguments clearTimer : simpl never.
#[local] Arguments emit : simpl never.
#[local] Arguments sendMessage : simpl never.
#[local] Arguments startHeartbeat : simpl never.
#[local] Arguments stopHeartbeat : simpl never.



(** Steps that touch neither timers, promises nor listeners. *)
Lemma advances_same (via : option ServerMessage) (s s' : WebSocketService.t) :
  timers s' = timers s → promises s' = promises s →
  eventListeners s' = eventListeners s → advances via s s'.
Proof.
  intros Et Ep El. constructor; unfold listeners; rewrite ?Et, ?Ep, ?El; unchanged.
Qed.

Lemma advances_same_service (via : option ServerMessage) (s s' : WebSocketService.t) :
  same_service s s' → advances via s s'.
Proof. intros (_ & ? & ? & ?). by apply advances_same. Qed.

















Lemma sendConnectionRequest_unfold (clientId : string) (caps : list string)
    (s : WebSocketService.t) :
  sendConnectionRequest clientId caps s
  = sendWithResponse {| cm_type := "connection_request"; cm_timestamp := now s;
                        cm_data := connection_request_data clientId caps;
                        cm_message_id := (now s, draws s) |}
      "connection_response" (set_draws (S (draws s)) s).
Proof. reflexivity. Qed.


End Calls.

(* ===================================================================== *)
(** * Calls with a response: timeout and resolution *)
(* ===================================================================== *)

Section Await.

Import WebSocketService.

#[local] Arguments off : simpl never.
#[local] Arguments on : simpl never.
#[local] Arguments settle : simpl never.
#[local] Arguments clearTimer : simpl never.
#[local] Arguments emit : simpl never.
#[local] Arguments sendMessage : simpl never.
#[local] Arguments startHeartbeat : simpl never.
#[local] Arguments stopHeartbeat : simpl never.




(** When the timeout of a pending call runs, the call fails with
    [Timeout]. *)
Lemma runTimer_rejects (c : nat) (rt : string) (tid : nat) (deadline : Z)
    (s : WebSocketService.t) :
  timers s !! tid = Some (timeoutTimer c rt deadline) →
  promises s !! c = Some pending →
  promises (runTimer tid s) !! c = Some (rejected (Timeout rt))
  ∧ timers (runTimer tid s) !! tid = None.
Proof.
  intros Ht Hp. unfold runTimer. rewrite Ht. simpl.
  set (h := responseHandler c rt tid).
  destruct (settle_core c (rejected (Timeout rt)) (off rt (Some h) (clearTimer tid s)))
    as (Et & _).
  destruct (off_core rt (Some h) (clearTimer tid s)) as (Et' & _ & _ & Ep' & _).
  split.
  - apply settle_hit. by rewrite Ep'.
  - rewrite Et, Et'. unfold clearTimer. simpl. apply lookup_delete_eq.
Qed.

(** ** A response arrives *)

Lemma indexOf_middle (h : Callback) (l1 l2 : list Callback) :
  h ∉ l1 → indexOf h (l1 ++ h :: l2) = Some (length l1).
Proof.
  induction l1 as [|x l1 IH]; intros Hnot; simpl.
  - by rewrite decide_True.
  - apply not_elem_of_cons in Hnot as [Hne Hnot].
    rewrite decide_False by done. by rewrite IH.
Qed.


Lemma emit_forEach (event : string) (data : Payload) (l : list Callback)
    (s : WebSocketService.t) :
  eventListeners s !! event = Some l →
  emit event data s
  = forEach event data 0 (length l) (set_emitted (emitted s ++ [(event, data)]) s).
Proof. intros Hl. unfold emit. simpl. by rewrite Hl. Qed.






(** ** A call that waits alone *)

Lemma indexOf_absent (cb : Callback) (l : list Callback) :
  cb ∉ l → indexOf cb l = None.
Proof.
  induction l as [|c l IH]; [done|]. intros H.
  apply not_elem_of_cons in H as [Hne H]. simpl.
  rewrite decide_False by done. by rewrite IH.
Qed.

Lemma off_middle (event : string) (cb : Callback) (s : WebSocketService.t)
    (l1 l2 : list Callback) :
  eventListeners s !! event = Some (l1 ++ cb :: l2) → cb ∉ l1 →
  off event (Some cb) s
  = set_eventListeners (<[event := l1 ++ l2]> (eventListeners s)) s.
Proof.
  intros Hl Hcb. unfold off. rewrite Hl, indexOf_middle by done.
  by rewrite delete_middle.
Qed.

Lemma off_absent (event : string) (cb : Callback) (s : WebSocketService.t) :
  cb ∉ listeners event s → off event (Some cb) s = s.
Proof.
  intros Hcb. unfold off, listeners in *.
  destruct (eventListeners s !! event) as [l|]; [|done].
  simpl in Hcb. by rewrite indexOf_absent.
Qed.

Lemma off_clearTimer (ev : string) (cb : option Callback) (tid : nat)
    (s : WebSocketService.t) :
  eventListeners (off ev cb (clearTimer tid s)) = eventListeners (off ev cb s).
Proof.
  unfold off, clearTimer. destruct cb as [cb|]; [|done]. simpl.
  destruct (eventListeners s !! ev) as [l|]; [|done]. by destruct (indexOf cb l).
Qed.

Section Alone.

Variables (c : nat) (rt : string) (tid : nat).




Lemma is_listener_handler (l : list Callback) (c' : nat) (rt' : string) (tid' : nat) :
  Forall is_listener l → responseHandler c' rt' tid' ∉ l.
Proof.
  intros Hl Hin. rewrite Forall_forall in Hl. by apply Hl in Hin.
Qed.













End Alone.








End Await.

(* ===================================================================== *)
(** * Connection: session id, disconnect, heartbeat, reconnection *)
(* ===================================================================== *)

Section Connection.

Import WebSocketService.

#[local] Arguments off : simpl never.
#[local] Arguments on : simpl never.
#[local] Arguments settle : simpl never.
#[local] Arguments clearTimer : simpl never.
#[local] Arguments emit : simpl never.
#[local] Arguments sendMessage : simpl never.
#[local] Arguments startHeartbeat : simpl never.
#[local] Arguments stopHeartbeat : simpl never.

Lemma keeps_link_refl (s : WebSocketService.t) : keeps_link s s.
Proof. by repeat split. Qed.

Lemma keeps_link_trans (s1 s2 s3 : WebSocketService.t) :
  keeps_link s1 s2 → keeps_link s2 s3 → keeps_link s1 s3.
Proof.
  intros (A1 & A2 & A3) (B1 & B2 & B3). split; [congruence|].
  split; [congruence|]. by rewrite B3.
Qed.

Lemma same_connection_keeps (s s' : WebSocketService.t) :
  same_connection s s' → keeps_link s s'.
Proof.
  intros (Es & _ & _ & _ & _ & Ei & _). unfold keeps_link, isConnected.
  by rewrite Es, Ei.
Qed.

Lemma sendMessage_keeps (m : ClientMessage) (s : WebSocketService.t) :
  keeps_link s (sendMessage m s).
Proof.
  destruct (sendMessage_core m s) as (_&_&_&_&_&_&Ei&_&Ec).
  split; [done|]. split; [done|].
  unfold sendMessage. destruct (socket s) as [k|] eqn:Hk; [|by simpl; rewrite Hk].
  destruct (connected k); [|by simpl; rewrite Hk].
  unfold socket_emit. by destruct (throws k (emits k)).
Qed.

Lemma sendHeartbeatResponse_keeps (s : WebSocketService.t) :
  keeps_link s (sendHeartbeatResponse s).
Proof.
  unfold sendHeartbeatResponse, generateMessageId.
  eapply (keeps_link_trans _ (set_draws (S (draws s)) s)); [by repeat split|].
  apply sendMessage_keeps.
Qed.

(** No timer touches the connection: neither the heartbeat nor a timeout
    disconnects, reconnects or clears the session. *)
Lemma runTimer_keeps (id : nat) (s : WebSocketService.t) :
  keeps_link s (runTimer id s).
Proof.
  unfold runTimer. destruct (timers s !! id) as [tm|]; [|apply keeps_link_refl].
  match goal with |- context [task tm] =>
    match goal with |- context [off _ _ ?s1] =>
      assert (H1 : keeps_link s s1) by (destruct (period tm); by repeat split);
      generalize dependent s1 end end.
  intros s1 H1. destruct (task tm) as [c rt|].
  - eapply keeps_link_trans; [exact H1|]. apply same_connection_keeps.
    eapply same_connection_trans; [apply off_same_connection|apply settle_same_connection].
  - destruct (isConnected s1); [|done].
    eapply keeps_link_trans; [exact H1|apply sendHeartbeatResponse_keeps].
Qed.

(** ** Inbound messages *)

(** The session id a server message carries for the service: that of a
    'connection_response' with a non-empty [data.session_id]. *)
Lemma handleMessage_session (m : ServerMessage) (s : WebSocketService.t) :
  (sessionId (handleMessage m s) = sessionId s
   ∨ ∃ d sid, sm_type m = "connection_response" ∧ sm_data m = Some d
              ∧ sd_session_id d = Some sid ∧ sid ≠ EmptyString
              ∧ sessionId (handleMessage m s) = Some sid)
  ∧ isConnected (handleMessage m s) = isConnected s
  ∧ (socket (handleMessage m s) = None ↔ socket s = None)
  ∧ emitted (handleMessage m s)
    = emitted s ++ notifications (ev_inbound "message" m).
Proof.
  unfold handleMessage, notifications.
  rewrite bool_decide_true by (by constructor).
  match goal with |- context [emit (sm_type m) _ ?s1] =>
    assert (H1 : (sessionId s1 = sessionId s
                  ∨ ∃ d sid, sm_type m = "connection_response" ∧ sm_data m = Some d
                             ∧ sd_session_id d = Some sid ∧ sid ≠ EmptyString
                             ∧ sessionId s1 = Some sid)
                 ∧ socket s1 = socket s
                 ∧ emitted s1
                   = emitted s
                     ++ (if decide (sm_type m = "connection_response") then
                           match sm_data m ≫= sd_session_id with
                           | Some sid => if decide (sid = EmptyString) then []
                                         else [("session_id_changed", with_sessionId sid)]
                           | None => []
                           end
                         else []));
    [|generalize dependent s1] end.
  { destruct (decide (sm_type m = "connection_response")) as [Ht|];
      [|by rewrite app_nil_r; auto].
    destruct (sm_data m) as [d|] eqn:Hd; simpl; [|by rewrite app_nil_r; auto].
    destruct (sd_session_id d) as [sid|] eqn:Hsid; simpl; [|by rewrite app_nil_r; auto].
    destruct (decide (sid = EmptyString)); [by rewrite app_nil_r; auto|].
    unfold setSessionId.
    match goal with |- context [emit ?e ?p ?s0] =>
      destruct (emit_same_connection e p s0) as (Es & _ & _ & _ & _ & Ei & _);
      rewrite Es, Ei, emit_emitted end.
    split; [right; by exists d, sid|done]. }
  intros s1 (Hsid & Es1 & Ee1).
  destruct (emit_same_connection (sm_type m) (from_server m) s1)
    as (Es2 & _ & _ & _ & _ & Ei2 & _).
  destruct (emit_same_connection "message" (from_server m)
              (emit (sm_type m) (from_server m) s1)) as (Es3 & _ & _ & _ & _ & Ei3 & _).
  unfold isConnected. rewrite !emit_emitted, Es3, Es2, Es1, Ei3, Ei2, Ee1.
  split; [|by rewrite <- !app_assoc].
  destruct Hsid as [->|(d & sid & ? & ? & ? & ? & ->)]; [by left|].
  right. by exists d, sid.
Qed.

(** ** Steps and the connection *)

Lemma stopHeartbeat_keeps (s : WebSocketService.t) : keeps_link s (stopHeartbeat s).
Proof. unfold stopHeartbeat. by destruct (heartbeatInterval s). Qed.

Lemma startHeartbeat_keeps (s : WebSocketService.t) : keeps_link s (startHeartbeat s).
Proof. unfold startHeartbeat, stopHeartbeat. by destruct (heartbeatInterval s). Qed.

Lemma flushMessageQueue_keeps (fuel : nat) : ∀ s s' : WebSocketService.t,
  flushMessageQueue fuel s = Some s' → keeps_link s s'.
Proof.
  induction fuel as [|fuel IH]; intros s s'; simpl.
  - destruct (messageQueue s); [by intros [= <-]|].
    destruct (isConnected s); [done|by intros [= <-]].
  - destruct (messageQueue s) as [|m q]; [by intros [= <-]|].
    destruct (isConnected s); [|by intros [= <-]].
    intros H. apply IH in H. eapply keeps_link_trans; [|exact H].
    eapply (keeps_link_trans _ (set_messageQueue q s)); [by repeat split|].
    apply sendMessage_keeps.
Qed.

(** The session id changes only when it is cleared, when the application
    calls [setSessionId], or when a 'connection_response' carrying a
    session id is handled. *)
Lemma exec_sessionId (fuel : nat) (l : Label) (s s' : WebSocketService.t) :
  exec fuel l s = Some s' →
  sessionId s' = sessionId s
  ∨ sessionId s' = None
  ∨ ∃ sid, sessionId s' = Some sid
           ∧ (l = call_setSessionId sid
              ∨ ∃ m d, delivers l = Some m ∧ sm_type m = "connection_response"
                       ∧ sm_data m = Some d ∧ sd_session_id d = Some sid).
Proof.
  destruct l as [io|notify|m|sid a n f|c caps|ev n|ev n|sid|e|id|t]; cbn [exec delivers].
  - intros [= <-]. left. unfold connect.
    destruct (isConnected s || isConnecting s); [done|]. by destruct io.
  - intros [= <-]. unfold disconnect. destruct (socket s); [|by left]. by right; left.
  - intros [= <-]. left. apply sendMessage_keeps.
  - intros [= <-]. left. unfold sendAudioData, generateMessageId.
    match goal with |- context [sendMessage ?m ?s0] =>
      by destruct (sendMessage_keeps m s0) as [-> _] end.
  - intros H. apply (inj Some) in H. subst s'. left.
    destruct (sendWithResponse_core
                {| cm_type := "connection_request"; cm_timestamp := now s;
                   cm_data := connection_request_data c caps;
                   cm_message_id := (now s, draws s) |}
                "connection_response" (set_draws (S (draws s)) s))
      as (_&_&_&_&_&_&_&Ei&_).
    rewrite sendConnectionRequest_unfold. by rewrite Ei.
  - intros [= <-]. by left.
  - intros [= <-]. left. by destruct (off_same_connection ev (listener <$> n) s)
      as (_&_&_&_&_&?&_).
  - intros [= <-]. right; right. exists sid. split; [|by left].
    unfold setSessionId.
    match goal with |- context [emit ?e ?p ?s0] =>
      by destruct (emit_same_connection e p s0) as (_&_&_&_&_&->&_) end.
  - unfold onSocket. destruct (socket s) as [k|] eqn:Hk; [|by intros [= <-]; left].
    destruct e as [| |reason|name m|n|n|name].
    + intros [= <-]. left.
      match goal with |- context [startHeartbeat ?s0] =>
        destruct (startHeartbeat_keeps s0) as [E _];
        generalize dependent (startHeartbeat s0) end.
      intros sX E. simpl. by rewrite E.
    + intros [= <-]. by left.
    + intros [= <-]. right; left. unfold onDisconnect.
      match goal with |- context [emit ?e ?p ?s0] =>
        by destruct (emit_same_connection e p s0) as (_&_&_&_&_&->&_) end.
    + case_bool_decide; intros [= <-]; [|by left].
      destruct (handleMessage_session m s) as ([Hs|(d & sid & ? & ? & ? & ? & Hs)] & _).
      * by left.
      * right; right. exists sid. split; [done|]. right. by exists m, d.
    + intros [= <-]. left.
      match goal with |- context [emit ?e ?p ?s0] =>
        by destruct (emit_same_connection e p s0) as (_&_&_&_&_&->&_) end.
    + destruct (flushMessageQueue fuel s) as [s1|] eqn:Hf; [|done].
      simpl. intros [= <-]. left.
      apply flushMessageQueue_keeps in Hf as [E _].
      match goal with |- context [emit ?e ?p ?s0] =>
        destruct (emit_same_connection e p s0) as (_&_&_&_&_&->&_) end. done.
    + intros [= <-]. by left.
  - destruct (timers s !! id) as [tm|]; [|done].
    case_bool_decide; [|done]. intros [= <-]. left. apply runTimer_keeps.
  - case_bool_decide; [|done]. intros [= <-]. by left.
Qed.


(** ** The session id *)

Lemma handleMessage_sets_session (m : ServerMessage) (d : ServerData) (sid : string)
    (s : WebSocketService.t) :
  sm_type m = "connection_response" → sm_data m = Some d →
  sd_session_id d = Some sid → sid ≠ EmptyString →
  sessionId (handleMessage m s) = Some sid.
Proof.
  intros Ht Hd Hs Hne. unfold handleMessage.
  rewrite decide_True, Hd, Hs, decide_False by done. unfold setSessionId.
  repeat match goal with |- context [emit ?e ?p ?s0] =>
    destruct (emit_same_connection e p s0) as (_&_&_&_&_&->&_) end.
  done.
Qed.

Lemma onDisconnect_clears (reason : string) (s : WebSocketService.t) :
  sessionId (onDisconnect reason s) = None
  ∧ heartbeatInterval (onDisconnect reason s) = None
  ∧ socket (onDisconnect reason s) = socket s
  ∧ messageQueue (onDisconnect reason s) = messageQueue s
  ∧ promises (onDisconnect reason s) = promises s
  ∧ emitted (onDisconnect reason s) = emitted s ++ [("disconnect", with_reason reason)].
Proof.
  unfold onDisconnect.
  match goal with |- context [emit ?e ?p ?s0] =>
    destruct (emit_notice e p s0) as ((Es&_&Eh&_&Eq&Ei&_) & _ & _ & Ep); [done|];
    rewrite Es, Eh, Eq, Ei, Ep, emit_emitted end.
  simpl. rewrite stopHeartbeat_None.
  by destruct (stopHeartbeat_wire s) as (-> & -> & _ & -> & _ & ->).
Qed.

Lemma disconnect_frame (notify : option string) (s : WebSocketService.t) :
  messageQueue (disconnect notify s) = messageQueue s
  ∧ promises (disconnect notify s) = promises s
  ∧ (is_Some (socket s) →
     sessionId (disconnect notify s) = None
     ∧ heartbeatInterval (disconnect notify s) = None
     ∧ socket (disconnect notify s) = None).
Proof.
  unfold disconnect. destruct (socket s) as [k|] eqn:Hk.
  2:{ split; [done|]. split; [done|]. by intros [? [=]]. }
  destruct notify as [r|]; simpl.
  - match goal with |- context [onDisconnect r ?s0] =>
      destruct (onDisconnect_clears r s0) as (_ & Eh & _ & Eq & Ep & _) end.
    rewrite Eq, Ep, Eh. simpl.
    by destruct (stopHeartbeat_wire s) as (_ & -> & _ & -> & _).
  - rewrite stopHeartbeat_None.
    by destruct (stopHeartbeat_wire s) as (_ & -> & _ & -> & _).
Qed.

(** C5.  The stored session id is cleared by [disconnect()] and by the
    socket's 'disconnect' event alike; once cleared it stays absent until a
    'connection_response' carrying a session id is handled (or the
    application sets one), and such a response installs the id it
    carries. *)
Theorem C5_session_cleared_and_renegotiated
    (s : WebSocketService.t) (notify : option string) (reason : string) (fuel : nat) :
  is_Some (socket s) →
  sessionId (disconnect notify s) = None
  ∧ (∃ s', exec fuel (socket_says (ev_disconnect reason)) s = Some s'
           ∧ sessionId s' = None)
  ∧ (∀ l s1 s2, step s1 l s2 → sessionId s1 = None →
       ∀ sid, sessionId s2 = Some sid →
       l = call_setSessionId sid
       ∨ ∃ m d, delivers l = Some m ∧ sm_type m = "connection_response"
                ∧ sm_data m = Some d ∧ sd_session_id d = Some sid)
  ∧ (∀ s1 name rest sid,
       is_Some (socket s1) → name ∈ inboundEvents → sid ≠ EmptyString →
       ∃ s2, exec fuel
               (socket_says
                  (ev_inbound name
                     {| sm_type := "connection_response";
                        sm_data := Some {| sd_session_id := Some sid;
                                           sd_rest := rest |} |})) s1 = Some s2
             ∧ sessionId s2 = Some sid).
Proof.
  intros Hsock. split; [|split; [|split]].
  - by destruct (disconnect_frame notify s) as (_ & _ & H); destruct (H Hsock).
  - destruct Hsock as [k Hk]. eexists. split.
    + cbn [exec]. unfold onSocket. rewrite Hk. reflexivity.
    + by destruct (onDisconnect_clears reason
                     (set_socket (Some (set_connected false k)) s)).
  - intros l s1 s2 [fuel' Hstep] Hnone sid Hsid.
    destruct (exec_sessionId _ _ _ _ Hstep) as [E|[E|(sid' & E & H)]];
      [congruence | congruence |].
    rewrite Hsid in E. by injection E as ->.
  - intros s1 name rest sid [k Hk] Hname Hne. eexists. split.
    + cbn [exec]. unfold onSocket. rewrite Hk. by rewrite bool_decide_true.
    + by eapply handleMessage_sets_session.
Qed.

(** C5 on the scenario of the specification: a handshake yields "s1", the
    transport drops, and the next handshake yields "s2". *)
Lemma C5_session_cleared_and_renegotiated_witness :
  let hello sid := socket_says
                     (ev_inbound "connection_response"
                        {| sm_type := "connection_response";
                           sm_data := Some {| sd_session_id := Some sid;
                                              sd_rest := "{}" |} |}) in
  ∃ s, execs 0 [call_connect (Some (λ _, false)); socket_says ev_connect; hello "s1"]
         WebSocketService.init = Some s
       ∧ sessionId s = Some "s1"
       ∧ sessionId (disconnect None s) = None
       ∧ ∃ s', exec 0 (socket_says (ev_disconnect "transport close")) s = Some s'
               ∧ sessionId s' = None.
Proof.
  intros hello. eexists. split; [vm_compute; reflexivity|].
  split; [vm_compute; reflexivity|].
  match goal with |- sessionId (disconnect None ?s) = None ∧ _ =>
    destruct (C5_session_cleared_and_renegotiated s None "transport close" 0)
      as (H1 & H2 & _) end.
  - vm_compute. eauto.
  - split; [exact H1|exact H2].
Defined.

(** ** Deliberate disconnect *)

(** C8 (as stated, refuted).  A call is pending when [disconnect()] is
    called: it is still pending afterwards. *)
Lemma C8_disconnect_leaves_the_call_pending :
  promises <$> execs 0 [call_connect (Some (λ _, false));
                        socket_says ev_connect;
                        call_sendConnectionRequest "app" [];
                        call_disconnect (Some "io client disconnect")]
                 WebSocketService.init
  = Some [pending].
Proof. vm_compute. reflexivity. Qed.

(** C8 (amended).  [disconnect()] leaves the outbound queue as it is and
    does not touch the pending calls: each stays pending with its own
    timeout armed, and fails only when that timeout runs. *)
Theorem C8_disconnect_keeps_queue_and_calls
    (s : WebSocketService.t) (notify : option string) :
  reachable s →
  messageQueue (disconnect notify s) = messageQueue s
  ∧ promises (disconnect notify s) = promises s
  ∧ ∀ c, promises s !! c = Some pending →
      ∃ id d rt,
        timers (disconnect notify s) !! id = Some (timeoutTimer c rt d)
        ∧ promises (runTimer id (disconnect notify s)) !! c
          = Some (rejected (Timeout rt)).
Proof.
  intros Hreach. apply Inv_reachable in Hreach.
  destruct (disconnect_frame notify s) as (Eq & Ep & _).
  split; [done|]. split; [done|].
  intros c Hc. apply (Inv_disconnect notify) in Hreach.
  rewrite <- Ep in Hc.
  destruct (inv_armed _ Hreach c Hc) as (id & d & rt & Hid).
  exists id, d, rt. split; [done|].
  by apply (runTimer_rejects c rt id d).
Qed.

(** The amended C8 with one message queued and one call pending. *)
Lemma C8_disconnect_keeps_queue_and_calls_witness :
  ∃ s, execs 0 [call_sendMessage {| cm_type := "audio_data"; cm_timestamp := 0;
                                    cm_data := other_data "{}";
                                    cm_message_id := (0, 0%nat) |};
                call_connect (Some (λ _, false)); socket_says ev_connect;
                call_sendConnectionRequest "app" []]
         WebSocketService.init = Some s
       ∧ length (messageQueue (disconnect None s)) = 1%nat
       ∧ promises (disconnect None s) = [pending].
Proof.
  eexists. split; [vm_compute; reflexivity|].
  match goal with |- length (messageQueue (disconnect None ?s)) = _ ∧ _ =>
    destruct (C8_disconnect_keeps_queue_and_calls s None) as (H1 & H2 & _) end.
  - exists [call_sendMessage {| cm_type := "audio_data"; cm_timestamp := 0;
                                cm_data := other_data "{}";
                                cm_message_id := (0, 0%nat) |};
            call_connect (Some (λ _, false)); socket_says ev_connect;
            call_sendConnectionRequest "app" []].
    apply (execs_run 0). vm_compute. reflexivity.
  - rewrite H1, H2. split; reflexivity.
Defined.

(** ** Heartbeat *)





(** ** Reconnection *)

(** C4 (as stated, refuted).  The first connection attempt and five
    reconnection attempts fail, and the socket gives up
    ('reconnect_failed').  The service has passed on the five
    'reconnect_attempt' notices and nothing else: no event was emitted
    exactly once, so none is the one terminal failure event.  The promise
    of [connect()] had failed at the first error already. *)
Lemma C4_no_terminal_failure_event :
  let refused n := [socket_says (ev_reconnect_attempt n); socket_says ev_connect_error] in
  ∃ s, execs 0 (call_connect (Some (λ _, false)) :: socket_says ev_connect_error
                  :: refused 1%nat ++ refused 2%nat ++ refused 3%nat
                  ++ refused 4%nat ++ refused 5%nat
                  ++ [socket_says (ev_other "reconnect_failed")])
         WebSocketService.init = Some s
       ∧ emitted s = [("reconnect_attempt", with_attempt 1);
                      ("reconnect_attempt", with_attempt 2);
                      ("reconnect_attempt", with_attempt 3);
                      ("reconnect_attempt", with_attempt 4);
                      ("reconnect_attempt", with_attempt 5)]
       ∧ (∀ event, length (filter (λ e, e.1 = event) (emitted s)) ≠ 1%nat)
       ∧ result <$> socket s = Some failed.
Proof.
  intros refused. eexists. split; [vm_compute; reflexivity|].
  split; [reflexivity|]. split; [|reflexivity].
  intros event. cbn [emitted].
  rewrite !filter_cons, filter_nil. cbn [fst].
  destruct (decide ("reconnect_attempt" = event)); simpl; lia.
Qed.

Lemma notifications_inbound (name : string) (m : ServerMessage) :
  name ∈ inboundEvents →
  notifications (ev_inbound name m) = notifications (ev_inbound "message" m).
Proof.
  intros H. unfold notifications. rewrite !bool_decide_true; [done| |done].
  by constructor.
Qed.

(** What the handlers of the socket pass on to the listeners, and what
    they do to the attempt counter. *)
Lemma onSocket_emitted (fuel : nat) (e : SocketEvent) (s1 s2 : WebSocketService.t) :
  is_Some (socket s1) → onSocket fuel e s1 = Some s2 →
  emitted s2 = emitted s1 ++ notifications e
  ∧ (reconnectAttempts s2 = reconnectAttempts s1 ∨ reconnectAttempts s2 = 0%nat).
Proof.
  intros [k Hk]. unfold onSocket. rewrite Hk.
  destruct e as [| |reason|name m|n|n|name].
  - intros H. apply (inj Some) in H. subst s2.
    match goal with |- context [startHeartbeat ?s0] =>
      destruct (startHeartbeat_wire s0) as (_&_&_&_&_&Ee);
      assert (Er : reconnectAttempts (startHeartbeat s0) = 0%nat)
        by (unfold startHeartbeat, stopHeartbeat; by destruct (heartbeatInterval s0));
      generalize dependent (startHeartbeat s0) end.
    intros sX Ee Er. simpl. rewrite Ee, Er, app_nil_r. auto.
  - intros [= <-]. simpl. rewrite app_nil_r. auto.
  - intros H. apply (inj Some) in H. subst s2.
    match goal with |- context [onDisconnect reason ?s0] =>
      destruct (onDisconnect_clears reason s0) as (_&_&_&_&_&Ee);
      assert (Er : reconnectAttempts (onDisconnect reason s0) = reconnectAttempts s1);
      [|rewrite Ee, Er; auto] end.
    unfold onDisconnect.
    match goal with |- context [emit ?ev ?p ?s0] =>
      destruct (emit_same_connection ev p s0) as (_&->&_) end.
    unfold stopHeartbeat. simpl. by destruct (heartbeatInterval s1).
  - case_bool_decide as Hname; intros H; apply (inj Some) in H; subst s2.
    + rewrite notifications_inbound by done.
      destruct (handleMessage_session m s1) as (_ & _ & _ & ->).
      split; [done|]. left. unfold handleMessage.
      repeat match goal with |- context [emit ?ev ?p ?s0] =>
        destruct (emit_same_connection ev p s0) as (_&->&_) end.
      repeat (match goal with |- context [match ?x with _ => _ end] => destruct x end;
              try done).
      unfold setSessionId.
      match goal with |- context [emit ?ev ?p ?s0] =>
        by destruct (emit_same_connection ev p s0) as (_&->&_) end.
    + unfold notifications. rewrite bool_decide_false by done.
      rewrite app_nil_r. auto.
  - intros H. apply (inj Some) in H. subst s2. rewrite emit_emitted.
    split; [done|]. left.
    by destruct (emit_same_connection "reconnect_attempt" (with_attempt n) s1)
      as (_&->&_).
  - destruct (flushMessageQueue fuel s1) as [s3|] eqn:Hf; [|done].
    simpl. intros H. apply (inj Some) in H. subst s2. rewrite emit_emitted.
    pose proof (flushMessageQueue_core _ _ _ Hf) as (_&_&_&_&_&_&_&->&_).
    split; [done|]. left.
    destruct (emit_same_connection "reconnect" (with_attempts n) s3) as (_&->&_).
    clear -Hf. revert s1 Hf. induction fuel as [|fuel IH]; intros s1; simpl.
    + destruct (messageQueue s1); [by intros [= <-]|].
      destruct (isConnected s1); [done|by intros [= <-]].
    + destruct (messageQueue s1) as [|m q]; [by intros [= <-]|].
      destruct (isConnected s1); [|by intros [= <-]].
      intros H. apply IH in H. rewrite H. unfold sendMessage. simpl.
      destruct (socket s1) as [k|]; [|done].
      destruct (connected k); [|done].
      unfold socket_emit. by destruct (throws k (emits k)).
  - intros [= <-]. rewrite app_nil_r. auto.
Qed.

Lemma sendMessage_result (m : ClientMessage) (s : WebSocketService.t) :
  result <$> socket (sendMessage m s) = result <$> socket s.
Proof.
  unfold sendMessage. destruct (socket s) as [k|] eqn:Hk; [|by simpl; rewrite Hk].
  destruct (connected k); [|by simpl; rewrite Hk].
  unfold socket_emit. by destruct (throws k (emits k)).
Qed.

Lemma flushMessageQueue_result (fuel : nat) : ∀ s s' : WebSocketService.t,
  flushMessageQueue fuel s = Some s' → result <$> socket s' = result <$> socket s.
Proof.
  induction fuel as [|fuel IH]; intros s s'; simpl.
  - destruct (messageQueue s); [by intros [= <-]|].
    destruct (isConnected s); [done|by intros [= <-]].
  - destruct (messageQueue s) as [|m q]; [by intros [= <-]|].
    destruct (isConnected s); [|by intros [= <-]].
    intros H. apply IH in H. rewrite H. by rewrite sendMessage_result.
Qed.

Lemma handleMessage_socket (m : ServerMessage) (s : WebSocketService.t) :
  socket (handleMessage m s) = socket s.
Proof.
  unfold handleMessage.
  repeat match goal with |- context [emit ?ev ?p ?s0] =>
    destruct (emit_same_connection ev p s0) as (->&_) end.
  repeat (match goal with |- context [match ?x with _ => _ end] => destruct x end;
          try done).
  unfold setSessionId.
  match goal with |- context [emit ?ev ?p ?s0] =>
    by destruct (emit_same_connection ev p s0) as (->&_) end.
Qed.

(** The promise of [connect()] is settled by the first 'connect' or
    'connect_error' of its socket and by nothing else. *)
Lemma onSocket_result (fuel : nat) (e : SocketEvent) (s1 s2 : WebSocketService.t)
    (k : Socket) :
  socket s1 = Some k → onSocket fuel e s1 = Some s2 →
  result <$> socket s2 = Some (settled_by e k).
Proof.
  intros Hk. unfold onSocket, settled_by. rewrite Hk.
  destruct e as [| |reason|name m|n|n|name].
  - intros H. apply (inj Some) in H. subst s2.
    match goal with |- context [startHeartbeat ?s0] =>
      destruct (startHeartbeat_wire s0) as (E & _);
      generalize dependent (startHeartbeat s0) end.
    intros sX E. simpl in *. rewrite E. simpl. unfold settle_opening. simpl.
    destruct (result k) eqn:Er; simpl; by rewrite ?Er.
  - intros [= <-]. simpl. unfold settle_opening. destruct (result k) eqn:Er; simpl; by rewrite ?Er.
  - intros H. apply (inj Some) in H. subst s2.
    match goal with |- context [onDisconnect reason ?s0] =>
      destruct (onDisconnect_clears reason s0) as (_&_&->&_) end.
    simpl. destruct (result k) eqn:Er; simpl; by rewrite ?Er.
  - case_bool_decide as Hname; intros H; apply (inj Some) in H; subst s2.
    + rewrite handleMessage_socket, Hk. simpl. destruct (result k) eqn:Er; simpl; by rewrite ?Er.
    + rewrite Hk. simpl. destruct (result k) eqn:Er; simpl; by rewrite ?Er.
  - intros H. apply (inj Some) in H. subst s2.
    destruct (emit_same_connection "reconnect_attempt" (with_attempt n) s1) as (->&_).
    rewrite Hk. simpl. destruct (result k) eqn:Er; simpl; by rewrite ?Er.
  - destruct (flushMessageQueue fuel s1) as [s3|] eqn:Hf; [|done].
    simpl. intros H. apply (inj Some) in H. subst s2.
    destruct (emit_same_connection "reconnect" (with_attempts n) s3) as (->&_).
    rewrite (flushMessageQueue_result _ _ _ Hf), Hk. simpl. destruct (result k) eqn:Er; simpl; by rewrite ?Er.
  - intros [= <-]. rewrite Hk. simpl. destruct (result k) eqn:Er; simpl; by rewrite ?Er.
Qed.

(** C4 (amended).  [connect()] hands reconnection over to the socket.io
    client: the socket is created with reconnection enabled, 5 attempts and
    a delay of 1000 ms (and a connection timeout of 10 s), and the service
    computes no delay and counts no attempt itself.  Of what the socket
    then reports, the service passes on to its listeners exactly the
    [notifications] of each event: 'reconnect_attempt', 'reconnect',
    'disconnect', and the server messages; it has no event for a final
    failure.  The promise of [connect()] is pending when the socket is
    created and is settled by the first 'connect' (resolved) or
    'connect_error' (rejected) the socket reports: a first connect_error
    rejects it, no other event settles it, and no later event changes a
    settled promise. *)
Theorem C4_reconnection_is_left_to_the_socket
    (s : WebSocketService.t) (thr : nat → bool) :
  isConnected s = false → isConnecting s = false →
  options <$> socket (connect (Some thr) s)
  = Some {| timeout := 10000; reconnection := true;
            reconnectionAttempts := 5; reconnectionDelay := 1000 |}
  ∧ result <$> socket (connect (Some thr) s) = Some opening
  ∧ (∀ fuel e s1 s2 k, socket s1 = Some k → onSocket fuel e s1 = Some s2 →
       emitted s2 = emitted s1 ++ notifications e
       ∧ (reconnectAttempts s2 = reconnectAttempts s1 ∨ reconnectAttempts s2 = 0%nat)
       ∧ result <$> socket s2 = Some (settled_by e k))
  ∧ (∀ k, result k = opening →
       settled_by ev_connect_error k = failed ∧ settled_by ev_connect k = opened)
  ∧ (∀ k e, result k ≠ opening ∨ (e ≠ ev_connect ∧ e ≠ ev_connect_error) →
       settled_by e k = result k).
Proof.
  intros Hc Hi. split; [|split; [|split; [|split]]].
  - unfold connect. by rewrite Hc, Hi.
  - unfold connect. by rewrite Hc, Hi.
  - intros fuel e s1 s2 k Hk Hstep.
    destruct (onSocket_emitted fuel e s1 s2) as [H1 H2]; [by rewrite Hk|done|].
    split; [done|]. split; [done|]. by eapply onSocket_result.
  - intros k Hk. unfold settled_by. by rewrite Hk.
  - intros k e [Hk|[H1 H2]]; unfold settled_by; by destruct (result k), e.
Qed.

(** The amended C4 on a fresh service: the options of the socket that
    [connect()] creates, and its promise rejected at the first
    'connect_error'. *)
Lemma C4_reconnection_is_left_to_the_socket_witness :
  reconnectionAttempts
    <$> (options <$> socket (connect (Some (λ _, false)) WebSocketService.init))
  = Some 5%nat
  ∧ reconnectionDelay
      <$> (options <$> socket (connect (Some (λ _, false)) WebSocketService.init))
    = Some 1000
  ∧ ∃ s2, onSocket 0 ev_connect_error (connect (Some (λ _, false)) WebSocketService.init)
          = Some s2
          ∧ result <$> socket s2 = Some failed.
Proof.
  destruct (C4_reconnection_is_left_to_the_socket WebSocketService.init (λ _, false))
    as (H & Hr & Hev & Hfirst & _); [reflexivity | reflexivity |].
  rewrite H. split; [reflexivity|]. split; [reflexivity|].
  destruct (socket (connect (Some (λ _, false)) WebSocketService.init)) as [k|] eqn:Hk;
    [|discriminate Hr].
  injection Hr as Hr.
  destruct (onSocket 0 ev_connect_error (connect (Some (λ _, false)) WebSocketService.init))
    as [s2|] eqn:E; [|by vm_compute in E].
  exists s2. split; [done|].
  destruct (Hev 0%nat ev_connect_error _ s2 k Hk E) as (_ & _ & Hres).
  rewrite Hres. f_equal. by apply Hfirst.
Defined.

End Connection.

(* ===================================================================== *)
(** * The life of the audio service *)
(* ===================================================================== *)

Section Capture.

Import AudioService.

Lemma alternates_snoc (l : list bool) : ∀ b x,
  alternates b l = true →
  x = negb (default (negb b) (last l)) →
  alternates b (l ++ [x]) = true.
Proof.
  induction l as [|y l IH]; intros b x Hl Hx; simpl in *.
  - subst x. rewrite negb_involutive. by rewrite bool_decide_eq_true_2.
  - apply andb_true_iff in Hl as [Hy Hl]. rewrite Hy. simpl.
    apply IH; [done|]. subst x. rewrite last_cons.
    destruct (last l) as [z|] eqn:E; simpl; [done|].
    apply bool_decide_eq_true_1 in Hy. subst y. by rewrite negb_involutive.
Qed.

Lemma notices_snoc_chunk (es : list AudioEvent) (c : AudioChunk) :
  notices (es ++ [audio_chunk c]) = notices es.
Proof. unfold notices. rewrite omap_app. simpl. by rewrite app_nil_r. Qed.

Lemma perform_notices (s : AudioService.t) (a : Step) :
  alternates true (notices (emitted s)) = true →
  isRecording s = default false (last (notices (emitted s))) →
  alternates true (notices (emitted (perform s a))) = true
  ∧ isRecording (perform s a)
    = default false (last (notices (emitted (perform s a)))).
Proof.
  intros Halt Hrec.
  assert (Hsame : ∀ s', emitted s' = emitted s → isRecording s' = isRecording s →
            alternates true (notices (emitted s')) = true
            ∧ isRecording s' = default false (last (notices (emitted s')))).
  { intros s' -> ->. done. }
  destruct a as [env now|now|b|ok now| |now]; simpl.
  - unfold startRecording. destruct (isRecording s) eqn:E; [by apply Hsame|].
    destruct env; simpl; try (split; [done|congruence]).
    unfold notices. rewrite omap_app. simpl. rewrite last_snoc. simpl. split; [|done].
    apply alternates_snoc; [done|]. fold (notices (emitted s)). simpl.
    by rewrite <- Hrec.
  - unfold stopRecording. destruct (isRecording s) eqn:E; simpl; [|by apply Hsame].
    destruct (mediaRecorder s) eqn:E'; simpl; [|by apply Hsame].
    unfold notices. rewrite omap_app. simpl. rewrite last_snoc. simpl. split; [|done].
    apply alternates_snoc; [done|]. fold (notices (emitted s)). simpl.
    by rewrite <- Hrec.
  - unfold ondataavailable. destruct (0 <? length b)%nat; by apply Hsame.
  - unfold processAudioChunk. destruct (processing s) as [|b rest]; [by apply Hsame|].
    destruct ok; simpl; [|by apply Hsame].
    rewrite notices_snoc_chunk. by apply (Hsame s).
  - by apply Hsame.
  - unfold stopRequested. destruct (isRecording s) eqn:E; simpl; [|by apply Hsame].
    destruct (mediaRecorder s) eqn:E'; simpl; [by apply Hsame|].
    unfold notices. rewrite omap_app. simpl. rewrite last_snoc. simpl. split; [|done].
    apply alternates_snoc; [done|]. fold (notices (emitted s)). simpl.
    by rewrite <- Hrec.
Qed.

(** X1.  Whatever the application and the recorder do, one call or event
    at a time (a call settles before the next one is made), the
    ['recording_started'] and ['recording_stopped'] events of the
    service alternate, beginning with a start; and the service is
    recording exactly when the last of them is a start.  So a start is
    never announced twice in a row, nor a stop without a recording. *)
Theorem start_and_stop_notices_alternate (steps : list Step) :
  let s := session steps AudioService.init in
  alternates true (notices (emitted s)) = true
  ∧ isRecording s = default false (last (notices (emitted s))).
Proof.
  simpl. induction steps as [|a steps IH] using rev_ind; [done|].
  unfold session. rewrite foldl_app. simpl.
  destruct IH as [H1 H2]. by apply perform_notices.
Qed.

Lemma pass_emitted (bs : list (Blob * Z)) : ∀ s : AudioService.t,
  mediaRecorder s = true → processing s = [] →
  emitted (pass bs s) = emitted s ++ (audio_chunk <$> numbered (sequence s) bs)
  ∧ mediaRecorder (pass bs s) = true
  ∧ processing (pass bs s) = []
  ∧ isRecording (pass bs s) = isRecording s
  ∧ startTime (pass bs s) = startTime s
  ∧ stream (pass bs s) = stream s.
Proof.
  induction bs as [|[b time] bs IH]; intros s Hrec Hproc.
  - simpl. by rewrite app_nil_r.
  - unfold pass in *. simpl foldl.
    assert (Hd : deliver s (b, time)
                 = if (0 <? length b)%nat then
                     emit (audio_chunk {| chunk_data := b; chunk_sequence := S (sequence s);
                                          chunk_timestamp := time |})
                       {| mediaRecorder := mediaRecorder s;
                          audioChunks := audioChunks s ++ [b];
                          stream := stream s; isRecording := isRecording s;
                          startTime := startTime s; sequence := S (sequence s);
                          processing := []; emitted := emitted s |}
                   else s).
    { unfold deliver, ondataavailable. simpl. rewrite Hrec.
      destruct (0 <? length b)%nat; unfold processAudioChunk; simpl; by rewrite Hproc. }
    rewrite Hd. simpl numbered. destruct (0 <? length b)%nat.
    + edestruct IH as (-> & -> & -> & -> & -> & ->); [done..|]. simpl.
      by rewrite <- app_assoc.
    + by apply IH.
Qed.

(** X2.  A recording that starts at [t0] on an idle service, receives the
    buffers [bs] (each converted before the next arrives) and is stopped
    at [t1]: the service emits the start, one chunk per non-empty buffer
    numbered from 1, then ['recording_stopped'] with the duration
    [t1 - t0] and a [sequenceCount] that is always 0 (the counter is
    cleared before it is read); the recorder, the stream and the stored
    buffers are released; [getRecordingState()] reports the elapsed time
    while recording and 0 afterwards; and a new start is accepted. *)
Theorem recording_round_trip
    (s0 : AudioService.t) (t0 t1 : Z) (bs : list (Blob * Z)) :
  isRecording s0 = false → processing s0 = [] →
  let s1 := (startRecording MediaReady t0 s0).1 in
  let s2 := pass bs s1 in
  let r := stopRecording t1 s2 in
  r.2 = None
  ∧ emitted r.1
    = emitted s0 ++ [recording_started t0] ++ (audio_chunk <$> numbered 0 bs)
      ++ [recording_stopped (t1 - t0) 0]
  ∧ isRecording r.1 = false ∧ mediaRecorder r.1 = false ∧ stream r.1 = false
  ∧ audioChunks r.1 = [] ∧ sequence r.1 = 0%nat
  ∧ (∀ t, getRecordingState t s2
          = {| rs_isRecording := true; rs_isProcessing := false;
               rs_audioLevel := 0; rs_duration := t - t0 |})
  ∧ (∀ t, getRecordingState t r.1
          = {| rs_isRecording := false; rs_isProcessing := false;
               rs_audioLevel := 0; rs_duration := 0 |})
  ∧ (∀ t2, (startRecording MediaReady t2 r.1).2 = None).
Proof.
  intros Hidle Hproc s1 s2 r.
  assert (H1 : mediaRecorder s1 = true ∧ processing s1 = [] ∧ isRecording s1 = true
               ∧ startTime s1 = t0 ∧ sequence s1 = 0%nat
               ∧ emitted s1 = emitted s0 ++ [recording_started t0]).
  { subst s1. unfold startRecording. rewrite Hidle. simpl. by rewrite Hproc. }
  destruct H1 as (Hm & Hp & Hr & Ht & Hq & He).
  destruct (pass_emitted bs s1 Hm Hp) as (He2 & Hm2 & Hp2 & Hr2 & Ht2 & _).
  fold s2 in He2, Hm2, Hp2, Hr2, Ht2.
  rewrite Hr in Hr2. rewrite Ht in Ht2. rewrite Hq, He in He2.
  assert (Hstop : r = (emit (recording_stopped (t1 - t0) 0)
                         (cleanup {| mediaRecorder := mediaRecorder s2;
                                     audioChunks := audioChunks s2;
                                     stream := stream s2; isRecording := false;
                                     startTime := startTime s2; sequence := 0%nat;
                                     processing := processing s2;
                                     emitted := emitted s2 |}), None)).
  { subst r. unfold stopRecording. rewrite Hr2, Hm2. simpl. by rewrite Ht2. }
  rewrite Hstop. simpl. rewrite He2.
  repeat split; try done.
  - by rewrite <- !app_assoc.
  - intros t. unfold getRecordingState. by rewrite Hr2, Ht2.
Qed.

(** The statement above on a concrete input. *)
Lemma recording_round_trip_witness :
  let bs := [([Byte.x01], 100); ([], 150); ([Byte.x02], 200)] in
  let r := stopRecording 300 (pass bs (startRecording MediaReady 10 AudioService.init).1) in
  r.2 = None
  ∧ emitted r.1
    = [recording_started 10;
       audio_chunk {| chunk_data := [Byte.x01]; chunk_sequence := 1; chunk_timestamp := 100 |};
       audio_chunk {| chunk_data := [Byte.x02]; chunk_sequence := 2; chunk_timestamp := 200 |};
       recording_stopped 290 0].
Proof.
  pose proof (recording_round_trip AudioService.init 10 300
                [([Byte.x01], 100); ([], 150); ([Byte.x02], 200)] eq_refl eq_refl)
    as (H1 & H2 & _).
  split; [exact H1 | exact H2].
Defined.

Lemma arrive_all (bs : list Blob) : ∀ s : AudioService.t,
  mediaRecorder s = true → Forall (λ b, (0 < length b)%nat) bs →
  processing (arrive bs s) = processing s ++ bs
  ∧ sequence (arrive bs s) = (sequence s + length bs)%nat
  ∧ emitted (arrive bs s) = emitted s
  ∧ audioChunks (arrive bs s) = audioChunks s ++ bs.
Proof.
  induction bs as [|b bs IH]; intros s Hrec Hbs.
  - simpl. rewrite !app_nil_r. repeat split; lia.
  - apply Forall_cons in Hbs as [Hb Hbs]. apply Nat.ltb_lt in Hb.
    unfold arrive in *. simpl foldl.
    assert (Ho : ondataavailable b s
                 = {| mediaRecorder := mediaRecorder s; audioChunks := audioChunks s ++ [b];
                      stream := stream s; isRecording := isRecording s;
                      startTime := startTime s; sequence := S (sequence s);
                      processing := processing s ++ [b]; emitted := emitted s |}).
    { unfold ondataavailable. by rewrite Hrec, Hb. }
    rewrite Ho. edestruct IH as (-> & -> & -> & ->); [done..|]. simpl.
    rewrite <- !app_assoc. repeat split; try done; lia.
Qed.

Lemma convert_all (times : list Z) : ∀ (s : AudioService.t) (bs rest : list Blob),
  processing s = bs ++ rest → length times = length bs →
  emitted (convert times s)
  = emitted s ++ zip_with (λ b t, audio_chunk {| chunk_data := b;
                                                 chunk_sequence := sequence s;
                                                 chunk_timestamp := t |}) bs times
  ∧ processing (convert times s) = rest.
Proof.
  induction times as [|t times IH]; intros s bs rest Hp Hl.
  - destruct bs; [|done]. simpl. by rewrite app_nil_r.
  - destruct bs as [|b bs]; [done|]. simpl in Hl.
    unfold convert in *. simpl foldl.
    unfold processAudioChunk at 2 4. rewrite Hp. simpl.
    edestruct (IH (emit (audio_chunk {| chunk_data := b; chunk_sequence := sequence s;
                                        chunk_timestamp := t |})
                     {| mediaRecorder := mediaRecorder s; audioChunks := audioChunks s;
                        stream := stream s; isRecording := isRecording s;
                        startTime := startTime s; sequence := sequence s;
                        processing := bs ++ rest; emitted := emitted s |}) bs rest)
      as (-> & ->); [done | lia |]. simpl.
    by rewrite <- app_assoc.
Qed.

(** X3.  A chunk carries the value the counter has when its conversion
    completes, not when its buffer arrived: when the non-empty buffers
    [bs] all arrive before the first conversion completes, every one of
    their chunks is emitted with the same number, the counter after the
    whole burst. *)
Theorem burst_chunks_share_a_number
    (s : AudioService.t) (bs : list Blob) (times : list Z) :
  mediaRecorder s = true → processing s = [] →
  Forall (λ b, (0 < length b)%nat) bs → length times = length bs →
  emitted (convert times (arrive bs s))
  = emitted s ++ zip_with (λ b t, audio_chunk {| chunk_data := b;
                                                 chunk_sequence := (sequence s + length bs)%nat;
                                                 chunk_timestamp := t |}) bs times.
Proof.
  intros Hrec Hproc Hbs Hl.
  destruct (arrive_all bs s Hrec Hbs) as (Hp & Hs & He & _).
  rewrite Hproc in Hp. simpl in Hp.
  destruct (convert_all times (arrive bs s) bs []) as [H _];
    [by rewrite app_nil_r | done |].
  by rewrite H, He, Hs.
Qed.

(** The statement above on a concrete input. *)
Lemma burst_chunks_share_a_number_witness :
  let s := (startRecording MediaReady 0 AudioService.init).1 in
  chunk_sequence <$> chunks (emitted (convert [240; 250] (arrive [[Byte.x01]; [Byte.x02]] s)))
  = [2%nat; 2%nat].
Proof.
  cbv zeta.
  rewrite (burst_chunks_share_a_number
             (startRecording MediaReady 0 AudioService.init).1
             [[Byte.x01]; [Byte.x02]] [240; 250] eq_refl eq_refl).
  - reflexivity.
  - repeat constructor.
  - reflexivity.
Defined.

(** X4.  A start that fails on an idle service (microphone refused,
    recorder refused, recorder start throwing) fails with "Failed to
    start recording", emits nothing, leaves the service idle and the
    counter as it was; once the microphone was obtained its stream stays
    held; and a later start can succeed, emitting ['recording_started']
    with the counter at 0. *)
Theorem failed_start_leaves_service_idle
    (s : AudioService.t) (env : Media) (now : Z) :
  isRecording s = false → env ≠ MediaReady →
  let r := startRecording env now s in
  r.2 = Some FailedToStart
  ∧ isRecording r.1 = false ∧ emitted r.1 = emitted s ∧ sequence r.1 = sequence s
  ∧ (env ≠ MicrophoneRefused → stream r.1 = true)
  ∧ ∀ now', let r' := startRecording MediaReady now' r.1 in
      r'.2 = None ∧ isRecording r'.1 = true ∧ sequence r'.1 = 0%nat
      ∧ emitted r'.1 = emitted s ++ [recording_started now'].
Proof.
  intros Hidle Henv. unfold startRecording. rewrite Hidle.
  destruct env; try done; simpl; rewrite ?Hidle; simpl; repeat split; done.
Qed.

(** The statement above on a concrete input. *)
Lemma failed_start_leaves_service_idle_witness :
  let r := startRecording RecorderRefused 5 AudioService.init in
  r.2 = Some FailedToStart ∧ isRecording r.1 = false ∧ stream r.1 = true.
Proof.
  pose proof (failed_start_leaves_service_idle AudioService.init RecorderRefused 5
                eq_refl ltac:(discriminate)) as (H1 & H2 & _ & _ & H3 & _).
  split; [exact H1|]. split; [exact H2|]. apply H3. discriminate.
Defined.

Lemma perform_bound (s : AudioService.t) (a : Step) :
  (length (audioChunks s) ≤ sequence s)%nat →
  (length (audioChunks (perform s a)) ≤ sequence (perform s a))%nat.
Proof.
  intros Hle. destruct a as [env now|now|b|ok now| |now]; simpl.
  - unfold startRecording. destruct (isRecording s); [done|].
    destruct env; simpl; try done; lia.
  - unfold stopRecording. destruct (negb (isRecording s) || negb (mediaRecorder s)); [done|].
    simpl. lia.
  - unfold ondataavailable. destruct (0 <? length b)%nat; [|done]. simpl.
    rewrite length_app. simpl. lia.
  - unfold processAudioChunk. destruct (processing s); [done|]. by destruct ok.
  - simpl. lia.
  - destruct (stopRequested s); [|done]. simpl. lia.
Qed.

Lemma perform_counter (s : AudioService.t) (a : Step) :
  regular [a] s = true →
  sequence s = length (audioChunks s) →
  (isRecording s = false → audioChunks s = []) →
  sequence (perform s a) = length (audioChunks (perform s a))
  ∧ (isRecording (perform s a) = false → audioChunks (perform s a) = []).
Proof.
  intros Hreg Hseq Hidle.
  assert (Hsame : ∀ s', sequence s' = sequence s → audioChunks s' = audioChunks s →
            isRecording s' = isRecording s →
            sequence s' = length (audioChunks s')
            ∧ (isRecording s' = false → audioChunks s' = [])).
  { intros s' -> -> ->. done. }
  destruct a as [env now|now|b|ok now| |now]; simpl in *; try done.
  - unfold startRecording. destruct (isRecording s) eqn:E; [by apply Hsame|].
    assert (Hnil : audioChunks s = []) by (by apply Hidle).
    assert (Hz : sequence s = 0%nat) by (by rewrite Hseq, Hnil).
    destruct env; simpl; rewrite ?Hnil, ?Hz; by split.
  - unfold stopRecording. destruct (isRecording s) eqn:E; simpl; [|by apply Hsame].
    destruct (mediaRecorder s); [done | by apply Hsame].
  - apply andb_true_iff in Hreg as [E _].
    unfold ondataavailable. destruct (0 <? length b)%nat; [|by apply Hsame]. simpl.
    rewrite length_app. simpl. split; [lia|congruence].
  - unfold processAudioChunk. destruct (processing s); [by apply Hsame|].
    destruct ok; by apply Hsame.
Qed.

Lemma regular_counter (steps : list Step) : ∀ s : AudioService.t,
  regular steps s = true →
  sequence s = length (audioChunks s) →
  (isRecording s = false → audioChunks s = []) →
  sequence (session steps s) = length (audioChunks (session steps s))
  ∧ (isRecording (session steps s) = false → audioChunks (session steps s) = []).
Proof.
  induction steps as [|a steps IH]; intros s Hreg Hseq Hidle; [done|].
  cbn [regular] in Hreg. apply andb_true_iff in Hreg as [Ha Hreg].
  unfold session. cbn [foldl]. apply IH; [done| |];
    apply (perform_counter s a); try done; cbn [regular]; by rewrite Ha.
Qed.

(** X5.  The sequence counter never falls behind the buffers held in
    [audioChunks], whatever the application and the recorder do, one call
    or event at a time.  As long as the service is not destroyed and the
    recorder delivers its buffers while the service records, the counter
    equals the number of stored buffers, and both are empty while the
    service is not recording.  [destroy()] during a recording breaks the
    equality: it empties the list at once and leaves the counter, so the
    buffer the stopping recorder still delivers is stored alone under the
    next number. *)
Theorem counter_counts_stored_buffers (steps : list Step) :
  let s := session steps AudioService.init in
  (length (audioChunks s) ≤ sequence s)%nat
  ∧ (regular steps AudioService.init = true →
       sequence s = length (audioChunks s)
       ∧ (isRecording s = false → audioChunks s = [] ∧ sequence s = 0%nat))
  ∧ (isRecording s = true → ∀ b, (0 < length b)%nat →
       let s' := session [destroys; dataavailable b] s in
       audioChunks s' = [b] ∧ sequence s' = S (sequence s)
       ∧ isRecording s' = true).
Proof.
  simpl. split; [|split].
  - induction steps as [|a steps IH] using rev_ind; [done|].
    unfold session. rewrite foldl_app. simpl. by apply perform_bound.
  - intros Hreg.
    destruct (regular_counter steps AudioService.init Hreg) as [H1 H2]; [done..|].
    split; [done|]. intros Hi. specialize (H2 Hi). split; [done|]. by rewrite H1, H2.
  - intros Hrec b Hb. unfold ondataavailable, destroy. simpl.
    apply Nat.ltb_lt in Hb. rewrite Hb. simpl. done.
Qed.

(** The statement above on a concrete input: two buffers of a recording
    are counted, and after [destroy()] the third is stored alone as
    number 3. *)
Lemma counter_counts_stored_buffers_witness :
  let steps := [starts MediaReady 0; dataavailable [Byte.x01];
                dataavailable [Byte.x02]] in
  let s := session steps AudioService.init in
  sequence s = 2%nat ∧ length (audioChunks s) = 2%nat
  ∧ audioChunks (session [destroys; dataavailable [Byte.x03]] s) = [[Byte.x03]]
  ∧ sequence (session [destroys; dataavailable [Byte.x03]] s) = 3%nat.
Proof.
  intros steps s.
  destruct (counter_counts_stored_buffers steps) as (_ & H2 & H3).
  destruct (H2 eq_refl) as [Hs _].
  destruct (H3 eq_refl [Byte.x03] ltac:(simpl; lia)) as (Hc & Hn & _).
  split; [reflexivity|]. split; [etransitivity; [symmetry; exact Hs|reflexivity]|].
  split; [exact Hc|exact Hn].
Defined.

End Capture.

(* ===================================================================== *)
(** * The native recorder: samples, level and events *)
(* ===================================================================== *)

Section Native.

Import AudioRecorderModule.

Lemma wrap8_byte (z : Z) : isByte (wrap8 z).
Proof. unfold isByte, wrap8. pose proof (Z.mod_pos_bound (z + 128) 256). lia. Qed.

Lemma sampleBytes_little_endian (s : Z) :
  isShort s →
  ∃ lo hi, sampleBytes s = [lo; hi] ∧ isByte lo ∧ isByte hi
           ∧ lo mod 256 + 256 * hi = s.
Proof.
  intros Hs. unfold isShort in Hs.
  exists (wrap8 (Z.land s 255)), (wrap8 (Z.shiftr (Z.land s 65280) 8)).
  split; [done|]. split; [apply wrap8_byte|]. split; [apply wrap8_byte|].
  assert (Hlo : Z.land s 255 = s mod 256).
  { change 255 with (Z.ones 8). by rewrite Z.land_ones. }
  assert (Hhi : Z.shiftr (Z.land s 65280) 8 = (s / 256) mod 256).
  { rewrite Z.shiftr_land. change (Z.shiftr 65280 8) with (Z.ones 8).
    rewrite Z.land_ones by done. by rewrite Z.shiftr_div_pow2. }
  rewrite Hlo, Hhi.
  assert (H1 : wrap8 (s mod 256) mod 256 = s mod 256).
  { unfold wrap8. rewrite Zminus_mod, Z.mod_mod by done.
    rewrite <- Zminus_mod. replace (s mod 256 + 128 - 128) with (s mod 256) by lia.
    by rewrite Z.mod_mod. }
  assert (H2 : wrap8 ((s / 256) mod 256) = s / 256).
  { unfold wrap8. rewrite Zplus_mod_idemp_l.
    assert (-128 ≤ s / 256) by (apply Z.div_le_lower_bound; lia).
    assert (s / 256 < 128) by (apply Z.div_lt_upper_bound; lia).
    rewrite Z.mod_small; lia. }
  rewrite H1, H2. pose proof (Z.div_mod s 256). lia.
Qed.

Lemma flat_map_sampleBytes (l : list Z) :
  Forall isShort l →
  length (flat_map sampleBytes l) = (2 * length l)%nat
  ∧ Forall isByte (flat_map sampleBytes l)
  ∧ ∀ i s, l !! i = Some s →
      ∃ lo hi, flat_map sampleBytes l !! (2 * i)%nat = Some lo
               ∧ flat_map sampleBytes l !! (2 * i + 1)%nat = Some hi
               ∧ lo mod 256 + 256 * hi = s.
Proof.
  induction 1 as [|s l Hs Hl (IH1 & IH2 & IH3)]; [done|].
  destruct (sampleBytes_little_endian s Hs) as (lo & hi & E & Hlo & Hhi & Heq).
  change (flat_map sampleBytes (s :: l)) with (sampleBytes s ++ flat_map sampleBytes l).
  rewrite E. split; [simpl; lia|]. split.
  - simpl. constructor; [done|]. by constructor.
  - intros [|i] s' Hi.
    + simpl in Hi. injection Hi as <-. by exists lo, hi.
    + simpl in Hi. destruct (IH3 i s' Hi) as (lo' & hi' & ? & ? & ?).
      exists lo', hi'. replace (2 * S i)%nat with (S (S (2 * i))) by lia.
      replace (S (S (2 * i)) + 1)%nat with (S (S (2 * i + 1))) by lia. done.
Qed.

(** X6.  [shortsToBytes] writes each 16-bit sample as two bytes, low byte
    first: the result has [2 * length] bytes, each a Java [byte], and the
    sample is the low byte read unsigned plus 256 times the high byte
    read signed.  A [length] beyond the array is an exception. *)
Theorem shortsToBytes_little_endian (shorts : list Z) (n : nat) :
  Forall isShort shorts →
  ((n ≤ length shorts)%nat →
   ∃ bytes, shortsToBytes shorts n = Some bytes
            ∧ length bytes = (2 * n)%nat
            ∧ Forall isByte bytes
            ∧ ∀ i s, (i < n)%nat → shorts !! i = Some s →
                ∃ lo hi, bytes !! (2 * i)%nat = Some lo
                         ∧ bytes !! (2 * i + 1)%nat = Some hi
                         ∧ lo mod 256 + 256 * hi = s)
  ∧ ((length shorts < n)%nat → shortsToBytes shorts n = None).
Proof.
  intros Hs. unfold shortsToBytes. split.
  - intros Hn. rewrite decide_True by done. eexists. split; [done|].
    destruct (flat_map_sampleBytes (take n shorts)) as (H1 & H2 & H3).
    { by apply Forall_take. }
    rewrite length_take in H1. split; [lia|]. split; [done|].
    intros i s Hi Hl. apply H3. by rewrite lookup_take_lt.
  - intros Hn. rewrite decide_False; [done|lia].
Qed.

(** The statement above on a concrete input. *)
Lemma shortsToBytes_little_endian_witness :
  shortsToBytes [-2; 258; 7] 2 = Some [-2; -1; 2; 1]
  ∧ shortsToBytes [-2; 258; 7] 4 = None.
Proof.
  destruct (shortsToBytes_little_endian [-2; 258; 7] 2) as [H1 _].
  { repeat constructor; unfold isShort; lia. }
  destruct (shortsToBytes_little_endian [-2; 258; 7] 4) as [_ H2].
  { repeat constructor; unfold isShort; lia. }
  split; [reflexivity | apply H2; simpl; lia].
Defined.

Lemma upto_spec (p : Z → bool) (n : nat) : ∀ a,
  upto n a p = true → ∀ x, a ≤ x < a + Z.of_nat n → p x = true.
Proof.
  induction n as [|n IH]; intros a H x Hx; [lia|].
  simpl in H. apply andb_true_iff in H as [Ha H].
  destruct (decide (x = a)) as [->|]; [done|].
  apply (IH (a + 1)); [done|lia].
Qed.

Lemma scaled_table :
  upto (Z.to_nat 32769) 0 (λ a, scaled a =? a * 100 / 32767) = true.
Proof. vm_compute. reflexivity. Qed.

Lemma scaled_exact (a : Z) : 0 ≤ a ≤ 32768 → scaled a = a * 100 / 32767.
Proof.
  intros Ha. apply Z.eqb_eq.
  apply (upto_spec (λ a, scaled a =? a * 100 / 32767) (Z.to_nat 32769) 0 scaled_table). lia.
Qed.

Lemma wrap64_small (z : Z) :
  -9223372036854775808 ≤ z < 9223372036854775808 → wrap64 z = z.
Proof. intros H. unfold wrap64. rewrite Z.mod_small; lia. Qed.

Lemma wrap32_small (z : Z) : -2147483648 ≤ z < 2147483648 → wrap32 z = z.
Proof. intros H. unfold wrap32. rewrite Z.mod_small; lia. Qed.

Lemma sum_of_magnitudes (l : list Z) : ∀ acc,
  Forall isShort l → 0 ≤ acc →
  acc + 32768 * Z.of_nat (length l) < 9223372036854775808 →
  foldl (λ sum x, wrap64 (sum + Z.abs x)) acc l = acc + foldr Z.add 0 (Z.abs <$> l)
  ∧ 0 ≤ foldr Z.add 0 (Z.abs <$> l) ≤ 32768 * Z.of_nat (length l).
Proof.
  induction l as [|x l IH]; intros acc Hl Hacc Hb.
  - simpl. lia.
  - apply Forall_cons in Hl as [Hx Hl]. unfold isShort in Hx.
    rewrite length_cons, Nat2Z.inj_succ in *.
    cbn [foldl foldr fmap list_fmap].
    rewrite wrap64_small by lia.
    destruct (IH (acc + Z.abs x)) as [-> Hsum]; [done | lia | lia |].
    destruct (IH 0) as [_ H0]; [done | lia | lia |]. lia.
Qed.

(** X7.  For a buffer of 16-bit samples, [calculateAudioLevel] returns the
    mean magnitude of the first [bufferSize] samples as a percentage of
    full scale (32767), rounded down and capped at 100: the [long] sum
    does not overflow, and the division by the [double] 327.67 followed
    by the cast to [int] gives exactly the integer quotient.  The level
    lies between 0 and 100.  A [bufferSize] of 0 or beyond the array is
    an exception. *)
Theorem calculateAudioLevel_percent (buffer : list Z) (n : nat) :
  Forall isShort buffer → Z.of_nat (length buffer) < 2147483648 →
  ((0 < n ≤ length buffer)%nat →
   calculateAudioLevel buffer n = Some (percentOfFullScale buffer n)
   ∧ 0 ≤ percentOfFullScale buffer n ≤ 100)
  ∧ calculateAudioLevel buffer 0 = None
  ∧ ((length buffer < n)%nat → calculateAudioLevel buffer n = None).
Proof.
  intros Hb Hlen. split; [|split].
  - intros [Hn0 Hn].
    destruct (sum_of_magnitudes (take n buffer) 0) as [Hsum Hrange].
    { by apply Forall_take. } { done. } { rewrite length_take. lia. }
    rewrite length_take in Hrange.
    replace (n `min` length buffer)%nat with n in Hrange by lia.
    assert (Havg : 0 ≤ foldr Z.add 0 (Z.abs <$> take n buffer) / Z.of_nat n ≤ 32768).
    { split; [apply Z.div_pos; lia|]. apply Z.div_le_upper_bound; lia. }
    assert (0 ≤ foldr Z.add 0 (Z.abs <$> take n buffer) / Z.of_nat n * 100 / 32767)
      by (apply Z.div_pos; lia).
    split; [|unfold percentOfFullScale; lia].
    unfold calculateAudioLevel. rewrite decide_True by lia.
    rewrite decide_False by lia. cbv zeta.
    rewrite Hsum, Z.add_0_l. rewrite Z.quot_div_nonneg by lia.
    rewrite wrap32_small by lia. rewrite scaled_exact by done.
    unfold percentOfFullScale. f_equal. lia.
  - unfold calculateAudioLevel.
    destruct (decide (0 ≤ length buffer)%nat); [|done]. cbv zeta.
    by rewrite decide_True.
  - intros Hn. unfold calculateAudioLevel. rewrite decide_False; [done|lia].
Qed.

(** The statement above on a concrete input. *)
Lemma calculateAudioLevel_percent_witness :
  calculateAudioLevel [32767; -32768; 0; 0] 2 = Some 100
  ∧ calculateAudioLevel [1000; -1000; 0; 0] 4 = Some 1
  ∧ calculateAudioLevel [0; 0] 0 = None.
Proof.
  destruct (calculateAudioLevel_percent [32767; -32768; 0; 0] 2) as (H1 & _ & _).
  { repeat constructor; unfold isShort; lia. } { simpl; lia. }
  destruct (calculateAudioLevel_percent [1000; -1000; 0; 0] 4) as (H2 & _ & _).
  { repeat constructor; unfold isShort; lia. } { simpl; lia. }
  destruct (calculateAudioLevel_percent [0; 0] 0) as (_ & H3 & _).
  { repeat constructor; unfold isShort; lia. } { simpl; lia. }
  split; [|split; [|exact H3]].
  - destruct H1 as [H1 _]; [simpl; lia|]. rewrite H1. reflexivity.
  - destruct H2 as [H2 _]; [simpl; lia|]. rewrite H2. reflexivity.
Defined.

Lemma wrap32_succ (z : Z) : wrap32 (wrap32 z + 1) = wrap32 (z + 1).
Proof.
  unfold wrap32.
  replace ((z + 2147483648) mod 4294967296 - 2147483648 + 1 + 2147483648)
    with ((z + 2147483648) mod 4294967296 + 1) by lia.
  rewrite Zplus_mod_idemp_l. f_equal. f_equal. lia.
Qed.

Lemma sequences_snoc (es : list NativeEvent) (e : NativeEvent) :
  sequences (es ++ [e])
  = sequences es ++ match e with audioData _ n => [n] | _ => [] end.
Proof.
  induction es as [|e' es IH]; [by destruct e|].
  destruct e'; simpl; by rewrite IH.
Qed.

Lemma perform_counts (s : AudioRecorderModule.t) (c : Call) :
  sequences (sent s)
  = (λ i, wrap32 (Z.of_nat i)) <$> seq 1 (length (sequences (sent s))) →
  sequenceCounter s = wrap32 (Z.of_nat (length (sequences (sent s)))) →
  sequences (sent (perform s c))
  = (λ i, wrap32 (Z.of_nat i)) <$> seq 1 (length (sequences (sent (perform s c))))
  ∧ sequenceCounter (perform s c)
    = wrap32 (Z.of_nat (length (sequences (sent (perform s c))))).
Proof.
  intros Hs Hc.
  assert (Hsame : ∀ s', sequences (sent s') = sequences (sent s) →
            sequenceCounter s' = sequenceCounter s →
            sequences (sent s')
            = (λ i, wrap32 (Z.of_nat i)) <$> seq 1 (length (sequences (sent s')))
            ∧ sequenceCounter s' = wrap32 (Z.of_nat (length (sequences (sent s'))))).
  { intros s' -> ->. done. }
  assert (Hstart : ∀ env, sequences (sent (startRecording env s).1) = sequences (sent s)
                          ∧ sequenceCounter (startRecording env s).1 = sequenceCounter s).
  { intros env. unfold startRecording. destruct (isRecording s); [done|].
    destruct env; simpl; rewrite ?sequences_snoc, ?app_nil_r; done. }
  assert (Hstop : sequences (sent (stop s)) = sequences (sent s)
                  ∧ sequenceCounter (stop s) = sequenceCounter s).
  { unfold stop. by destruct (isRecording s). }
  assert (Hstopped : sequences (sent (stopRecording s).1) = sequences (sent s)
                     ∧ sequenceCounter (stopRecording s).1 = sequenceCounter s).
  { unfold stopRecording. destruct (isRecording s); simpl; [|done].
    rewrite sequences_snoc, app_nil_r. done. }
  destruct c as [env| |env| |samples|]; simpl.
  - by apply Hsame; apply Hstart.
  - by apply Hsame; apply Hstopped.
  - by apply Hsame; apply Hstart.
  - by apply Hsame; apply Hstopped.
  - unfold processRead. destruct (isRecording s); [|by apply Hsame].
    destruct (0 <? length samples)%nat; [|by apply Hsame].
    simpl. rewrite sequences_snoc, length_app. simpl.
    rewrite Nat.add_1_r. rewrite seq_S, fmap_app. simpl.
    rewrite <- Hs. rewrite Hc, wrap32_succ.
    replace (Z.of_nat (length (sequences (sent s))) + 1)
      with (Z.of_nat (S (length (sequences (sent s))))) by lia.
    done.
  - by apply Hsame; apply Hstop.
Qed.

(** X8.  The native module numbers its audio events 1, 2, 3, ... (as a
    Java [int]) over its whole life: whatever starts, stops and turns of
    the recording loop happen, one at a time, the k-th ["audioData"]
    event ever sent carries k, so a second recording continues the
    numbering of the first. *)
Theorem native_counter_is_never_reset (cs : list Call) :
  let s := session cs AudioRecorderModule.init in
  let n := length (sequences (sent s)) in
  sequences (sent s) = (λ i, wrap32 (Z.of_nat i)) <$> seq 1 n
  ∧ sequenceCounter s = wrap32 (Z.of_nat n).
Proof.
  simpl. induction cs as [|c cs IH] using rev_ind; [done|].
  unfold session. rewrite foldl_app. simpl. destruct IH. by apply perform_counts.
Qed.

Lemma announced_snoc (es : list NativeEvent) (e : NativeEvent) (open : bool) :
  announced open (es ++ [e])
  = match e with
    | recordingStarted => true
    | recordingStopped => false
    | audioData _ _ => announced open es
    end.
Proof. unfold announced. rewrite foldl_app. by destruct e. Qed.

Lemma orderly_snoc (es : list NativeEvent) (e : NativeEvent) : ∀ open,
  orderly open (es ++ [e])
  = orderly open es
    && match e with
       | recordingStopped => announced open es
       | _ => true
       end.
Proof.
  induction es as [|e' es IH]; intros open.
  - simpl. destruct e; by rewrite ?andb_true_r.
  - destruct e'; simpl; rewrite IH; by rewrite ?andb_assoc.
Qed.

Lemma perform_orderly (s : AudioRecorderModule.t) (c : Call) :
  orderly false (sent s) = true →
  (isRecording s = true → announced false (sent s) = true) →
  orderly false (sent (perform s c)) = true
  ∧ (isRecording (perform s c) = true → announced false (sent (perform s c)) = true).
Proof.
  intros Ho Ha.
  assert (Hsame : ∀ s', sent s' = sent s → (isRecording s' = true → isRecording s = true) →
            orderly false (sent s') = true
            ∧ (isRecording s' = true → announced false (sent s') = true)).
  { intros s' -> Hi. split; [done|]. intros. by apply Ha, Hi. }
  assert (Hstart : ∀ env, orderly false (sent (startRecording env s).1) = true
            ∧ (isRecording (startRecording env s).1 = true →
               announced false (sent (startRecording env s).1) = true)).
  { intros env. unfold startRecording.
    destruct (isRecording s) eqn:E; [apply Hsame; simpl; congruence|].
    destruct env; try (apply Hsame; simpl; congruence). simpl.
    rewrite orderly_snoc, announced_snoc, Ho. done. }
  assert (Hstop : orderly false (sent (stopRecording s).1) = true
            ∧ (isRecording (stopRecording s).1 = true →
               announced false (sent (stopRecording s).1) = true)).
  { unfold stopRecording.
    destruct (isRecording s) eqn:E; [|apply Hsame; simpl; congruence].
    unfold stop. rewrite E. simpl.
    rewrite orderly_snoc, Ho, Ha by congruence. done. }
  destruct c as [env| |env| |samples|]; simpl; try done.
  - apply Hstart.
  - unfold processRead.
    destruct (isRecording s) eqn:E; [|apply Hsame; simpl; congruence].
    destruct (0 <? length samples)%nat; [|apply Hsame; simpl; congruence]. simpl.
    rewrite orderly_snoc, announced_snoc, Ho. split; [done|]. intros _. by apply Ha.
  - unfold onCatalystInstanceDestroy, stop.
    destruct (isRecording s) eqn:E; apply Hsame; simpl; congruence.
Qed.

(** X9.  Whatever calls the native module receives, one at a time, it
    sends ["recordingStopped"] only after a ["recordingStarted"] with no
    ["recordingStopped"] since, never two stop notices for one start;
    and while it is recording the last of these notices is a start.
    (Start notices may repeat: the teardown of the React instance stops a
    recording without a notice.) *)
Theorem native_events_are_orderly (cs : list Call) :
  let s := session cs AudioRecorderModule.init in
  orderly false (sent s) = true
  ∧ (isRecording s = true → announced false (sent s) = true).
Proof.
  simpl. induction cs as [|c cs IH] using rev_ind; [done|].
  unfold session. rewrite foldl_app. simpl. destruct IH. by apply perform_orderly.
Qed.

End Native.

(* ===================================================================== *)
(** * Listeners: registration and notification *)
(* ===================================================================== *)

Section Notify.

Import WebSocketService.

#[local] Arguments off : simpl never.
#[local] Arguments on : simpl never.
#[local] Arguments settle : simpl never.
#[local] Arguments clearTimer : simpl never.
#[local] Arguments emit : simpl never.
#[local] Arguments sendMessage : simpl never.
#[local] Arguments startHeartbeat : simpl never.
#[local] Arguments stopHeartbeat : simpl never.

(** X10.  [off(event, callback)] leaves the service as it is when the
    callback is not registered for the event; otherwise it removes
    exactly the first registration of the callback and touches no other
    event.  So [on] followed by [off] restores the listeners of a
    callback that was not registered before.  [off(event)] removes every
    callback of that event and of no other. *)
Theorem off_removes_the_first_registration
    (event : string) (cb : Callback) (s : WebSocketService.t) :
  (cb ∉ listeners event s → off event (Some cb) s = s)
  ∧ (∀ l1 l2, eventListeners s !! event = Some (l1 ++ cb :: l2) → cb ∉ l1 →
       listeners event (off event (Some cb) s) = l1 ++ l2
       ∧ ∀ ev, ev ≠ event → listeners ev (off event (Some cb) s) = listeners ev s)
  ∧ (cb ∉ listeners event s →
       listeners event (off event (Some cb) (on event cb s)) = listeners event s
       ∧ ∀ ev, ev ≠ event →
           listeners ev (off event (Some cb) (on event cb s)) = listeners ev s)
  ∧ (listeners event (off event None s) = []
     ∧ ∀ ev, ev ≠ event → listeners ev (off event None s) = listeners ev s).
Proof.
  assert (Hmid : ∀ (s : WebSocketService.t) l1 l2,
            eventListeners s !! event = Some (l1 ++ cb :: l2) → cb ∉ l1 →
            listeners event (off event (Some cb) s) = l1 ++ l2
            ∧ ∀ ev, ev ≠ event → listeners ev (off event (Some cb) s) = listeners ev s).
  { intros s0 l1 l2 Hl Hcb. unfold off. rewrite Hl, indexOf_middle by done.
    unfold listeners. simpl. rewrite lookup_insert_eq. simpl. split.
    - rewrite delete_middle. done.
    - intros ev Hev. by rewrite lookup_insert_ne. }
  split; [|split; [|split]].
  - intros Hcb. unfold off, listeners in *.
    destruct (eventListeners s !! event) as [l|]; [|done].
    simpl in Hcb. by rewrite indexOf_absent.
  - apply Hmid.
  - intros Hcb.
    destruct (Hmid (on event cb s) (listeners event s) []) as [H1 H2]; [|done|].
    { unfold on. simpl. by rewrite lookup_insert_eq. }
    rewrite app_nil_r in H1. split; [done|].
    intros ev Hev. rewrite H2 by done. by apply listeners_on_ne.
  - unfold off, listeners. simpl. rewrite lookup_delete_eq. split; [done|].
    intros ev Hev. by rewrite lookup_delete_ne.
Qed.

Lemma forEach_listeners (event : string) (data : Payload) (n : nat) :
  ∀ (k : nat) (s : WebSocketService.t),
    Forall is_listener (take n (drop k (listeners event s))) →
    forEach event data k n s
    = set_notified (notified s ++ calls data (take n (drop k (listeners event s)))) s.
Proof.
  induction n as [|n IH]; intros k s Hl.
  - simpl. rewrite app_nil_r. by destruct s.
  - simpl forEach. destruct (listeners event s !! k) as [cb|] eqn:Hk.
    + rewrite (drop_S _ _ _ Hk) in Hl |- *. simpl take in Hl |- *.
      apply Forall_cons in Hl as [Hcb Hl]. destruct cb as [c rt tid|i]; [done|].
      simpl invoke. rewrite IH.
      * simpl. unfold calls at 2. simpl. fold (calls data).
        by rewrite <- app_assoc.
      * done.
    + apply lookup_ge_None in Hk. rewrite IH.
      * rewrite !drop_ge by lia. by rewrite !take_nil.
      * rewrite drop_ge by lia. by rewrite take_nil.
Qed.

Lemma emit_listeners (event : string) (data : Payload) (s : WebSocketService.t) :
  Forall is_listener (listeners event s) →
  emit event data s
  = set_notified (notified s ++ calls data (listeners event s))
      (set_emitted (emitted s ++ [(event, data)]) s).
Proof.
  intros Hl. unfold emit. simpl.
  destruct (eventListeners s !! event) as [l|] eqn:E.
  - rewrite forEach_listeners.
    + unfold listeners. simpl. rewrite E. simpl. by rewrite take_ge.
    + unfold listeners in *. simpl. rewrite E in *. simpl in *. by rewrite take_ge.
  - unfold listeners. rewrite E. simpl. rewrite app_nil_r. by destruct s.
Qed.




Lemma calls_app (data : Payload) (l1 l2 : list Callback) :
  calls data (l1 ++ l2) = calls data l1 ++ calls data l2.
Proof. apply omap_app. Qed.

Lemma is_listener_not_handler (c tid : nat) (rt : string) (l : list Callback) :
  Forall is_listener l → responseHandler c rt tid ∉ l.
Proof.
  intros Hl Hin. rewrite Forall_forall in Hl. by apply Hl in Hin.
Qed.

(** X12.  When the handler of a [sendWithResponse] call resolves during
    an [emit], it removes itself from the array that [forEach] is
    walking, and the callback registered right after it is not called
    for that message: the listeners before it and those after the
    skipped one are called, the skipped one stays registered. *)
Theorem emit_skips_the_callback_after_a_resolving_handler
    (s : WebSocketService.t) (c tid : nat) (m : ServerMessage)
    (l1 l2 : list Callback) (cb : Callback) :
  let rt := sm_type m in
  eventListeners s !! rt = Some (l1 ++ responseHandler c rt tid :: cb :: l2) →
  Forall is_listener l1 → Forall is_listener l2 →
  notified (emit rt (from_server m) s)
  = notified s ++ calls (from_server m) (l1 ++ l2)
  ∧ listeners rt (emit rt (from_server m) s) = l1 ++ cb :: l2
  ∧ promises (emit rt (from_server m) s) = promises (settle c (resolved m) s).
Proof.
  intros rt Hl H1 H2. set (h := responseHandler c rt tid) in *.
  set (d := from_server m).
  set (s0 := set_emitted (emitted s ++ [(rt, d)]) s).
  set (s1 := set_notified (notified s0 ++ calls d l1) s0).
  set (s2 := settle c (resolved m) (off rt (Some h) (clearTimer tid s1))).
  assert (Hl0 : listeners rt s0 = l1 ++ h :: cb :: l2).
  { unfold listeners. simpl. by rewrite Hl. }
  assert (Hl1 : eventListeners s1 !! rt = Some (l1 ++ h :: cb :: l2)) by done.
  assert (Hoff : off rt (Some h) (clearTimer tid s1)
                 = set_eventListeners (<[rt := l1 ++ cb :: l2]> (eventListeners s))
                     (clearTimer tid s1)).
  { unfold off. unfold clearTimer at 1 2. simpl. rewrite Hl.
    rewrite indexOf_middle by by apply is_listener_not_handler.
    by rewrite delete_middle. }
  assert (Hl2 : listeners rt s2 = l1 ++ cb :: l2).
  { unfold listeners. subst s2.
    destruct (settle_core c (resolved m) (off rt (Some h) (clearTimer tid s1)))
      as (_ & _ & _ & -> & _).
    rewrite Hoff. simpl. by rewrite lookup_insert_eq. }
  assert (Hn2 : notified s2 = notified s ++ calls d l1).
  { subst s2. rewrite Hoff. unfold settle. simpl.
    by destruct (promises s !! c) as [[]|]. }
  assert (Hp2 : promises s2 = promises (settle c (resolved m) s)).
  { subst s2. rewrite Hoff. unfold settle. simpl.
    by destruct (promises s !! c) as [[]|]. }
  assert (Hemit : emit rt d s = set_notified (notified s2 ++ calls d l2) s2).
  { rewrite (emit_forEach _ _ _ _ Hl). fold s0.
    replace (length (l1 ++ h :: cb :: l2)) with (length l1 + (1 + (1 + length l2)))%nat
      by (rewrite length_app; simpl; lia).
    rewrite forEach_add. rewrite Nat.add_0_l.
    rewrite (forEach_listeners rt d (length l1) 0 s0);
      [|by rewrite Hl0, drop_0, take_app_length].
    rewrite Hl0, drop_0, take_app_length. fold s1.
    rewrite forEach_add.
    assert (Hstep : forEach rt d (length l1) 1 s1 = s2).
    { simpl forEach. unfold listeners. rewrite Hl1. simpl.
      rewrite lookup_app_r, Nat.sub_diag by lia. simpl.
      by rewrite decide_True. }
    rewrite Hstep.
    assert (Hrest : take (1 + length l2) (drop (length l1 + 1) (listeners rt s2)) = l2).
    { rewrite Hl2, drop_app_add. change (drop 1 (cb :: l2)) with l2.
      apply take_ge. lia. }
    rewrite (forEach_listeners rt d (1 + length l2) (length l1 + 1) s2);
      [|by rewrite Hrest].
    by rewrite Hrest. }
  rewrite Hemit. simpl. rewrite Hn2, calls_app, <- app_assoc.
  split; [done|]. split; [exact Hl2 | exact Hp2].
Qed.


(** The statement above on a concrete input. *)
Lemma emit_skips_the_callback_after_a_resolving_handler_witness :
  let m := {| sm_type := "connection_response"; sm_data := None |} in
  let s := on "connection_response" (listener 2)
             (sendConnectionRequest "app" []
                (on "connection_response" (listener 1) WebSocketService.init)).2 in
  notified (emit "connection_response" (from_server m) s) = [(1%nat, from_server m)]
  ∧ listeners "connection_response" (emit "connection_response" (from_server m) s)
    = [listener 1; listener 2].
Proof.
  cbv zeta.
  destruct (emit_skips_the_callback_after_a_resolving_handler
              (on "connection_response" (listener 2)
                 (sendConnectionRequest "app" []
                    (on "connection_response" (listener 1) WebSocketService.init)).2)
              0 0 {| sm_type := "connection_response"; sm_data := None |}
              [listener 1] [] (listener 2)) as (H1 & H2 & _).
  - vm_compute. reflexivity.
  - by repeat constructor.
  - constructor.
  - split; [exact H1 | exact H2].
Defined.

Lemma emit_listeners_frame (event ev : string) (data : Payload) (s : WebSocketService.t) :
  Forall is_listener (listeners event s) →
  listeners ev (emit event data s) = listeners ev s.
Proof. intros Hl. by rewrite emit_listeners. Qed.

(** X13.  A server message is handed to the listeners of its own type and
    then to the listeners of ['message'] (after those of
    ['session_id_changed'] when it installs a session id).  A message
    whose type is "message" therefore reaches every ['message'] listener
    twice. *)
Theorem handleMessage_notifies_type_then_message
    (m : ServerMessage) (s : WebSocketService.t) :
  (∀ ev, Forall is_listener (listeners ev s)) →
  notified (handleMessage m s)
  = notified s ++ flat_map (λ n, calls n.2 (listeners n.1 s))
                    (notifications (ev_inbound "message" m))
  ∧ (sm_type m = "message" →
     notified (handleMessage m s)
     = notified s ++ calls (from_server m) (listeners "message" s)
       ++ calls (from_server m) (listeners "message" s)).
Proof.
  intros Hl.
  assert (Hmain : ∀ s1 pre,
            (∀ ev, listeners ev s1 = listeners ev s) →
            notified s1 = notified s ++ pre →
            notified (emit "message" (from_server m) (emit (sm_type m) (from_server m) s1))
            = notified s ++ pre ++ calls (from_server m) (listeners (sm_type m) s)
              ++ calls (from_server m) (listeners "message" s)).
  { intros s1 pre Hsame Hn.
    assert (H1 : Forall is_listener (listeners (sm_type m) s1)) by by rewrite Hsame.
    rewrite (emit_listeners "message").
    - rewrite emit_listeners_frame by done. rewrite (emit_listeners (sm_type m)) by done.
      simpl. rewrite Hn, !Hsame. by rewrite <- !app_assoc.
    - rewrite emit_listeners_frame by done. by rewrite Hsame. }
  assert (Hall : notified (handleMessage m s)
                 = notified s ++ flat_map (λ n, calls n.2 (listeners n.1 s))
                                   (notifications (ev_inbound "message" m))).
  { unfold handleMessage, notifications.
    rewrite bool_decide_eq_true_2 by (unfold inboundEvents; set_solver).
    destruct (decide (sm_type m = "connection_response")) as [Ht|Ht].
    - destruct (sm_data m) as [dta|]; simpl.
      + destruct (sd_session_id dta) as [sid|]; simpl.
        * destruct (decide (sid = EmptyString)); simpl.
          -- rewrite (Hmain s []) by (by rewrite ?app_nil_r). by rewrite app_nil_r.
          -- unfold setSessionId.
             rewrite (Hmain _ (calls (with_sessionId sid) (listeners "session_id_changed" s))).
             ++ by rewrite app_nil_r.
             ++ intros ev. by rewrite emit_listeners_frame by apply Hl.
             ++ by rewrite emit_listeners by apply Hl.
        * rewrite (Hmain s []) by (by rewrite ?app_nil_r). by rewrite app_nil_r.
      + rewrite (Hmain s []) by (by rewrite ?app_nil_r). by rewrite app_nil_r.
    - simpl. rewrite (Hmain s []) by (by rewrite ?app_nil_r). by rewrite app_nil_r. }
  split; [done|]. intros Ht. rewrite Hall. unfold notifications.
  rewrite bool_decide_eq_true_2 by (unfold inboundEvents; set_solver).
  rewrite decide_False by (rewrite Ht; done). simpl. rewrite Ht. by rewrite app_nil_r.
Qed.

(** The statement above on a concrete input. *)
Lemma handleMessage_notifies_type_then_message_witness :
  let m := {| sm_type := "message"; sm_data := None |} in
  let s := on "message" (listener 7) WebSocketService.init in
  notified (handleMessage m s) = [(7%nat, from_server m); (7%nat, from_server m)].
Proof.
  cbv zeta.
  destruct (handleMessage_notifies_type_then_message
              {| sm_type := "message"; sm_data := None |}
              (on "message" (listener 7) WebSocketService.init)) as [_ H].
  - intros ev. unfold listeners, on. simpl.
    destruct (decide (ev = "message")) as [->|Hne].
    + rewrite lookup_insert_eq. by repeat constructor.
    + rewrite lookup_insert_ne by done. rewrite lookup_empty. constructor.
  - rewrite H by done. reflexivity.
Defined.

End Notify.

(* ===================================================================== *)
(** * The queue and the connection over runs *)
(* ===================================================================== *)

Section QueueLife.

Import WebSocketService.

#[local] Arguments off : simpl never.
#[local] Arguments on : simpl never.
#[local] Arguments settle : simpl never.
#[local] Arguments clearTimer : simpl never.
#[local] Arguments emit : simpl never.
#[local] Arguments sendMessage : simpl never.
#[local] Arguments startHeartbeat : simpl never.
#[local] Arguments stopHeartbeat : simpl never.

(** X14.  While the socket is connected and every [socket.emit] throws,
    [flushMessageQueue] on a non-empty queue does not return: each
    message it takes is put back by [sendMessage], so no amount of fuel
    lets the loop end. *)
Theorem flush_never_ends_while_emit_throws (fuel : nat) :
  ∀ (s : WebSocketService.t) (k : Socket),
    socket s = Some k → connected k = true → messageQueue s ≠ [] →
    (∀ i, (emits k ≤ i)%nat → throws k i = true) →
    flushMessageQueue fuel s = None.
Proof.
  induction fuel as [|fuel IH]; intros s k Hk Hc Hq Hthr.
  - simpl. destruct (messageQueue s) as [|m q]; [done|].
    unfold isConnected. by rewrite Hk, Hc.
  - simpl. destruct (messageQueue s) as [|m q] eqn:Eq; [done|].
    unfold isConnected. rewrite Hk, Hc.
    assert (Hthr0 : throws k (emits k) = true) by (apply Hthr; lia).
    apply (IH _ {| connected := connected k; options := options k; emits := S (emits k);
                   throws := throws k; delivered := delivered k; result := result k |}).
    + unfold sendMessage. simpl. rewrite Hk, Hc. unfold socket_emit. rewrite Hthr0. simpl. by rewrite Hc.
    + done.
    + unfold sendMessage. simpl. rewrite Hk, Hc. unfold socket_emit. rewrite Hthr0.
      simpl. by destruct q.
    + simpl. intros i Hi. apply Hthr. lia.
Qed.

(** The statement above on a concrete input. *)
Lemma flush_never_ends_while_emit_throws_witness :
  let m := {| cm_type := "audio_data"; cm_timestamp := 0;
              cm_data := other_data "{}"; cm_message_id := (0, 0%nat) |} in
  let up := {| connected := true; options := socketOptions; emits := 0;
               throws := λ _, true; delivered := []; result := opened |} in
  flushMessageQueue 1000
    (set_messageQueue [m] (set_socket (Some up) WebSocketService.init)) = None.
Proof.
  cbv zeta.
  by eapply (flush_never_ends_while_emit_throws 1000).
Defined.

(** X15.  A queued message whose [socket.emit] throws during a flush is
    put back at the end of the queue: when only the first emit of the
    flush throws, the flush sends the rest of the queue first and that
    message last, and empties the queue. *)
Theorem a_thrown_message_is_sent_last
    (s : WebSocketService.t) (k : Socket) (m : ClientMessage) (q : list ClientMessage) :
  socket s = Some k → connected k = true → messageQueue s = m :: q →
  throws k (emits k) = true →
  (∀ i, (1 ≤ i ≤ S (length q))%nat → throws k (emits k + i) = false) →
  ∃ s', flushMessageQueue (S (S (length q))) s = Some s'
        ∧ transported s' = transported s ++ q ++ [m]
        ∧ messageQueue s' = [].
Proof.
  intros Hk Hc Hq Hthr Hok.
  set (k1 := {| connected := connected k; options := options k; emits := S (emits k);
                throws := throws k; delivered := delivered k; result := result k |}).
  set (s1 := set_messageQueue (q ++ [m]) (set_socket (Some k1) s)).
  assert (H1 : sendMessage m (set_messageQueue q s) = s1).
  { unfold sendMessage. simpl. rewrite Hk, Hc. unfold socket_emit. by rewrite Hthr. }
  pose proof (flushMessageQueue_accepts (q ++ [m]) s1 k1 eq_refl Hc) as H2.
  rewrite length_app in H2. simpl in H2. rewrite Nat.add_1_r in H2.
  eexists. split.
  - simpl. rewrite Hq. unfold isConnected. rewrite Hk, Hc. rewrite H1.
    apply H2; [|done].
    intros i Hi. replace (S (emits k + i)) with (emits k + S i)%nat by lia.
    apply Hok. lia.
  - simpl. unfold transported. by rewrite Hk.
Qed.

(** The statement above on a concrete input. *)
Lemma a_thrown_message_is_sent_last_witness :
  let m (i : nat) := {| cm_type := "audio_data"; cm_timestamp := 0;
                        cm_data := other_data "{}"; cm_message_id := (0, i) |} in
  let up := {| connected := true; options := socketOptions; emits := 0;
               throws := λ i, bool_decide (i = 0%nat); delivered := [];
               result := opened |} in
  let s := set_messageQueue [m 1%nat; m 2%nat; m 3%nat]
             (set_socket (Some up) WebSocketService.init) in
  ∃ s', flushMessageQueue 4 s = Some s'
        ∧ transported s' = [m 2%nat; m 3%nat; m 1%nat].
Proof.
  intros m up s.
  destruct (a_thrown_message_is_sent_last s up (m 1%nat) [m 2%nat; m 3%nat])
    as (s' & H1 & H2 & _); [reflexivity | reflexivity | reflexivity | reflexivity | |].
  - intros i Hi. simpl. apply bool_decide_eq_false_2. lia.
  - exists s'. split; [exact H1 | exact H2].
Defined.

Lemma sendMessage_queue_grows (m : ClientMessage) (s : WebSocketService.t) :
  messageQueue s `prefix_of` messageQueue (sendMessage m s).
Proof.
  destruct (sendMessage_holds m s) as [[_ ->]|[_ ->]]; [done|]. by apply prefix_app_r.
Qed.

Lemma sendMessage_attempt (m : ClientMessage) (s : WebSocketService.t) :
  isConnecting (sendMessage m s) = isConnecting s.
Proof.
  unfold sendMessage. destruct (socket s) as [k|]; [|done].
  destruct (connected k); [|done]. unfold socket_emit. by destruct (throws k (emits k)).
Qed.

(** What the handling of a server message leaves alone. *)
Lemma handleMessage_wire (m : ServerMessage) (s : WebSocketService.t) :
  socket (handleMessage m s) = socket s
  ∧ isConnecting (handleMessage m s) = isConnecting s
  ∧ messageQueue (handleMessage m s) = messageQueue s
  ∧ heartbeatInterval (handleMessage m s) = heartbeatInterval s.
Proof.
  unfold handleMessage.
  match goal with |- context [emit (sm_type m) _ ?s1] =>
    assert (H1 : socket s1 = socket s ∧ isConnecting s1 = isConnecting s
                 ∧ messageQueue s1 = messageQueue s
                 ∧ heartbeatInterval s1 = heartbeatInterval s);
    [|generalize dependent s1] end.
  { destruct (decide _); [|done]. destruct (sm_data m) as [d|]; [|done].
    destruct (sd_session_id d) as [sid|]; [|done]. destruct (decide _); [done|].
    unfold setSessionId.
    destruct (emit_same_connection "session_id_changed" (with_sessionId sid)
                (set_sessionId (Some sid) s)) as (-> & _ & -> & -> & -> & _). done. }
  intros s1 (E1 & E2 & E3 & E4).
  destruct (emit_same_connection "message" (from_server m)
              (emit (sm_type m) (from_server m) s1)) as (-> & _ & -> & -> & -> & _).
  destruct (emit_same_connection (sm_type m) (from_server m) s1)
    as (-> & _ & -> & -> & -> & _). done.
Qed.

(** What a timer that runs leaves alone, and what it may add. *)
Lemma runTimer_wire (id : nat) (s : WebSocketService.t) :
  isConnecting (runTimer id s) = isConnecting s
  ∧ heartbeatInterval (runTimer id s) = heartbeatInterval s
  ∧ messageQueue s `prefix_of` messageQueue (runTimer id s).
Proof.
  unfold runTimer. destruct (timers s !! id) as [tm|]; [|done].
  match goal with |- context [task tm] =>
    match goal with |- context [off _ _ ?s1] =>
      assert (H1 : isConnecting s1 = isConnecting s
                   ∧ heartbeatInterval s1 = heartbeatInterval s
                   ∧ messageQueue s1 = messageQueue s)
        by (by destruct (period tm));
      generalize dependent s1 end end.
  intros s1 (E1 & E2 & E3). destruct (task tm) as [c rt|].
  - match goal with |- context [settle ?c ?p ?s2] =>
      destruct (settle_same_connection c p s2) as (_ & _ & -> & -> & -> & _) end.
    match goal with |- context [off ?ev ?cb ?s2] =>
      destruct (off_same_connection ev cb s2) as (_ & _ & -> & -> & -> & _) end.
    by rewrite E1, E2, E3.
  - destruct (isConnected s1); [|by rewrite E1, E2, E3].
    unfold sendHeartbeatResponse, generateMessageId.
    rewrite sendMessage_attempt.
    match goal with |- context [sendMessage ?m ?s2] =>
      destruct (sendMessage_core m s2) as (_ & _ & _ & _ & _ & -> & _);
      pose proof (sendMessage_queue_grows m s2) as Hq end.
    simpl in *. by rewrite E1, E2, <- E3.
Qed.

Lemma sendConnectionRequest_wire (clientId : string) (caps : list string)
    (s : WebSocketService.t) :
  isConnecting (sendConnectionRequest clientId caps s).2 = isConnecting s
  ∧ heartbeatInterval (sendConnectionRequest clientId caps s).2 = heartbeatInterval s
  ∧ messageQueue s `prefix_of` messageQueue (sendConnectionRequest clientId caps s).2.
Proof.
  rewrite sendConnectionRequest_unfold. unfold sendWithResponse. cbn [snd].
  rewrite sendMessage_attempt.
  match goal with |- context [sendMessage ?m ?s2] =>
    destruct (sendMessage_core m s2) as (_ & _ & _ & _ & _ & -> & _);
    pose proof (sendMessage_queue_grows m s2) as Hq end.
  done.
Qed.

Lemma exec_queue_grows (fuel : nat) (l : Label) (s s' : WebSocketService.t) :
  exec fuel l s = Some s' → (∀ n, l ≠ socket_says (ev_reconnect n)) →
  messageQueue s `prefix_of` messageQueue s'.
Proof.
  intros Hstep Hl.
  destruct l as [io|notify|m|sid a n f|c caps|ev n|ev n|sid|e|id|t]; cbn [exec] in Hstep.
  - apply (inj Some) in Hstep; subst s'. unfold connect.
    destruct (isConnected s || isConnecting s); [done|]. by destruct io.
  - apply (inj Some) in Hstep; subst s'.
    by destruct (disconnect_frame notify s) as (-> & _).
  - apply (inj Some) in Hstep; subst s'. apply sendMessage_queue_grows.
  - apply (inj Some) in Hstep; subst s'. unfold sendAudioData, generateMessageId.
    match goal with |- context [sendMessage ?m ?s2] =>
      apply (sendMessage_queue_grows m s2) end.
  - apply (inj Some) in Hstep; subst s'. apply sendConnectionRequest_wire.
  - by apply (inj Some) in Hstep; subst s'.
  - apply (inj Some) in Hstep; subst s'.
    by destruct (off_same_connection ev (listener <$> n) s) as (_ & _ & _ & _ & -> & _).
  - apply (inj Some) in Hstep; subst s'. unfold setSessionId.
    match goal with |- context [emit ?e ?p ?s0] =>
      by destruct (emit_same_connection e p s0) as (_ & _ & _ & _ & -> & _) end.
  - unfold onSocket in Hstep. destruct (socket s) as [k|] eqn:Hk;
      [|by apply (inj Some) in Hstep; subst s'].
    destruct e as [| |reason|name m|n|n|name].
    + destruct (onSocket_connect fuel s k Hk) as (s1 & H1 & _ & Hq).
      unfold onSocket in H1. rewrite Hk in H1. rewrite H1 in Hstep.
      apply (inj Some) in Hstep; subst s'. by rewrite Hq.
    + by apply (inj Some) in Hstep; subst s'.
    + apply (inj Some) in Hstep; subst s'.
      match goal with |- context [onDisconnect ?r ?s0] =>
        by destruct (onDisconnect_clears r s0) as (_ & _ & _ & -> & _) end.
    + case_bool_decide; apply (inj Some) in Hstep; subst s'; [|done].
      by destruct (handleMessage_wire m s) as (_ & _ & -> & _).
    + apply (inj Some) in Hstep; subst s'.
      match goal with |- context [emit ?e ?p ?s0] =>
        by destruct (emit_same_connection e p s0) as (_ & _ & _ & _ & -> & _) end.
    + by destruct (Hl n).
    + by apply (inj Some) in Hstep; subst s'.
  - destruct (timers s !! id) as [tm|]; [|done].
    case_bool_decide; [|done]. apply (inj Some) in Hstep; subst s'.
    apply runTimer_wire.
  - case_bool_decide; [|done]. by apply (inj Some) in Hstep; subst s'.
Qed.

(** X16.  Nothing but the ['reconnect'] event of the socket takes a
    message out of the queue: along any run without that event the queue
    at the start is a prefix of the queue at the end.  In particular the
    ['connect'] event of a first connection does not send what was
    queued before it. *)
Theorem queue_only_grows_until_reconnect
    (s s' : WebSocketService.t) (ls : list Label) :
  run s ls s' → (∀ n, socket_says (ev_reconnect n) ∉ ls) →
  messageQueue s `prefix_of` messageQueue s'.
Proof.
  induction 1 as [s|s l s1 ls s2 [fuel Hstep] Hrun IH]; intros Hls; [done|].
  transitivity (messageQueue s1).
  - eapply exec_queue_grows; [done|]. intros n ->. apply (Hls n). left.
  - apply IH. intros n Hn. apply (Hls n). by right.
Qed.

(** The statement above on a concrete input. *)
Lemma queue_only_grows_until_reconnect_witness :
  let m := {| cm_type := "audio_data"; cm_timestamp := 0;
              cm_data := other_data "{}"; cm_message_id := (0, 0%nat) |} in
  let ls := [call_connect (Some (λ _, false)); socket_says ev_connect;
             time_passes 30000; timer_fires 0] in
  ∃ s, execs 0 ls (sendMessage m WebSocketService.init) = Some s
       ∧ [m] `prefix_of` messageQueue s
       ∧ cm_type <$> transported s = ["heartbeat_response"].
Proof.
  intros m ls.
  destruct (execs 0 ls (sendMessage m WebSocketService.init)) as [s|] eqn:E;
    [|by vm_compute in E].
  exists s. split; [done|]. split.
  - apply (queue_only_grows_until_reconnect (sendMessage m WebSocketService.init) s ls).
    + by apply (execs_run 0).
    + intros n Hn. subst ls.
      repeat (apply elem_of_cons in Hn as [Hn|Hn]; [discriminate|]).
      by apply elem_of_nil in Hn.
  - vm_compute in E. injection E as <-. reflexivity.
Defined.






End QueueLife.

(* ===================================================================== *)
(** * The heartbeat follows the connection *)
(* ===================================================================== *)

Section Heartbeat.

Import WebSocketService.

#[local] Arguments off : simpl never.
#[local] Arguments on : simpl never.
#[local] Arguments settle : simpl never.
#[local] Arguments clearTimer : simpl never.
#[local] Arguments emit : simpl never.
#[local] Arguments sendMessage : simpl never.
#[local] Arguments startHeartbeat : simpl never.
#[local] Arguments stopHeartbeat : simpl never.
#[local] Arguments onDisconnect : simpl never.

Lemma keeps_beat_refl (s : WebSocketService.t) : keeps_beat s s.
Proof. by repeat split. Qed.

Lemma keeps_beat_trans (s1 s2 s3 : WebSocketService.t) :
  keeps_beat s1 s2 → keeps_beat s2 s3 → keeps_beat s1 s3.
Proof.
  intros (A1 & A2 & A3) (B1 & B2 & B3). split; [congruence|]. split; [congruence|].
  intros id Hid Htm. apply B3; [congruence|]. by apply A3.
Qed.

Lemma keeps_beat_same (s s' : WebSocketService.t) :
  socket s' = socket s → heartbeatInterval s' = heartbeatInterval s →
  timers s' = timers s → keeps_beat s s'.
Proof.
  intros E1 E2 E3. split; [unfold isConnected; by rewrite E1|]. split; [done|].
  intros id _. by rewrite E3.
Qed.

Lemma ticking_kept (s s' : WebSocketService.t) :
  keeps_beat s s' → ticking s → ticking s'.
Proof.
  intros (_ & E2 & Ht) H id Hid. rewrite E2 in Hid. apply Ht; [done|]. by apply H.
Qed.

Lemma beats_kept (s s' : WebSocketService.t) :
  keeps_beat s s' → beats s → beats s'.
Proof.
  intros HK [H1 H2]. split; [|by apply (ticking_kept s)].
  destruct HK as (E1 & E2 & _). by rewrite E1, E2.
Qed.

Lemma invoke_beat (ev : string) (cb : Callback) (data : Payload)
    (s : WebSocketService.t) (hb : nat) :
  Inv s → cb ∈ listeners ev s → heartbeatInterval s = Some hb →
  is_Some (timers s !! hb) →
  timers (invoke cb data s) !! hb = timers s !! hb.
Proof.
  intros HI Hcb Hhb [tm Htm]. destruct cb as [c rt tid|n]; [|done].
  simpl. destruct data as [m| | | |]; try done.
  destruct (decide _); [|done].
  destruct (settle_core c (resolved m)
              (off rt (Some (responseHandler c rt tid)) (clearTimer tid s)))
    as (-> & _).
  destruct (off_core rt (Some (responseHandler c rt tid)) (clearTimer tid s))
    as (-> & _).
  unfold clearTimer. simpl. apply lookup_delete_ne. intros ->.
  destruct (inv_handler s HI _ _ _ _ Hcb) as (_ & _ & _ & Htask).
  destruct (inv_interval s HI _ Hhb) as [_ Hbeat].
  specialize (Htask _ Htm). specialize (Hbeat _ Htm). congruence.
Qed.

Lemma forEach_beat (event : string) (data : Payload) (hb : nat) (n : nat) :
  ∀ (k : nat) (s : WebSocketService.t),
    Inv s → heartbeatInterval s = Some hb → is_Some (timers s !! hb) →
    timers (forEach event data k n s) !! hb = timers s !! hb.
Proof.
  induction n as [|n IH]; intros k s HI Hhb Htm; [done|].
  simpl. destruct (listeners event s !! k) as [cb|] eqn:Hk; [|by apply IH].
  apply list_elem_of_lookup_2 in Hk.
  pose proof (invoke_beat event cb data s hb HI Hk Hhb Htm) as E.
  rewrite IH; [done| by eapply Inv_invoke | | by rewrite E].
  by destruct (invoke_same_connection cb data s) as (_ & _ & -> & _).
Qed.

Lemma emit_beat (event : string) (data : Payload) (s : WebSocketService.t) (hb : nat) :
  Inv s → heartbeatInterval s = Some hb → is_Some (timers s !! hb) →
  timers (emit event data s) !! hb = timers s !! hb.
Proof.
  intros HI Hhb Htm. unfold emit. simpl.
  destruct (eventListeners s !! event) as [l|]; [|done].
  rewrite forEach_beat; try done. by apply (Inv_core s).
Qed.

Lemma keeps_beat_emit (event : string) (data : Payload) (s : WebSocketService.t) :
  Inv s → keeps_beat s (emit event data s).
Proof.
  intros HI. split; [|split].
  - unfold isConnected. by destruct (emit_same_connection event data s) as (-> & _).
  - by destruct (emit_same_connection event data s) as (_ & _ & -> & _).
  - intros id Hid Htm. by rewrite emit_beat.
Qed.

Lemma keeps_beat_sendMessage (m : ClientMessage) (s : WebSocketService.t) :
  keeps_beat s (sendMessage m s).
Proof.
  destruct (sendMessage_core m s) as (Et & _ & _ & _ & _ & Eh & _ & _ & Ec).
  split; [done|]. split; [done|]. intros id _. by rewrite Et.
Qed.

Lemma keeps_beat_handleMessage (m : ServerMessage) (s : WebSocketService.t) :
  Inv s → keeps_beat s (handleMessage m s).
Proof.
  intros HI. unfold handleMessage.
  match goal with |- context [emit (sm_type m) _ ?s1] =>
    assert (H1 : Inv s1 ∧ keeps_beat s s1); [|generalize dependent s1] end.
  { destruct (decide _); [|by split; [|apply keeps_beat_refl]].
    destruct (sm_data m) as [d|]; [|by split; [|apply keeps_beat_refl]].
    destruct (sd_session_id d) as [sid|]; [|by split; [|apply keeps_beat_refl]].
    destruct (decide _); [by split; [|apply keeps_beat_refl]|].
    split; [by apply Inv_setSessionId|]. unfold setSessionId.
    eapply (keeps_beat_trans _ (set_sessionId (Some sid) s)); [by apply keeps_beat_same|].
    apply keeps_beat_emit. by apply (Inv_core s). }
  intros s1 [HI1 HK1].
  eapply keeps_beat_trans; [exact HK1|].
  eapply keeps_beat_trans; [by apply keeps_beat_emit|].
  apply keeps_beat_emit. by apply Inv_emit.
Qed.

Lemma keeps_beat_runTimer (id : nat) (s : WebSocketService.t) :
  Inv s → keeps_beat s (runTimer id s).
Proof.
  intros HI. split; [|split].
  - by destruct (runTimer_keeps id s) as (_ & -> & _).
  - by destruct (runTimer_wire id s) as (_ & -> & _).
  - intros hb Hhb [tmb Htmb]. unfold runTimer.
    destruct (timers s !! id) as [tm|] eqn:Hid; [|by eexists].
    destruct (inv_interval s HI _ Hhb) as [_ Hbeat]. specialize (Hbeat _ Htmb).
    destruct (task tm) as [c rt|] eqn:Htask.
    + destruct (inv_timeout s HI _ _ _ _ Hid Htask) as [_ Hp]. rewrite Hp.
      match goal with |- context [settle ?c ?p ?s2] =>
        destruct (settle_core c p s2) as (-> & _) end.
      match goal with |- context [off ?ev ?cb ?s2] =>
        destruct (off_core ev cb s2) as (-> & _) end.
      unfold clearTimer. simpl. rewrite lookup_delete_ne; [by eexists|].
      intros ->. congruence.
    + match goal with |- context [sendHeartbeatResponse ?s1] =>
        assert (H1 : is_Some (timers s1 !! hb)); [|generalize dependent s1] end.
      { destruct (period tm) eqn:Ep; simpl.
        - apply lookup_insert_is_Some. destruct (decide (id = hb)); [by left|].
          right. split; [done|by eexists].
        - unfold clearTimer. simpl. destruct (inv_heartbeat s HI _ _ Hid Htask). congruence. }
      intros s1 H1. destruct (isConnected s1); [|done].
      unfold sendHeartbeatResponse, generateMessageId.
      match goal with |- context [sendMessage ?m ?s2] =>
        by destruct (sendMessage_core m s2) as (-> & _) end.
Qed.

Lemma keeps_beat_sendConnectionRequest (clientId : string) (caps : list string)
    (s : WebSocketService.t) :
  keeps_beat s (sendConnectionRequest clientId caps s).2.
Proof.
  rewrite sendConnectionRequest_unfold. unfold sendWithResponse. cbn [snd].
  eapply keeps_beat_trans; [|apply keeps_beat_sendMessage].
  split; [done|]. split; [done|].
  intros id _ Htm. unfold on. simpl. apply lookup_insert_is_Some.
  destruct (decide (nextTimer s = id)); [by left|by right].
Qed.

Lemma keeps_beat_flush (fuel : nat) (s s' : WebSocketService.t) :
  flushMessageQueue fuel s = Some s' → keeps_beat s s'.
Proof.
  intros Hf.
  destruct (flushMessageQueue_core _ _ _ Hf) as (Et & ? & ? & ? & ? & Eh & ? & ? & Ec).
  split; [done|]. split; [done|]. intros id _. by rewrite Et.
Qed.

(** [startHeartbeat] leaves one interval armed, under the id it stores. *)
Lemma startHeartbeat_arms (s : WebSocketService.t) :
  ∃ id, heartbeatInterval (startHeartbeat s) = Some id
        ∧ timers (startHeartbeat s) !! id
          = Some {| due := now s + 30000; period := Some 30000; task := heartbeatTick |}.
Proof.
  unfold startHeartbeat. simpl. eexists. split; [done|].
  rewrite lookup_insert_eq. unfold stopHeartbeat.
  by destruct (heartbeatInterval s).
Qed.

(** A step of the service keeps the heartbeat as it is, or stops it with
    the connection down, or starts it with the connection up. *)
Lemma exec_beat (fuel : nat) (l : Label) (s s' : WebSocketService.t) :
  Inv s → exec fuel l s = Some s' →
  keeps_beat s s'
  ∨ (isConnected s' = false ∧ heartbeatInterval s' = None)
  ∨ (isConnected s' = true ∧ ∃ id, heartbeatInterval s' = Some id
                                   ∧ is_Some (timers s' !! id)).
Proof.
  intros HI Hstep.
  destruct l as [io|notify|m|sid a n f|c caps|ev n|ev n|sid|e|id|t]; cbn [exec] in Hstep.
  - apply (inj Some) in Hstep; subst s'. left. unfold connect.
    destruct (isConnected s || isConnecting s) eqn:E; [apply keeps_beat_refl|].
    apply orb_false_iff in E as [E _].
    destruct io; [|by apply keeps_beat_same]. by repeat split.
  - apply (inj Some) in Hstep; subst s'. destruct (socket s) as [k|] eqn:Hk.
    + right. left. destruct (disconnect_frame notify s) as (_ & _ & H).
      destruct H as (_ & Hh & Hs); [by rewrite Hk|].
      split; [|done]. unfold isConnected. by rewrite Hs.
    + left. unfold disconnect. rewrite Hk. apply keeps_beat_refl.
  - apply (inj Some) in Hstep; subst s'. left. apply keeps_beat_sendMessage.
  - apply (inj Some) in Hstep; subst s'. left. unfold sendAudioData, generateMessageId.
    eapply keeps_beat_trans; [|apply keeps_beat_sendMessage]. by apply keeps_beat_same.
  - apply (inj Some) in Hstep; subst s'. left. apply keeps_beat_sendConnectionRequest.
  - apply (inj Some) in Hstep; subst s'. left. by apply keeps_beat_same.
  - apply (inj Some) in Hstep; subst s'. left.
    destruct (off_same_connection ev (listener <$> n) s) as (? & _ & ? & _).
    destruct (off_core ev (listener <$> n) s) as (? & _). by apply keeps_beat_same.
  - apply (inj Some) in Hstep; subst s'. left. unfold setSessionId.
    eapply (keeps_beat_trans _ (set_sessionId (Some sid) s)); [by apply keeps_beat_same|].
    apply keeps_beat_emit. by apply (Inv_core s).
  - unfold onSocket in Hstep. destruct (socket s) as [k|] eqn:Hk;
      [|apply (inj Some) in Hstep; subst s'; left; apply keeps_beat_refl].
    destruct e as [| |reason|name m|n|n|name].
    + apply (inj Some) in Hstep; subst s'. right. right.
      match goal with |- context [startHeartbeat ?s0] =>
        pose proof (startHeartbeat_wire s0) as (E & _);
        destruct (startHeartbeat_arms s0) as (id & Hid & Htm);
        generalize dependent (startHeartbeat s0) end.
      intros sX E Hid Htm. simpl in *. split.
      * unfold isConnected. simpl. rewrite E. simpl. unfold settle_opening.
        by destruct (result (set_connected true k)).
      * exists id. split; [done|]. by eexists.
    + apply (inj Some) in Hstep; subst s'. left. split; [|by split].
      unfold isConnected. rewrite Hk. simpl. unfold settle_opening.
      by destruct (result k).
    + apply (inj Some) in Hstep; subst s'. right. left.
      match goal with |- context [onDisconnect ?r ?s0] =>
        destruct (onDisconnect_clears r s0) as (_ & Hh & Hs & _) end.
      split; [|done]. unfold isConnected. by rewrite Hs.
    + case_bool_decide; apply (inj Some) in Hstep; subst s'; left;
        [by apply keeps_beat_handleMessage|apply keeps_beat_refl].
    + apply (inj Some) in Hstep; subst s'. left. by apply keeps_beat_emit.
    + destruct (flushMessageQueue fuel s) as [s1|] eqn:Hf; [|done].
      simpl in Hstep. apply (inj Some) in Hstep; subst s'. left.
      eapply keeps_beat_trans; [by eapply keeps_beat_flush|].
      apply keeps_beat_emit.
      destruct (flushMessageQueue_core _ _ _ Hf) as (?&?&?&?&?&?&_).
      by apply (Inv_core s).
    + apply (inj Some) in Hstep; subst s'. left. apply keeps_beat_refl.
  - destruct (timers s !! id) as [tm|]; [|done].
    case_bool_decide; [|done]. apply (inj Some) in Hstep; subst s'. left.
    by apply keeps_beat_runTimer.
  - case_bool_decide; [|done]. apply (inj Some) in Hstep; subst s'. left.
    by apply keeps_beat_same.
Qed.

(** An event of a replaced socket keeps the heartbeat as it is, or stops
    it, or starts it; the connection of the service stays as it is. *)
Lemma onReplaced_beat (fuel : nat) (e : SocketEvent) (s s' : WebSocketService.t) :
  Inv s → onReplaced fuel e s = Some s' →
  isConnected s' = isConnected s
  ∧ (keeps_beat s s'
     ∨ heartbeatInterval s' = None
     ∨ ∃ id, heartbeatInterval s' = Some id ∧ is_Some (timers s' !! id)).
Proof.
  intros HI. unfold onReplaced. destruct e as [| |reason|name m|n|n|name].
  - intros H. apply (inj Some) in H. subst s'.
    match goal with |- context [startHeartbeat ?s0] =>
      pose proof (startHeartbeat_wire s0) as (E & _);
      destruct (startHeartbeat_arms s0) as (id & Hid & Htm);
      generalize dependent (startHeartbeat s0) end.
    intros sX E Hid Htm. simpl in *. split; [unfold isConnected; by rewrite E|].
    right. right. exists id. split; [done|]. by eexists.
  - intros [= <-]. split; [done|]. left. by apply keeps_beat_same.
  - intros H. apply (inj Some) in H. subst s'.
    destruct (onDisconnect_clears reason s) as (_ & Hh & Hs & _).
    split; [unfold isConnected; by rewrite Hs|]. by right; left.
  - case_bool_decide as Hname; intros H; apply (inj Some) in H; subst s'.
    + pose proof (keeps_beat_handleMessage m s HI) as HK.
      split; [by destruct HK|by left].
    + split; [done|]. left. apply keeps_beat_refl.
  - intros H. apply (inj Some) in H. subst s'.
    pose proof (keeps_beat_emit "reconnect_attempt" (with_attempt n) s HI) as HK.
    split; [by destruct HK|by left].
  - destruct (flushMessageQueue fuel s) as [s1|] eqn:Hf; [|done].
    simpl. intros H. apply (inj Some) in H. subst s'.
    assert (HK : keeps_beat s (emit "reconnect" (with_attempts n) s1)).
    { eapply keeps_beat_trans; [by eapply keeps_beat_flush|].
      apply keeps_beat_emit.
      destruct (flushMessageQueue_core _ _ _ Hf) as (?&?&?&?&?&?&_).
      by apply (Inv_core s). }
    split; [by destruct HK|by left].
  - intros [= <-]. split; [done|]. left. apply keeps_beat_refl.
Qed.

Lemma Inv_onReplaced (fuel : nat) (e : SocketEvent) (s s' : WebSocketService.t) :
  Inv s → onReplaced fuel e s = Some s' → Inv s'.
Proof.
  intros HI. unfold onReplaced. destruct e as [| |reason|name m|n|n|name].
  - intros H. apply (inj Some) in H. subst s'.
    apply Inv_startHeartbeat. by apply (Inv_core s).
  - intros [= <-]. by apply (Inv_core s).
  - intros H. apply (inj Some) in H. subst s'. by apply Inv_onDisconnect.
  - case_bool_decide as Hname; intros H; apply (inj Some) in H; subst s'; [|done].
    by apply Inv_handleMessage.
  - intros H. apply (inj Some) in H. subst s'. by apply Inv_emit.
  - destruct (flushMessageQueue fuel s) as [s1|] eqn:Hf; [|done].
    simpl. intros H. apply (inj Some) in H. subst s'. apply Inv_emit.
    destruct (flushMessageQueue_core _ _ _ Hf) as (?&?&?&?&?&?&_).
    by apply (Inv_core s).
  - by intros [= <-].
Qed.

(** What holds of the heartbeat in every world: the tables are sound, a
    stored interval is armed, and as long as no socket was replaced the
    heartbeat follows the connection. *)
Lemma happens_beat (fuel : nat) (h : Happening) (w w' : World) :
  happens fuel h w = Some w' →
  Inv (service w) ∧ ticking (service w)
  ∧ (replaced w = 0%nat → beats (service w)) →
  Inv (service w') ∧ ticking (service w')
  ∧ (replaced w' = 0%nat → beats (service w')).
Proof.
  intros Hstep (HI & HT & HB). destruct h as [l|e]; simpl in Hstep.
  - destruct (exec fuel l (service w)) as [s'|] eqn:E; [|done].
    simpl in Hstep. injection Hstep as <-. simpl.
    split; [by eapply Inv_exec|].
    destruct (exec_beat fuel l (service w) s' HI E)
      as [HK|[[Hc Hh]|(Hc & id & Hid & Htm)]].
    + split; [by apply (ticking_kept (service w))|].
      intros Hz. apply (beats_kept (service w)); [done|]. apply HB.
      destruct l; try done. by destruct (replaces io (service w)).
    + assert (Hs : beats s').
      { split; [rewrite Hc, Hh; split; [done|by intros [? ?]]|].
        intros id. by rewrite Hh. }
      split; [by destruct Hs|done].
    + assert (Hs : beats s').
      { split; [rewrite Hc, Hid; split; [by eexists|done]|].
        intros id'. rewrite Hid. by intros [= <-]. }
      split; [by destruct Hs|done].
  - destruct (0 <? replaced w)%nat eqn:Hr; [|done].
    destruct (onReplaced fuel e (service w)) as [s'|] eqn:E; [|done].
    simpl in Hstep. injection Hstep as <-. simpl.
    split; [by eapply Inv_onReplaced|]. split.
    + destruct (onReplaced_beat fuel e (service w) s' HI E)
        as (_ & [HK|[Hh|(id & Hid & Htm)]]).
      * by apply (ticking_kept (service w)).
      * intros id. by rewrite Hh.
      * intros id'. rewrite Hid. by intros [= <-].
    + apply Nat.ltb_lt in Hr. lia.
Qed.

Lemma course_beat (w w' : World) (hs : list Happening) :
  course w hs w' →
  Inv (service w) ∧ ticking (service w) ∧ (replaced w = 0%nat → beats (service w)) →
  Inv (service w') ∧ ticking (service w')
  ∧ (replaced w' = 0%nat → beats (service w')).
Proof.
  induction 1 as [w|w h w1 hs w2 [fuel Hstep] Hrun IH]; [done|].
  intros H. apply IH. by eapply happens_beat.
Qed.

Lemma happenings_course (fuel : nat) (hs : list Happening) : ∀ w w' : World,
  happenings fuel hs w = Some w' → course w hs w'.
Proof.
  induction hs as [|h hs IH]; intros w w'; simpl.
  - intros [= <-]. constructor.
  - destruct (happens fuel h w) as [w1|] eqn:H1; [|done]. simpl.
    intros H. econstructor; [by exists fuel|]. by apply IH.
Qed.

(** X18.  The service may be reached by events of sockets that
    [connect()] has replaced: it overwrites [this.socket] without closing
    a socket that is down, and the handlers of the old socket keep
    running on the service.  In every world so reached at most one
    heartbeat interval is armed, the one [heartbeatInterval] names, with
    a period of 30 s, and an interval that is named is armed.  As long as
    no socket has been replaced, the interval is armed exactly while the
    socket is connected.  Once a socket has been replaced this fails: its
    'connect' arms the heartbeat and its 'disconnect' clears it, whatever
    the connection of the current socket. *)
Theorem heartbeat_is_armed_exactly_while_connected (hs : list Happening) (w : World) :
  course world0 hs w →
  let s := service w in
  (∀ id tm, timers s !! id = Some tm → task tm = heartbeatTick →
     heartbeatInterval s = Some id ∧ period tm = Some 30000)
  ∧ (is_Some (heartbeatInterval s) ↔ heartbeatArmed s)
  ∧ (replaced w = 0%nat → (isConnected s = true ↔ heartbeatArmed s))
  ∧ ((0 < replaced w)%nat →
       (∃ w', happens 0 (replaced_says ev_connect) w = Some w'
              ∧ isConnected (service w') = isConnected s
              ∧ heartbeatArmed (service w'))
       ∧ (∀ reason, ∃ w', happens 0 (replaced_says (ev_disconnect reason)) w = Some w'
              ∧ isConnected (service w') = isConnected s
              ∧ ¬ heartbeatArmed (service w'))).
Proof.
  intros Hrun s.
  destruct (course_beat world0 w hs Hrun) as (HI & HT & HB).
  { split; [apply Inv_init|]. split; [done|]. intros _.
    split; [|done]. split; [done|]. by intros [? ?]. }
  fold s in HI, HT, HB.
  assert (Harmed : is_Some (heartbeatInterval s) ↔ heartbeatArmed s).
  { split.
    - intros [id Hid]. destruct (HT id Hid) as [tm Htm].
      destruct (inv_interval s HI id Hid) as [_ Htask]. specialize (Htask tm Htm).
      destruct (inv_heartbeat s HI id tm Htm Htask) as [_ Hp].
      by exists id, tm.
    - intros (id & tm & Hid & _). by eexists. }
  split; [by apply (inv_heartbeat s HI)|]. split; [done|]. split.
  - intros Hz. destruct (HB Hz) as [Hc _]. by rewrite Hc.
  - intros Hr. apply Nat.ltb_lt in Hr. split.
    + simpl. rewrite Hr. simpl. eexists. split; [done|]. simpl.
      match goal with |- context [startHeartbeat ?s0] =>
        pose proof (startHeartbeat_wire s0) as (E & _);
        destruct (startHeartbeat_arms s0) as (id & Hid & Htm);
        generalize dependent (startHeartbeat s0) end.
      intros sX E Hid Htm. split; [unfold isConnected; by rewrite E|].
      by exists id, {| due := now s + 30000; period := Some 30000; task := heartbeatTick |}.
    + intros reason. simpl. rewrite Hr. simpl. eexists. split; [done|]. simpl.
      destruct (onDisconnect_clears reason s) as (_ & Hh & Hs & _). fold s.
      split; [unfold isConnected; by rewrite Hs|].
      intros (id & tm & Hid & _). congruence.
Qed.

(** The statement above on two courses: one socket that connects, drops
    and connects again; and a socket that drops, is replaced by a second
    [connect()] and then reconnects by itself. *)
Lemma heartbeat_is_armed_exactly_while_connected_witness :
  (∃ w, happenings 0 [of_service (call_connect (Some (λ _, false)));
                      of_service (socket_says ev_connect);
                      of_service (socket_says (ev_disconnect "transport close"));
                      of_service (socket_says ev_connect)] world0 = Some w
        ∧ replaced w = 0%nat ∧ isConnected (service w) = true
        ∧ heartbeatArmed (service w) ∧ size (timers (service w)) = 1%nat)
  ∧ (∃ w, happenings 0 [of_service (call_connect (Some (λ _, false)));
                        of_service (socket_says ev_connect);
                        of_service (socket_says (ev_disconnect "transport close"));
                        of_service (call_connect (Some (λ _, false)));
                        replaced_says ev_connect] world0 = Some w
          ∧ replaced w = 1%nat ∧ isConnected (service w) = false
          ∧ heartbeatArmed (service w)).
Proof.
  split.
  - set (hs := [of_service (call_connect (Some (λ _, false)));
                of_service (socket_says ev_connect);
                of_service (socket_says (ev_disconnect "transport close"));
                of_service (socket_says ev_connect)]).
    destruct (happenings 0 hs world0) as [w|] eqn:E; [|by vm_compute in E].
    exists w. split; [done|].
    destruct (heartbeat_is_armed_exactly_while_connected hs w
                (happenings_course 0 _ _ _ E)) as (_ & _ & H3 & _).
    assert (Hz : replaced w = 0%nat).
    { vm_compute in E. injection E as <-. reflexivity. }
    assert (Hc : isConnected (service w) = true).
    { vm_compute in E. injection E as <-. reflexivity. }
    split; [done|]. split; [done|]. split; [by apply (H3 Hz)|].
    vm_compute in E. injection E as <-. reflexivity.
  - set (hs := [of_service (call_connect (Some (λ _, false)));
                of_service (socket_says ev_connect);
                of_service (socket_says (ev_disconnect "transport close"));
                of_service (call_connect (Some (λ _, false)));
                replaced_says ev_connect]).
    destruct (happenings 0 hs world0) as [w|] eqn:E; [|by vm_compute in E].
    exists w. split; [done|].
    destruct (heartbeat_is_armed_exactly_while_connected hs w
                (happenings_course 0 _ _ _ E)) as (_ & H2 & _).
    split; [vm_compute in E; injection E as <-; reflexivity|].
    split; [vm_compute in E; injection E as <-; reflexivity|].
    apply H2. vm_compute in E. injection E as <-. by eexists.
Defined.

End Heartbeat.

(* ===================================================================== *)
(** * Calls with a response: handlers and timeouts *)
(* ===================================================================== *)

Section Handlers.

Import WebSocketService.

#[local] Arguments off : simpl never.
#[local] Arguments on : simpl never.
#[local] Arguments settle : simpl never.
#[local] Arguments clearTimer : simpl never.
#[local] Arguments emit : simpl never.
#[local] Arguments sendMessage : simpl never.
#[local] Arguments startHeartbeat : simpl never.
#[local] Arguments stopHeartbeat : simpl never.

Lemma waiting_app (l1 l2 : list Callback) :
  waiting (l1 ++ l2) = waiting l1 ++ waiting l2.
Proof. apply omap_app. Qed.

Lemma elem_of_waiting (c : nat) (l : list Callback) :
  c ∈ waiting l ↔ ∃ rt tid, responseHandler c rt tid ∈ l.
Proof.
  unfold waiting. rewrite list_elem_of_omap. split.
  - intros ([c' rt tid|n] & Hin & Heq); [|done]. injection Heq as ->. eauto.
  - intros (rt & tid & Hin). by exists (responseHandler c rt tid).
Qed.

Lemma tidy_kept (s s' : WebSocketService.t) :
  tidy s →
  (∀ ev c rt tid, responseHandler c rt tid ∈ listeners ev s' →
     responseHandler c rt tid ∈ listeners ev s
     ∧ promises s' !! c = Some pending
     ∧ timers s' !! tid = timers s !! tid) →
  (∀ ev, waiting (listeners ev s') `sublist_of` waiting (listeners ev s)) →
  (∀ id tm c rt, timers s' !! id = Some tm → task tm = responseTimeout c rt →
     timers s !! id = Some tm ∧ promises s' !! c = promises s !! c) →
  tidy s'.
Proof.
  intros [H1 H2 H3 H4 H5] Hl Hw Ht. constructor.
  - intros ev c rt tid Hin. by destruct (Hl _ _ _ _ Hin) as (_ & ? & _).
  - intros ev c rt tid Hin. destruct (Hl _ _ _ _ Hin) as (Hin' & _ & ->). eauto.
  - intros ev. eapply sublist_NoDup; [apply H3|apply Hw].
  - intros id id' tm tm' c rt rt' Hid Htask Hid' Htask'.
    destruct (Ht _ _ _ _ Hid Htask) as [? _].
    destruct (Ht _ _ _ _ Hid' Htask') as [? _]. eauto.
  - intros id tm c rt Hid Htask. destruct (Ht _ _ _ _ Hid Htask) as [? ->]. eauto.
Qed.

Lemma tidy_same (s s' : WebSocketService.t) :
  timers s' = timers s → promises s' = promises s →
  eventListeners s' = eventListeners s → tidy s → tidy s'.
Proof.
  intros Et Ep El HT.
  assert (Hls : ∀ ev, listeners ev s' = listeners ev s).
  { intros ev. unfold listeners. by rewrite El. }
  apply (tidy_kept s); [done| | |].
  - intros ev c rt tid. rewrite Hls, Ep, Et. intros Hin. split; [done|].
    split; [|done]. by eapply tidy_pending.
  - intros ev. by rewrite Hls.
  - intros id tm c rt. by rewrite Et, Ep.
Qed.

Lemma off_waiting (event ev : string) (cb : option Callback) (s : WebSocketService.t) :
  waiting (listeners ev (off event cb s)) `sublist_of` waiting (listeners ev s).
Proof.
  destruct cb as [cb|].
  - destruct (decide (cb ∈ listeners event s)) as [Hin|Hout];
      [|by rewrite off_absent].
    apply list_elem_of_split_l in Hin as (l1 & l2 & Hl & Hcb).
    assert (Hl' : eventListeners s !! event = Some (l1 ++ cb :: l2)).
    { unfold listeners in Hl. destruct (eventListeners s !! event); [|by destruct l1].
      simpl in Hl. by rewrite Hl. }
    rewrite (off_middle _ _ _ _ _ Hl' Hcb). unfold listeners at 1 2. simpl.
    destruct (decide (event = ev)) as [->|Hne].
    + rewrite lookup_insert_eq, Hl'. simpl. rewrite !waiting_app.
      apply sublist_app; [done|]. simpl. destruct cb; [by apply sublist_cons|done].
    + by rewrite lookup_insert_ne.
  - unfold off, listeners. simpl. destruct (decide (event = ev)) as [->|Hne].
    + rewrite lookup_delete_eq. apply sublist_nil_l.
    + by rewrite lookup_delete_ne.
Qed.

Lemma tidy_off (ev : string) (cb : option Callback) (s : WebSocketService.t) :
  tidy s → tidy (off ev cb s).
Proof.
  intros HT. destruct (off_core ev cb s) as (Et & _ & _ & Ep & _).
  apply (tidy_kept s); [done| | |].
  - intros ev' c rt tid Hin. apply elem_of_listeners_off in Hin.
    rewrite Ep, Et. split; [done|]. split; [|done]. by eapply tidy_pending.
  - intros ev'. apply off_waiting.
  - intros id tm c rt. by rewrite Et, Ep.
Qed.

Lemma tidy_on_listener (ev : string) (n : nat) (s : WebSocketService.t) :
  tidy s → tidy (on ev (listener n) s).
Proof.
  intros HT. apply (tidy_kept s); [done| | |].
  - intros ev' c rt tid [Hin|[_ ?]]%elem_of_listeners_on; [|done].
    split; [done|]. split; [|done]. by eapply (tidy_pending s).
  - intros ev'. destruct (decide (ev = ev')) as [->|Hne].
    + rewrite listeners_on_eq, waiting_app. simpl. by rewrite app_nil_r.
    + by rewrite listeners_on_ne.
  - done.
Qed.

(** A call is settled by its handler or by its timeout: the timer is
    cleared, the handler unregistered, the promise settled. *)
Lemma tidy_settled (c tid : nat) (rt : string) (p : Promise) (s : WebSocketService.t) :
  Inv s → tidy s →
  (∃ tm, timers s !! tid = Some tm ∧ task tm = responseTimeout c rt) →
  tidy (settle c p (off rt (Some (responseHandler c rt tid)) (clearTimer tid s))).
Proof.
  intros HI HT (tm & Htid & Htask). set (h := responseHandler c rt tid).
  destruct (settle_core c p (off rt (Some h) (clearTimer tid s)))
    as (Et & _ & _ & El & _ & _).
  destruct (off_core rt (Some h) (clearTimer tid s)) as (Et' & _ & _ & Ep' & _).
  assert (Hls : ∀ ev, listeners ev (settle c p (off rt (Some h) (clearTimer tid s)))
                      = listeners ev (off rt (Some h) s)).
  { intros ev. unfold listeners. by rewrite El, off_clearTimer. }
  assert (Hgone : h ∉ listeners rt (off rt (Some h) s)).
  { destruct (decide (h ∈ listeners rt s)) as [Hin|Hout]; [|by rewrite off_absent].
    apply list_elem_of_split_l in Hin as (l1 & l2 & Hl & Hcb).
    assert (Hl' : eventListeners s !! rt = Some (l1 ++ h :: l2)).
    { unfold listeners in Hl. destruct (eventListeners s !! rt); [|by destruct l1].
      simpl in Hl. by rewrite Hl. }
    rewrite (off_middle _ _ _ _ _ Hl' Hcb). unfold listeners. simpl.
    rewrite lookup_insert_eq. simpl.
    pose proof (tidy_once s HT rt) as Hnd. rewrite Hl, waiting_app in Hnd.
    simpl in Hnd. apply NoDup_app in Hnd as (_ & Hd & Hnd).
    apply NoDup_cons in Hnd as [Hc2 _].
    intros [H|H]%elem_of_app; [done|].
    apply Hc2. apply elem_of_waiting. eauto. }
  apply (tidy_kept s); [done| | |].
  - intros ev c' rt' tid'. rewrite Hls. intros Hin.
    pose proof (elem_of_listeners_off _ _ _ _ _ Hin) as Hin0.
    destruct (tidy_armed s HT _ _ _ _ Hin0) as (tm' & Htid' & Htask').
    destruct (inv_handler s HI _ _ _ _ Hin0) as (-> & _).
    assert (Hc : c' ≠ c).
    { intros ->. pose proof (tidy_timer s HT _ _ _ _ _ _ _ Htid Htask Htid' Htask') as ->.
      rewrite Htid in Htid'. injection Htid' as <-.
      rewrite Htask in Htask'. injection Htask' as <-. done. }
    assert (Ht : tid' ≠ tid).
    { intros ->. rewrite Htid in Htid'. injection Htid' as <-. congruence. }
    split; [done|]. split.
    + rewrite settle_other by done. rewrite Ep'. unfold clearTimer. simpl.
      by apply (tidy_pending s HT _ _ _ _ Hin0).
    + rewrite Et, Et'. unfold clearTimer. simpl. by apply lookup_delete_ne.
  - intros ev. rewrite Hls. apply off_waiting.
  - intros id tm0 c0 rt0 Hid0 Htask0. rewrite Et, Et' in Hid0.
    unfold clearTimer in Hid0. simpl in Hid0.
    apply lookup_delete_Some in Hid0 as [Hne H]. split; [done|].
    assert (Hc0 : c0 ≠ c).
    { intros ->. by pose proof (tidy_timer s HT _ _ _ _ _ _ _ Htid Htask H Htask0). }
    rewrite settle_other by done. by rewrite Ep'.
Qed.

Lemma tidy_invoke (ev : string) (cb : Callback) (data : Payload) (s : WebSocketService.t) :
  Inv s → tidy s → cb ∈ listeners ev s → tidy (invoke cb data s).
Proof.
  intros HI HT Hin. destruct cb as [c rt tid|n]; simpl.
  - destruct data as [m| | | |]; try done.
    destruct (decide (sm_type m = rt)); [|done].
    apply tidy_settled; [done..|]. by eapply tidy_armed.
  - by apply (tidy_same s).
Qed.

Lemma tidy_forEach (event : string) (data : Payload) (n : nat) :
  ∀ (k : nat) (s : WebSocketService.t), Inv s → tidy s → tidy (forEach event data k n s).
Proof.
  induction n as [|n IH]; intros k s HI HT; simpl; [done|].
  destruct (listeners event s !! k) as [cb|] eqn:Hk; [|by apply IH].
  apply list_elem_of_lookup_2 in Hk.
  apply IH; [by eapply Inv_invoke | by eapply tidy_invoke].
Qed.

Lemma tidy_emit (event : string) (data : Payload) (s : WebSocketService.t) :
  Inv s → tidy s → tidy (emit event data s).
Proof.
  intros HI HT. unfold emit. simpl.
  assert (Inv (set_emitted (emitted s ++ [(event, data)]) s)) by by apply (Inv_core s).
  assert (tidy (set_emitted (emitted s ++ [(event, data)]) s)) by by apply (tidy_same s).
  destruct (eventListeners s !! event); [by apply tidy_forEach|done].
Qed.

Lemma tidy_handleMessage (m : ServerMessage) (s : WebSocketService.t) :
  Inv s → tidy s → tidy (handleMessage m s).
Proof.
  intros HI HT. unfold handleMessage.
  match goal with |- context [emit (sm_type m) _ ?s1] =>
    assert (H1 : Inv s1 ∧ tidy s1); [|generalize dependent s1] end.
  { destruct (decide _); [|done]. destruct (sm_data m) as [d|]; [|done].
    destruct (sd_session_id d) as [sid|]; [|done]. destruct (decide _); [done|].
    split; [by apply Inv_setSessionId|]. unfold setSessionId.
    apply tidy_emit; [by apply (Inv_core s)|]. by apply (tidy_same s). }
  intros s1 [HI1 HT1]. apply tidy_emit; [by apply Inv_emit|]. by apply tidy_emit.
Qed.

Lemma tidy_sendMessage (m : ClientMessage) (s : WebSocketService.t) :
  tidy s → tidy (sendMessage m s).
Proof.
  destruct (sendMessage_core m s) as (Et & _ & _ & Ep & El & _). by apply tidy_same.
Qed.

Lemma tidy_sendWithResponse (msg : ClientMessage) (rt : string) (s : WebSocketService.t) :
  Inv s → tidy s → tidy (sendWithResponse msg rt s).2.
Proof.
  intros HI [T1 T2 T3 T4 T5].
  destruct (sendWithResponse_core msg rt s) as (_ & Et & _ & _ & Ep & El & _).
  set (s' := (sendWithResponse msg rt s).2) in *.
  set (c0 := length (promises s)) in *. set (t0 := nextTimer s) in *.
  assert (Hl : ∀ ev cb, cb ∈ listeners ev s' →
            cb ∈ listeners ev s ∨ (ev = rt ∧ cb = responseHandler c0 rt t0)).
  { intros ev cb. unfold listeners at 1. rewrite El.
    destruct (decide (rt = ev)) as [->|Hne].
    - rewrite lookup_insert_eq. simpl. rewrite elem_of_app, list_elem_of_singleton.
      intros [H|H]; [by left|by right].
    - rewrite lookup_insert_ne by done. by left. }
  constructor.
  - intros ev c rt' tid [Hin|[-> [= -> -> ->]]]%Hl; rewrite Ep.
    + rewrite lookup_app_l; [by eapply T1|].
      by destruct (inv_handler s HI _ _ _ _ Hin) as (_ & ? & _).
    + by rewrite lookup_app_r, Nat.sub_diag.
  - intros ev c rt' tid [Hin|[-> [= -> -> ->]]]%Hl; rewrite Et.
    + destruct (T2 _ _ _ _ Hin) as (tm & Htm & Htask). exists tm.
      rewrite lookup_insert_ne; [done|]. apply (inv_fresh s HI) in Htm. subst t0. lia.
    + rewrite lookup_insert_eq. by eexists.
  - intros ev. unfold listeners. rewrite El. destruct (decide (rt = ev)) as [->|Hne].
    + rewrite lookup_insert_eq. simpl. rewrite waiting_app. simpl.
      apply NoDup_app. split; [apply T3|]. split; [|apply NoDup_singleton].
      intros c [rt' [tid Hin]]%elem_of_waiting. rewrite list_elem_of_singleton. intros ->.
      destruct (inv_handler s HI _ _ _ _ Hin) as (_ & ? & _). subst c0. lia.
    + rewrite lookup_insert_ne by done. apply T3.
  - intros id id' tm tm' c rt1 rt2. rewrite Et.
    intros [[<- <-]|[Hne1 H1]]%lookup_insert_Some Htask1
           [[<- <-]|[Hne2 H2]]%lookup_insert_Some Htask2; simpl in *.
    + done.
    + injection Htask1 as <- <-.
      destruct (inv_timeout s HI _ _ _ _ H2 Htask2). subst c0. lia.
    + injection Htask2 as <- <-.
      destruct (inv_timeout s HI _ _ _ _ H1 Htask1). subst c0. lia.
    + eauto.
  - intros id tm c rt'. rewrite Et, Ep.
    intros [[<- <-]|[Hne H]]%lookup_insert_Some Htask; simpl in *.
    + injection Htask as <- <-. by rewrite lookup_app_r, Nat.sub_diag.
    + rewrite lookup_app_l; [by eapply T5|].
      by destruct (inv_timeout s HI _ _ _ _ H Htask).
Qed.

(** Timers that are not timeouts come and go. *)
Lemma tidy_timers (s s' : WebSocketService.t) :
  tidy s → promises s' = promises s → eventListeners s' = eventListeners s →
  (∀ id tm c rt, timers s !! id = Some tm → task tm = responseTimeout c rt →
     timers s' !! id = Some tm) →
  (∀ id tm c rt, timers s' !! id = Some tm → task tm = responseTimeout c rt →
     timers s !! id = Some tm) →
  tidy s'.
Proof.
  intros HT Ep El Hkeep Hback.
  assert (Hls : ∀ ev, listeners ev s' = listeners ev s).
  { intros ev. unfold listeners. by rewrite El. }
  destruct HT as [T1 T2 T3 T4 T5]. constructor.
  - intros ev c rt tid. rewrite Hls, Ep. apply T1.
  - intros ev c rt tid. rewrite Hls. intros Hin.
    destruct (T2 _ _ _ _ Hin) as (tm & Htm & Htask). eauto.
  - intros ev. rewrite Hls. apply T3.
  - intros id id' tm tm' c rt rt' H1 Ht1 H2 Ht2. eauto.
  - intros id tm c rt H1 Ht1. rewrite Ep. eauto.
Qed.

Lemma tidy_stopHeartbeat (s : WebSocketService.t) :
  Inv s → tidy s → tidy (stopHeartbeat s).
Proof.
  intros HI HT. unfold stopHeartbeat.
  destruct (heartbeatInterval s) as [hb|] eqn:Hh; [|done].
  destruct (inv_interval s HI hb Hh) as [_ Hbeat].
  apply (tidy_timers s); try done; unfold clearTimer; simpl.
  - intros id tm c rt Hid Htask. rewrite lookup_delete_ne; [done|].
    intros <-. apply Hbeat in Hid. congruence.
  - intros id tm c rt [_ H]%lookup_delete_Some. done.
Qed.

Lemma tidy_startHeartbeat (s : WebSocketService.t) :
  Inv s → tidy s → tidy (startHeartbeat s).
Proof.
  intros HI HT. pose proof (tidy_stopHeartbeat s HI HT) as HT1.
  apply Inv_stopHeartbeat in HI. unfold startHeartbeat.
  generalize dependent (stopHeartbeat s). intros s1 HI1 HT1.
  apply (tidy_timers s1); try done; simpl.
  - intros id tm c rt Hid Htask. rewrite lookup_insert_ne; [done|].
    apply (inv_fresh s1 HI1) in Hid. lia.
  - intros id tm c rt [[<- <-]|[_ H]]%lookup_insert_Some; [done|done].
Qed.

Lemma tidy_runTimer (id : nat) (s : WebSocketService.t) :
  Inv s → tidy s → tidy (runTimer id s).
Proof.
  intros HI HT. unfold runTimer. destruct (timers s !! id) as [tm|] eqn:Hid; [|done].
  destruct (task tm) as [c rt|] eqn:Htask.
  - destruct (inv_timeout s HI _ _ _ _ Hid Htask) as [_ Hp]. rewrite Hp.
    apply tidy_settled; [done..|]. by exists tm.
  - destruct (inv_heartbeat s HI _ _ Hid Htask) as [Hh Hp]. rewrite Hp.
    match goal with |- tidy (if _ then sendHeartbeatResponse ?s1 else _) =>
      assert (HT1 : tidy s1) end.
    { apply (tidy_timers s); try done; simpl.
      - intros id' tm' c rt Hid' Htask'. rewrite lookup_insert_ne; [done|].
        intros <-. congruence.
      - intros id' tm' c rt [[<- <-]|[_ H]]%lookup_insert_Some; [done|done]. }
    destruct (isConnected _); [|done].
    unfold sendHeartbeatResponse, generateMessageId. apply tidy_sendMessage.
    revert HT1. by apply tidy_same.
Qed.

Lemma tidy_onDisconnect (reason : string) (s : WebSocketService.t) :
  Inv s → tidy s → tidy (onDisconnect reason s).
Proof.
  intros HI HT. unfold onDisconnect. apply tidy_emit.
  - apply Inv_stopHeartbeat in HI. by apply (Inv_core (stopHeartbeat s)).
  - apply (tidy_same (stopHeartbeat s)); try done. by apply tidy_stopHeartbeat.
Qed.

Lemma tidy_disconnect (notify : option string) (s : WebSocketService.t) :
  Inv s → tidy s → tidy (disconnect notify s).
Proof.
  intros HI HT. unfold disconnect. destruct (socket s) as [k|]; [|done].
  pose proof (tidy_stopHeartbeat s HI HT) as HT1. apply Inv_stopHeartbeat in HI.
  match goal with |- tidy (set_sessionId None (set_socket None ?s3)) =>
    assert (H3 : tidy s3) end.
  { destruct notify as [r|].
    - apply tidy_onDisconnect; [by apply (Inv_core (stopHeartbeat s))|].
      by apply (tidy_same (stopHeartbeat s)).
    - by apply (tidy_same (stopHeartbeat s)). }
  revert H3. by apply tidy_same.
Qed.

Lemma tidy_exec (fuel : nat) (l : Label) (s s' : WebSocketService.t) :
  Inv s → tidy s → exec fuel l s = Some s' → tidy s'.
Proof.
  intros HI HT Hstep.
  destruct l as [io|notify|m|sid a n f|c caps|ev n|ev n|sid|e|id|t]; cbn [exec] in Hstep.
  - apply (inj Some) in Hstep; subst s'. unfold connect.
    destruct (isConnected s || isConnecting s); [done|].
    destruct io; by apply (tidy_same s).
  - apply (inj Some) in Hstep; subst s'. by apply tidy_disconnect.
  - apply (inj Some) in Hstep; subst s'. by apply tidy_sendMessage.
  - apply (inj Some) in Hstep; subst s'. unfold sendAudioData, generateMessageId.
    apply tidy_sendMessage. by apply (tidy_same s).
  - apply (inj Some) in Hstep; subst s'. rewrite sendConnectionRequest_unfold.
    apply tidy_sendWithResponse; [by apply (Inv_core s) | by apply (tidy_same s)].
  - apply (inj Some) in Hstep; subst s'. by apply tidy_on_listener.
  - apply (inj Some) in Hstep; subst s'. by apply tidy_off.
  - apply (inj Some) in Hstep; subst s'. unfold setSessionId.
    apply tidy_emit; [by apply (Inv_core s) | by apply (tidy_same s)].
  - unfold onSocket in Hstep. destruct (socket s) as [k|] eqn:Hk;
      [|by apply (inj Some) in Hstep; subst s'].
    destruct e as [| |reason|name m|n|n|name].
    + apply (inj Some) in Hstep; subst s'.
      match goal with |- tidy (set_socket _ ?s2) =>
        assert (H2 : tidy s2); [|revert H2; by apply tidy_same] end.
      apply tidy_startHeartbeat; [by apply (Inv_core s) | by apply (tidy_same s)].
    + apply (inj Some) in Hstep; subst s'. by apply (tidy_same s).
    + apply (inj Some) in Hstep; subst s'.
      apply tidy_onDisconnect; [by apply (Inv_core s) | by apply (tidy_same s)].
    + case_bool_decide; apply (inj Some) in Hstep; subst s'; [|done].
      by apply tidy_handleMessage.
    + apply (inj Some) in Hstep; subst s'. by apply tidy_emit.
    + destruct (flushMessageQueue fuel s) as [s1|] eqn:Hf; [|done].
      simpl in Hstep. apply (inj Some) in Hstep; subst s'.
      destruct (flushMessageQueue_core _ _ _ Hf) as (Et & ? & ? & Ep & El & ? & _).
      apply tidy_emit; [by apply (Inv_core s) | by apply (tidy_same s)].
    + by apply (inj Some) in Hstep; subst s'.
  - destruct (timers s !! id) as [tm|]; [|done].
    case_bool_decide; [|done]. apply (inj Some) in Hstep; subst s'.
    by apply tidy_runTimer.
  - case_bool_decide; [|done]. apply (inj Some) in Hstep; subst s'.
    by apply (tidy_same s).
Qed.

Lemma tidy_run (s s' : WebSocketService.t) (ls : list Label) :
  run s ls s' → Inv s → tidy s → tidy s'.
Proof.
  induction 1 as [s|s l s1 ls s2 [fuel Hstep] Hrun IH]; [done|].
  intros HI HT. apply IH; [by eapply Inv_exec | by eapply tidy_exec].
Qed.

Lemma tidy_init : tidy WebSocketService.init.
Proof.
  constructor; unfold listeners; simpl.
  - intros ev c rt tid. rewrite lookup_empty. simpl. by intros ?%elem_of_nil.
  - intros ev c rt tid. rewrite lookup_empty. simpl. by intros ?%elem_of_nil.
  - intros ev. rewrite lookup_empty. simpl. constructor.
  - intros id id' tm tm' c rt rt'. by rewrite lookup_empty.
  - intros id tm c rt. by rewrite lookup_empty.
Qed.

Lemma tidy_reachable (s : WebSocketService.t) : reachable s → tidy s.
Proof.
  intros [ls Hrun]. eapply tidy_run; [done|apply Inv_init|apply tidy_init].
Qed.

(** X20. In every state the service reaches, a response handler that is
    still registered sits under the event of its own response type, its
    call is still pending, the timeout of that call is still armed under
    the timer id the handler holds, and the array holds no second handler
    of that call: resolving, timing out and unregistering leave no handler
    of a settled call behind. *)
Theorem response_handlers_do_not_outlive_their_call (s : WebSocketService.t) :
  reachable s →
  ∀ ev c rt tid, responseHandler c rt tid ∈ listeners ev s →
    ev = rt
    ∧ promises s !! c = Some pending
    ∧ (∃ d, timers s !! tid = Some (timeoutTimer c rt d))
    ∧ (∀ l1 l2, listeners ev s = l1 ++ responseHandler c rt tid :: l2 →
         (c ∉ waiting l1) ∧ (c ∉ waiting l2)).
Proof.
  intros Hreach ev c rt tid Hin. pose proof (Inv_reachable s Hreach) as HI.
  pose proof (tidy_reachable s Hreach) as HT.
  destruct (inv_handler s HI _ _ _ _ Hin) as (-> & _).
  split; [done|]. split; [by eapply tidy_pending|]. split.
  - destruct (tidy_armed s HT _ _ _ _ Hin) as (tm & Htm & Htask).
    destruct (inv_timeout s HI _ _ _ _ Htm Htask) as [_ Hp].
    exists (due tm). rewrite Htm. f_equal. destruct tm; simpl in *. by subst.
  - intros l1 l2 Hl. pose proof (tidy_once s HT rt) as Hnd.
    rewrite Hl, waiting_app in Hnd. simpl in Hnd.
    apply NoDup_app in Hnd as (_ & Hd & Hnd). apply NoDup_cons in Hnd as [Hc2 _].
    split; [|done]. intros Hc1. apply (Hd c Hc1). left.
Qed.

(** The statement above on a concrete input. *)
Lemma response_handlers_do_not_outlive_their_call_witness :
  ∃ s, execs 0 [call_connect (Some (λ _, false)); socket_says ev_connect;
                call_sendConnectionRequest "phone" ["audio"]]
         WebSocketService.init = Some s
       ∧ responseHandler 0 "connection_response" 1 ∈ listeners "connection_response" s
       ∧ promises s !! 0%nat = Some pending
       ∧ ∃ d, timers s !! 1%nat = Some (timeoutTimer 0 "connection_response" d).
Proof.
  set (ls := [call_connect (Some (λ _, false)); socket_says ev_connect;
              call_sendConnectionRequest "phone" ["audio"]]).
  destruct (execs 0 ls WebSocketService.init) as [s|] eqn:E; [|by vm_compute in E].
  exists s. split; [done|].
  assert (Hr : reachable s).
  { exists ls. by apply (execs_run 0). }
  assert (Hin : responseHandler 0 "connection_response" 1
                ∈ listeners "connection_response" s).
  { vm_compute in E. injection E as <-. vm_compute. left. }
  destruct (response_handlers_do_not_outlive_their_call s Hr _ _ _ _ Hin)
    as (_ & Hp & Ht & _).
  done.
Defined.

(** X21. In every state the service reaches, a response timeout that is
    armed belongs to a call that is still pending; it is the only timeout
    of that call, and every handler registered for the call holds its
    timer id: a call that was resolved leaves no timeout that could still
    reject it. *)
Theorem a_timeout_is_armed_only_for_a_pending_call (s : WebSocketService.t) :
  reachable s →
  ∀ id tm c rt, timers s !! id = Some tm → task tm = responseTimeout c rt →
    promises s !! c = Some pending
    ∧ (∀ id' tm' rt', timers s !! id' = Some tm' →
         task tm' = responseTimeout c rt' → id' = id)
    ∧ (∀ ev rt' tid, responseHandler c rt' tid ∈ listeners ev s → tid = id).
Proof.
  intros Hreach id tm c rt Hid Htask. pose proof (tidy_reachable s Hreach) as HT.
  split; [by eapply tidy_live|]. split.
  - intros id' tm' rt' Hid' Htask'. by eapply (tidy_timer s HT id' id).
  - intros ev rt' tid Hin. destruct (tidy_armed s HT _ _ _ _ Hin) as (tm' & Hid' & Htask').
    by eapply (tidy_timer s HT tid id).
Qed.

(** The statement above on a concrete input. *)
Lemma a_timeout_is_armed_only_for_a_pending_call_witness :
  ∃ s, execs 0 [call_connect (Some (λ _, false)); socket_says ev_connect;
                call_sendConnectionRequest "phone" ["audio"];
                call_sendConnectionRequest "phone" ["audio"]]
         WebSocketService.init = Some s
       ∧ timers s !! 2%nat = Some (timeoutTimer 1 "connection_response" 10000)
       ∧ promises s !! 1%nat = Some pending.
Proof.
  set (ls := [call_connect (Some (λ _, false)); socket_says ev_connect;
              call_sendConnectionRequest "phone" ["audio"];
              call_sendConnectionRequest "phone" ["audio"]]).
  destruct (execs 0 ls WebSocketService.init) as [s|] eqn:E; [|by vm_compute in E].
  exists s. split; [done|].
  assert (Hr : reachable s).
  { exists ls. by apply (execs_run 0). }
  assert (Hid : timers s !! 2%nat = Some (timeoutTimer 1 "connection_response" 10000)).
  { vm_compute in E. injection E as <-. reflexivity. }
  split; [done|].
  by destruct (a_timeout_is_armed_only_for_a_pending_call s Hr _ _ _ _ Hid eq_refl).
Defined.

End Handlers.

(* ===================================================================== *)
(** * From the recorder to the transport *)
(* ===================================================================== *)

Section Streaming.

Import AudioService WebSocketService VoiceControlScreen.

Lemma onAudioChunk_send (sid : string) (c : AudioChunk) (ws : WebSocketService.t) :
  sid ≠ EmptyString →
  onAudioChunk (Some sid) c ws
  = sendMessage (audioMessage sid (now ws) (draws ws) c) (set_draws (S (draws ws)) ws).
Proof. intros Hsid. unfold onAudioChunk. by rewrite decide_False. Qed.

Lemma onAudioChunks_cons (sid : option string) (c : AudioChunk) (cs : list AudioChunk)
    (ws : WebSocketService.t) :
  onAudioChunks sid (c :: cs) ws = onAudioChunks sid cs (onAudioChunk sid c ws).
Proof. reflexivity. Qed.

Lemma onAudioChunks_up (sid : string) (cs : list AudioChunk) :
  ∀ (ws : WebSocketService.t) (k : Socket),
    sid ≠ EmptyString → socket ws = Some k → connected k = true →
    (∀ i, (i < length cs)%nat → throws k (emits k + i) = false) →
    transported (onAudioChunks (Some sid) cs ws)
    = transported ws ++ imap (λ i, audioMessage sid (now ws) (draws ws + i)) cs
    ∧ messageQueue (onAudioChunks (Some sid) cs ws) = messageQueue ws.
Proof.
  induction cs as [|c cs IH]; intros ws k Hsid Hk Hc Hthr.
  - simpl. by rewrite app_nil_r.
  - rewrite onAudioChunks_cons, onAudioChunk_send by done.
    assert (Hthr0 : throws k (emits k) = false).
    { rewrite <- (Nat.add_0_r (emits k)). apply Hthr. simpl. lia. }
    rewrite (sendMessage_accepted _ _ k) by done.
    edestruct IH as [-> ->]; [done | simpl; reflexivity | done | |].
    + simpl. intros i Hi. replace (S (emits k + i)) with (emits k + S i)%nat by lia.
      apply Hthr. simpl. lia.
    + unfold transported. simpl. rewrite Hk, <- app_assoc. simpl.
      rewrite Nat.add_0_r. split; [|done]. do 2 f_equal.
      apply imap_ext. intros i x _. simpl. f_equal. lia.
Qed.

Lemma onAudioChunks_down (sid : string) (cs : list AudioChunk) :
  ∀ ws : WebSocketService.t,
    sid ≠ EmptyString → isConnected ws = false →
    messageQueue (onAudioChunks (Some sid) cs ws)
    = messageQueue ws ++ imap (λ i, audioMessage sid (now ws) (draws ws + i)) cs
    ∧ transported (onAudioChunks (Some sid) cs ws) = transported ws.
Proof.
  induction cs as [|c cs IH]; intros ws Hsid Hdown.
  - simpl. by rewrite app_nil_r.
  - rewrite onAudioChunks_cons, onAudioChunk_send by done.
    rewrite sendMessage_down by done.
    edestruct IH as [-> ->]; [done | done |].
    unfold transported. simpl. rewrite <- app_assoc. simpl.
    rewrite Nat.add_0_r. split; [|done].
    do 2 f_equal. apply imap_ext. intros i x _. simpl. f_equal. lia.
Qed.

(** X19.  With a session id, the screen's ['audio_chunk'] listener turns
    the chunks of a recording into [audio_data] messages that carry the
    session id, the chunk's data and its sequence number, never marked
    final: on a connected socket whose emit does not throw they are
    handed to the transport in chunk order, on a socket that is down
    they are queued in chunk order.  Without a session id the chunks are
    dropped. *)
Theorem chunks_reach_the_server_in_order
    (sid : string) (cs : list AudioChunk) (ws : WebSocketService.t) :
  sid ≠ EmptyString →
  let sent := imap (λ i, audioMessage sid (now ws) (draws ws + i)) cs in
  (∀ k, socket ws = Some k → connected k = true →
        (∀ i, (i < length cs)%nat → throws k (emits k + i) = false) →
        transported (onAudioChunks (Some sid) cs ws) = transported ws ++ sent
        ∧ messageQueue (onAudioChunks (Some sid) cs ws) = messageQueue ws)
  ∧ (isConnected ws = false →
     messageQueue (onAudioChunks (Some sid) cs ws) = messageQueue ws ++ sent
     ∧ transported (onAudioChunks (Some sid) cs ws) = transported ws)
  ∧ onAudioChunks None cs ws = ws
  ∧ onAudioChunks (Some EmptyString) cs ws = ws.
Proof.
  intros Hsid sent. split; [|split; [|split]].
  - intros k Hk Hc Hthr. by apply (onAudioChunks_up sid cs ws k).
  - intros Hdown. by apply onAudioChunks_down.
  - unfold onAudioChunks. by induction cs.
  - unfold onAudioChunks. by induction cs.
Qed.

(** The statement above on a concrete input. *)
Lemma chunks_reach_the_server_in_order_witness :
  let cs := chunks (AudioService.emitted
                      (pass [([Byte.x01], 100); ([Byte.x02], 200)]
                         (startRecording MediaReady 0 AudioService.init).1)) in
  let down := onAudioChunks (Some "s1") cs WebSocketService.init in
  (λ m, match cm_data m with
        | audio_data_data _ _ n _ => n
        | _ => 0%nat
        end) <$> messageQueue down = [1%nat; 2%nat].
Proof.
  intros cs down.
  destruct (chunks_reach_the_server_in_order "s1" cs WebSocketService.init)
    as (_ & H & _); [done|].
  destruct H as [H _]; [done|]. subst down. rewrite H. reflexivity.
Defined.

End Streaming.
